(** * QGEP network graph: a shallow embedding of [tools/qgepnetwork.py]

    The development follows the Python module class by class:
    - [PyDict]: Python dictionaries (insertion ordered, unique keys);
    - [Qgis]: the values, features and layers the host hands to the module;
    - [FeatureCache]: class [QgepFeatureCache];
    - [Nx]: the part of [networkx] the module calls ([DiGraph], [reverse],
      [dijkstra_path], [bellman_ford_predecessor_and_distance]);
    - [GraphManager]: class [QgepGraphManager].

    Python exceptions are values of [exn]; a computation that may raise
    returns an [outcome].  Loops of the library that are [while] loops in
    Python run on fuel computed from the graph; [OutOfFuel] is the outcome
    of a loop that exhausted it, and it is shown below that no method ever
    ends that way.

    The definitions come first; the modules [PyDictFacts], [NxFacts] and
    [GraphManagerFacts] hold the lemmas about them, and [Claims] the
    statements of the specification checked against the code. *)

From Stdlib Require Import ZArith Lia Ascii.
From stdpp Require Import gmap strings list fin_maps pretty.

Local Open Scope Z_scope.

(** ** Exceptions and outcomes *)

Inductive exn : Type :=
| KeyError
| TypeError
| ValueError
| OverflowError
| AttributeError
| UnboundLocalError
| NodeNotFound
| NetworkXNoPath
| NetworkXUnbounded.

#[global] Instance exn_eq_dec : EqDecision exn.
Proof. solve_decision. Defined.

Inductive outcome (A : Type) : Type :=
| Ok (a : A)
| Raise (e : exn)
| OutOfFuel.

Arguments Ok {A} a.
Arguments Raise {A} e.
Arguments OutOfFuel {A}.

Definition obind {A B} (m : outcome A) (k : A -> outcome B) : outcome B :=
  match m with
  | Ok a => k a
  | Raise e => Raise e
  | OutOfFuel => OutOfFuel
  end.

#[global] Instance outcome_ret : MRet outcome := @Ok.
#[global] Instance outcome_bind : MBind outcome :=
  fun A B k m => obind m k.

(** [try: m  except e: h] *)
Definition try_except {A} (m : outcome A) (e : exn) (h : outcome A) : outcome A :=
  match m with
  | Raise e' => if decide (e' = e) then h else Raise e'
  | r => r
  end.

(** [d[k]] on a lookup result: a missing key raises [KeyError]. *)
Definition subscript {A} (o : option A) : outcome A :=
  match o with
  | Some a => Ok a
  | None => Raise KeyError
  end.

Definition is_Ok {A} (o : outcome A) : Prop := exists a, o = Ok a.

(** A list comprehension whose element expression may raise. *)
Fixpoint comprehension {A B} (f : A -> outcome B) (l : list A) : outcome (list B) :=
  match l with
  | [] => Ok []
  | a :: l' =>
      b ← f a;
      bs ← comprehension f l';
      Ok (b :: bs)
  end.

(** ** Python dictionaries

    A [dict] keeps its items in insertion order and iteration ([items()],
    [keys()], [values()]) follows that order; assigning to an existing key
    keeps the key's position. *)

Module PyDict.
Section Dict.
Context {K V : Type} `{EqDecision K}.

Definition t : Type := list (K * V).

Fixpoint get (k : K) (d : list (K * V)) : option V :=
  match d with
  | [] => None
  | (k', v) :: d' => if decide (k = k') then Some v else get k d'
  end.

(** [d[k] = v] *)
Fixpoint set (k : K) (v : V) (d : list (K * V)) : list (K * V) :=
  match d with
  | [] => [(k, v)]
  | (k', v') :: d' =>
      if decide (k = k') then (k, v) :: d' else (k', v') :: set k v d'
  end.

Definition mem (k : K) (d : list (K * V)) : bool :=
  match get k d with Some _ => true | None => false end.

Definition keys (d : list (K * V)) : list K := d.*1.
Definition values (d : list (K * V)) : list V := d.*2.

(** [d.update(other)] *)
Definition update (d other : list (K * V)) : list (K * V) :=
  foldl (fun acc kv => set kv.1 kv.2 acc) d other.

End Dict.
End PyDict.

(** ** The host's data: field values, features, layers *)

Module Qgis.

(** What [feat[name]] yields: [NULL], a number, a text, or a point.
    Numbers are exact integers here (lengths and coordinates at a fixed
    scale); the rounding of binary floating point is outside the
    embedding. *)
Inductive value : Type :=
| VNull
| VInt (z : Z)
| VStr (s : string)
| VPoint (x y : Z).

#[global] Instance value_eq_dec : EqDecision value.
Proof. solve_decision. Defined.

(** [QgsFeature]: [id()], the attribute map behind [feat[name]], and what
    [feat.geometry().asPoint()] does: it returns a point or raises. *)
Record feature : Type := mkFeature {
  fid : Z;
  attributes : list (string * value);
  asPoint : (Z * Z) + exn
}.

(** [feat.geometry().asPoint()] *)
Definition geometry_asPoint (feat : feature) : outcome (Z * Z) :=
  match asPoint feat with
  | inl p => Ok p
  | inr e => Raise e
  end.

(** [feat[name]] *)
Definition field (feat : feature) (name : string) : outcome value :=
  subscript (PyDict.get name (attributes feat)).

(** [QgsVectorLayer]: [id()] and the records [dataProvider().getFeatures()]
    iterates. *)
Record layer : Type := mkLayer {
  layer_id : string;
  features : list feature
}.

(** [str(v)] *)
Definition str (v : value) : string :=
  match v with
  | VNull => "NULL"
  | VInt z => pretty z
  | VStr s => s
  | VPoint x y => "<QgsPointXY: POINT(" +:+ pretty x +:+ " " +:+ pretty y +:+ ")>"
  end.

End Qgis.

(** ** The builtin [float]

    [float(x)] is Python's, not code of the module, and what it makes of a
    number and of a text is taken as given: [of_number z] is the float of
    the number [z], or nothing where the number is too large for one
    ([OverflowError]); [of_text s] is the float the text [s] spells, or
    nothing where it spells none ([ValueError]).  Every other argument
    ([None], a point) is a [TypeError]. *)

Module PyFloat.
Section Float.
Context {t : Type} (of_number : Z -> option t) (of_text : string -> option t).

Definition float (x : option Qgis.value) : outcome t :=
  match x with
  | Some (Qgis.VInt z) =>
      match of_number z with
      | Some f => Ok f
      | None => Raise OverflowError
      end
  | Some (Qgis.VStr s) =>
      match of_text s with
      | Some f => Ok f
      | None => Raise ValueError
      end
  | _ => Raise TypeError
  end.

End Float.
End PyFloat.

(** ** class QgepFeatureCache *)

Module FeatureCache.
Import Qgis.

(** Keys of [_featuresByObjId] are what [attrAsUnicode] returns: a field
    value, or [None]. *)
Record t : Type := mkCache {
  _featuresById : list (Z * feature);
  _featuresByObjId : list (option value * feature);
  objIdField : string;
  layer : option Qgis.layer
}.

(** [__init__(self, layer, obj_id_field='obj_id')] *)
Definition init (l : option Qgis.layer) (obj_id_field : string) : t :=
  {| _featuresById := []; _featuresByObjId := [];
     objIdField := obj_id_field; layer := l |}.

(** [attr]: [None] for a [NULL] field, the field otherwise; an unknown
    field is logged and gives [None]. *)
Definition attr (feat : feature) (name : string) : outcome (option value) :=
  try_except
    (v ← field feat name;
     if decide (v = VNull) then Ok None else Ok (Some v))
    KeyError
    (Ok None).

Definition attrAsUnicode (feat : feature) (name : string) : outcome (option value) :=
  attr feat name.

(** What [attr] returns, as a value: it is shown to return always. *)
Definition attr_value (feat : feature) (name : string) : option value :=
  match PyDict.get name (attributes feat) with
  | Some VNull | None => None
  | Some v => Some v
  end.

Definition attrAsFloat {float : Type} (of_number : Z -> option float)
    (of_text : string -> option float) (feat : feature) (name : string)
  : outcome (option float) :=
  try_except
    (v ← attr feat name;
     f ← PyFloat.float of_number of_text v;
     Ok (Some f))
    TypeError
    (Ok None).

Definition addFeature (feat : feature) (c : t) : outcome t :=
  let byId := PyDict.set (fid feat) feat (_featuresById c) in
  k ← attrAsUnicode feat (objIdField c);
  Ok {| _featuresById := byId;
        _featuresByObjId := PyDict.set k feat (_featuresByObjId c);
        objIdField := objIdField c; layer := layer c |}.

Definition featureById (i : Z) (c : t) : outcome feature :=
  subscript (PyDict.get i (_featuresById c)).

Definition featureByObjId (o : option value) (c : t) : outcome feature :=
  subscript (PyDict.get o (_featuresByObjId c)).

(** [__getitem__]: [cache[key]] *)
Definition getitem (key : Z) (c : t) : outcome feature := featureById key c.

(** The second group of the match [re.search] finds for the pattern of
    [attrAsGeometry] (an optional first group, any characters up to a
    semicolon, then a second group of any characters): the match starts at
    the first character, the dot takes no line feed, and the first group,
    being greedy, ends at the last semicolon of the first line. *)
Fixpoint first_line (l : list ascii) : list ascii :=
  match l with
  | [] => []
  | c :: l' => if decide (c = "010"%char) then [] else c :: first_line l'
  end.

Fixpoint after_last_semicolon (l : list ascii) : list ascii :=
  match l with
  | [] => []
  | c :: l' =>
      if decide (";"%char ∈ l') then after_last_semicolon l'
      else if decide (c = ";"%char) then l'
      else l
  end.

Definition srid_stripped (s : string) : string :=
  String.string_of_list_ascii
    (after_last_semicolon (first_line (String.list_ascii_of_string s))).

(** [attrAsGeometry], for the host's [QgsGeometry.fromWkt]: [re.search]
    takes a text only. *)
Definition attrAsGeometry {geometry : Type} (fromWkt : string -> geometry)
    (feat : feature) (name : string) : outcome geometry :=
  ewktstring ← attrAsUnicode feat name;
  match ewktstring with
  | Some (VStr s) => Ok (fromWkt (srid_stripped s))
  | _ => Raise TypeError
  end.

Definition asDict (c : t) : list (Z * feature) := _featuresById c.

Definition asObjIdDict (c : t) : list (Z * feature) := _featuresById c.

(** A sequence of [addFeature] calls on a fresh cache. *)
Fixpoint addFeatures (feats : list feature) (c : t) : outcome t :=
  match feats with
  | [] => Ok c
  | f :: fs => c' ← addFeature f c; addFeatures fs c'
  end.

End FeatureCache.

(** ** The graph library

    [qgepnetwork.py] imports [networkx], which is not part of the
    repository.  What the module calls is written here after the library's
    own code (the 2.x releases, which have both [DiGraph.node] and
    [bellman_ford_predecessor_and_distance]): [DiGraph.add_node],
    [add_edge], [reverse], indexing, and the two shortest-path searches.

    [DiGraph] keeps, per node and in insertion order, the node's attribute
    dictionary and the dictionary of its successors (the library's [_node]
    and [_succ], which always have the same keys; [_pred], which mirrors
    [_succ], is read by nothing the module calls and is left out). *)

Module Nx.
Import Qgis.

Definition attrs : Type := list (string * value).

Record DiGraph : Type := mkDiGraph {
  nodes : list (Z * (attrs * list (Z * attrs)))
}.

Definition empty : DiGraph := mkDiGraph [].

(** [n in G], [len(G)] *)
Definition has_node (n : Z) (G : DiGraph) : bool := PyDict.mem n (nodes G).
Definition len (G : DiGraph) : nat := length (nodes G).

(** [G.node[n]] *)
Definition node (G : DiGraph) (n : Z) : outcome attrs :=
  d ← subscript (PyDict.get n (nodes G)); Ok d.1.

(** [G.succ[n]] *)
Definition succ (G : DiGraph) (n : Z) : outcome (list (Z * attrs)) :=
  d ← subscript (PyDict.get n (nodes G)); Ok d.2.

(** [G[u][v]] *)
Definition edge_data (G : DiGraph) (u v : Z) : outcome attrs :=
  s ← succ G u; subscript (PyDict.get v s).

(** [G.add_node(n, **a)] *)
Definition add_node (n : Z) (a : attrs) (G : DiGraph) : DiGraph :=
  match PyDict.get n (nodes G) with
  | None => mkDiGraph (PyDict.set n (PyDict.update [] a, []) (nodes G))
  | Some (na, s) => mkDiGraph (PyDict.set n (PyDict.update na a, s) (nodes G))
  end.

(** The first half of [add_edge]: an endpoint that is not a node yet
    becomes one, with no attributes. *)
Definition touch (n : Z) (G : DiGraph) : DiGraph :=
  match PyDict.get n (nodes G) with
  | None => mkDiGraph (PyDict.set n ([], []) (nodes G))
  | Some _ => G
  end.

(** [G.add_edge(u, v, **a)]: the attributes update the edge's dictionary
    when the edge exists. *)
Definition add_edge (u v : Z) (a : attrs) (G : DiGraph) : DiGraph :=
  let G := touch v (touch u G) in
  match PyDict.get u (nodes G) with
  | Some (na, s) =>
      let datadict := default [] (PyDict.get v s) in
      mkDiGraph (PyDict.set u (na, PyDict.set v (PyDict.update datadict a) s) (nodes G))
  | None => G
  end.

(** [G.edges(data=True)] *)
Definition edges (G : DiGraph) : list (Z * Z * attrs) :=
  flat_map (fun '(u, (_, s)) => map (fun '(v, d) => (u, v, d)) s) (nodes G).

(** The two ends of an edge triple. *)
Definition endpoints (e : Z * Z * attrs) : Z * Z := (e.1.1, e.1.2).

(** [G.reverse()]: a new graph with the same nodes and every edge turned. *)
Definition reverse (G : DiGraph) : DiGraph :=
  let H := foldl (fun H '(n, (d, _)) => add_node n d H) empty (nodes G) in
  foldl (fun H '(u, v, d) => add_edge v u d H) H (edges G).

(** The weight of an edge as the algorithms read it: [data.get('weight', 1)],
    which must be a number where it is added to a distance. *)
Definition weight (e : attrs) : outcome Z :=
  match PyDict.get "weight" e with
  | None => Ok 1
  | Some (VInt z) => Ok z
  | Some _ => Raise TypeError
  end.

(** A [for] loop whose body may raise. *)
Fixpoint for_each {S A : Type} (body : S -> A -> outcome S) (l : list A) (s : S)
  : outcome S :=
  match l with
  | [] => Ok s
  | a :: l' => s' ← body s a; for_each body l' s'
  end.

(** *** Dijkstra ([_dijkstra_multisource], one source, no cutoff)

    The fringe is a heap of [(distance, count, node)] tuples; [heappop]
    returns the least tuple, and tuples are ordered lexicographically. *)

Definition entry : Type := Z * nat * Z.

Definition entry_lt (x y : entry) : bool :=
  let '(d1, c1, n1) := x in
  let '(d2, c2, n2) := y in
  (d1 <? d2) || ((d1 =? d2) && ((c1 <? c2)%nat || ((c1 =? c2)%nat && (n1 <? n2)))).

Definition heappush (h : list entry) (x : entry) : list entry := x :: h.

Fixpoint heappop (h : list entry) : option (entry * list entry) :=
  match h with
  | [] => None
  | x :: h' =>
      match heappop h' with
      | None => Some (x, [])
      | Some (y, r) => if entry_lt y x then Some (y, x :: r) else Some (x, h')
      end
  end.

Record dijkstra_state : Type := mkDijkstra {
  dist : gmap Z Z;
  seen : gmap Z Z;
  paths : gmap Z (list Z);
  fringe : list entry;
  counter : nat
}.

(** The body of [for u, e in G_succ[v].items()]. *)
Definition relax (v : Z) (st : dijkstra_state) (ue : Z * attrs)
  : outcome dijkstra_state :=
  let '(u, e) := ue in
  cost ← weight e;
  dv ← subscript (dist st !! v);
  let vu_dist := dv + cost in
  match dist st !! u with
  | Some du => if vu_dist <? du then Raise ValueError else Ok st
  | None =>
      if match seen st !! u with None => true | Some su => vu_dist <? su end
      then
        pv ← subscript (paths st !! v);
        Ok {| dist := dist st;
              seen := <[u := vu_dist]> (seen st);
              paths := <[u := pv ++ [u]]> (paths st);
              fringe := heappush (fringe st) (vu_dist, counter st, u);
              counter := S (counter st) |}
      else Ok st
  end.

(** [while fringe: ...] *)
Fixpoint dijkstra_loop (fuel : nat) (G : DiGraph) (target : Z) (st : dijkstra_state)
  : outcome dijkstra_state :=
  match fuel with
  | O => OutOfFuel
  | S fuel' =>
      match heappop (fringe st) with
      | None => Ok st
      | Some ((d, _, v), rest) =>
          match dist st !! v with
          | Some _ =>
              dijkstra_loop fuel' G target
                {| dist := dist st; seen := seen st; paths := paths st;
                   fringe := rest; counter := counter st |}
          | None =>
              let st1 := {| dist := <[v := d]> (dist st); seen := seen st;
                            paths := paths st; fringe := rest;
                            counter := counter st |} in
              if decide (v = target) then Ok st1
              else
                s ← succ G v;
                st2 ← for_each (relax v) s st1;
                dijkstra_loop fuel' G target st2
          end
      end
  end.

Definition dijkstra_fuel (G : DiGraph) : nat :=
  2 + length (nodes G) + length (edges G).

Definition _dijkstra_multisource (G : DiGraph) (source target : Z)
    (paths0 : gmap Z (list Z)) : outcome dijkstra_state :=
  if has_node source G then
    dijkstra_loop (dijkstra_fuel G) G target
      {| dist := ∅; seen := {[source := 0]}; paths := paths0;
         fringe := [(0, 0%nat, source)]; counter := 1 |}
  else Raise NodeNotFound.

(** [dijkstra_path(G, source, target)] through [single_source_dijkstra] and
    [multi_source_dijkstra]. *)
Definition dijkstra_path (G : DiGraph) (source target : Z) : outcome (list Z) :=
  if decide (target = source) then Ok [target]
  else
    st ← _dijkstra_multisource G source target {[source := [source]]};
    try_except
      (_ ← subscript (dist st !! target); subscript (paths st !! target))
      KeyError
      (Raise NetworkXNoPath).

(** *** Bellman-Ford

    [bellman_ford_predecessor_and_distance] and the queue-based relaxation
    of [_bellman_ford] behind it.  The first result maps every node reached
    to the list of its predecessors on shortest paths; the source starts
    with the empty list (with [[None]] in the releases 2.0 and 2.1: [None]
    is in no queue, and a list is a list to what reads the result). *)

Record bf_state : Type := mkBF {
  bf_dist : gmap Z Z;
  bf_pred : list (Z * list Z);
  queue : list Z;
  in_q : gset Z;
  count : gmap Z nat
}.

(** The body of [for v, e in G_succ[u].items()]: a shorter distance
    replaces the predecessors of [v] by [u] and queues [v], an equal one
    appends [u] to them. *)
Definition bf_relax (n : nat) (u : Z) (dist_u : Z) (st : bf_state) (ve : Z * attrs)
  : outcome bf_state :=
  let '(v, e) := ve in
  w ← weight e;
  let dist_v := dist_u + w in
  if match bf_dist st !! v with None => true | Some dv => dist_v <? dv end
  then
    st1 ← (if decide (v ∈ in_q st) then Ok st
           else
             let count_v := S (default O (count st !! v)) in
             if decide (count_v = n) then Raise NetworkXUnbounded
             else Ok {| bf_dist := bf_dist st; bf_pred := bf_pred st;
                        queue := queue st ++ [v]; in_q := in_q st ∪ {[v]};
                        count := <[v := count_v]> (count st) |});
    Ok {| bf_dist := <[v := dist_v]> (bf_dist st1);
          bf_pred := PyDict.set v [u] (bf_pred st1);
          queue := queue st1; in_q := in_q st1; count := count st1 |}
  else if match bf_dist st !! v with None => false | Some dv => dist_v =? dv end
  then
    pv ← subscript (PyDict.get v (bf_pred st));
    Ok {| bf_dist := bf_dist st;
          bf_pred := PyDict.set v (pv ++ [u]) (bf_pred st);
          queue := queue st; in_q := in_q st; count := count st |}
  else Ok st.

(** [while q: ...]; a node is relaxed when none of its predecessors is in
    the queue. *)
Fixpoint bf_loop (fuel : nat) (G : DiGraph) (st : bf_state) : outcome bf_state :=
  match fuel with
  | O => OutOfFuel
  | S fuel' =>
      match queue st with
      | [] => Ok st
      | u :: q =>
          let st1 := {| bf_dist := bf_dist st; bf_pred := bf_pred st; queue := q;
                        in_q := in_q st ∖ {[u]}; count := count st |} in
          pu ← subscript (PyDict.get u (bf_pred st1));
          if forallb (fun pred_u => bool_decide (pred_u ∉ in_q st1)) pu
          then
            dist_u ← subscript (bf_dist st1 !! u);
            s ← succ G u;
            st2 ← for_each (bf_relax (len G) u dist_u) s st1;
            bf_loop fuel' G st2
          else bf_loop fuel' G st1
      end
  end.

Definition bf_fuel (G : DiGraph) : nat :=
  2 + len G * length (edges G).

(** [any(weight(u, v, d) < 0 for u, v, d in selfloop_edges(G))] *)
Fixpoint negative_selfloop (es : list (Z * Z * attrs)) : outcome bool :=
  match es with
  | [] => Ok false
  | (u, v, d) :: es' =>
      if decide (u = v) then
        w ← weight d;
        if w <? 0 then Ok true else negative_selfloop es'
      else negative_selfloop es'
  end.

Definition bellman_ford_predecessor_and_distance (G : DiGraph) (source : Z)
  : outcome (list (Z * list Z) * gmap Z Z) :=
  if has_node source G then
    neg ← negative_selfloop (edges G);
    if (neg : bool) then Raise NetworkXUnbounded
    else
      let st0 := {| bf_dist := {[source := 0]}; bf_pred := [(source, [])];
                    queue := [source]; in_q := {[source]}; count := ∅ |} in
      if decide (len G = 1%nat) then Ok (bf_pred st0, bf_dist st0)
      else
        st ← bf_loop (bf_fuel G) G st0;
        Ok (bf_pred st, bf_dist st)
  else Raise NodeNotFound.

(** *** Lists where the library wants a node

    [G[key]] with a list for [key]: the adjacency is a dictionary, and a
    list cannot be looked up in one ([TypeError: unhashable type]).
    [set(l)] of nodes and lists: a list among the elements is the same
    [TypeError]; the nodes alone make the set, iterated in its order. *)
Definition adj_of_list (G : DiGraph) (key : list Z) : outcome (list (Z * attrs)) :=
  Raise TypeError.

Definition set_of (l : list (Z + list Z)) : outcome (list Z) :=
  ns ← comprehension
         (fun x => match x with inl n => Ok n | inr _ => Raise TypeError end) l;
  Ok (elements (list_to_set ns : gset Z)).

(** *** Properties of graphs *)

(** There is an edge from [u] to [v]. *)
Definition has_edge (G : DiGraph) (u v : Z) : Prop :=
  exists a, edge_data G u v = Ok a.

(** A directed path leads from [a] to [b]. *)
Inductive reachable (G : DiGraph) (a : Z) : Z -> Prop :=
| reachable_refl : reachable G a a
| reachable_step u v : reachable G a u -> has_edge G u v -> reachable G a v.

(** [p] is a walk in the graph: each node is joined to the next by an edge. *)
Fixpoint walk (G : DiGraph) (p : list Z) : Prop :=
  match p with
  | u :: (v :: _) as rest => has_edge G u v /\ walk G rest
  | _ => True
  end.

(** [p] leads from [a] to [b] along edges of the graph. *)
Definition path_from_to (G : DiGraph) (a b : Z) (p : list Z) : Prop :=
  head p = Some a /\ last p = Some b /\ walk G p.

(** What the loop of Dijkstra's algorithm keeps true of the recorded paths. *)
Definition paths_inv (G : DiGraph) (a : Z) (st : dijkstra_state) : Prop :=
  forall v p, paths st !! v = Some p -> path_from_to G a v p.

(** The weight of the edge from [u] to [v] as the searches read it, and the
    weight of a path: the sum over its edges. *)
Definition edge_weight (G : DiGraph) (u v : Z) : Z :=
  match edge_data G u v with
  | Ok e => match weight e with Ok w => w | _ => 0 end
  | _ => 0
  end.

Fixpoint path_weight (G : DiGraph) (p : list Z) : Z :=
  match p with
  | u :: (v :: _) as rest => edge_weight G u v + path_weight G rest
  | _ => 0
  end.

(** What the loop of Dijkstra's algorithm keeps true of its distances, for
    source [a] and the node [cur] whose edges are being relaxed, if any:
    the distance seen for a node is the weight of its recorded path; a
    settled node has its final distance, which no path to it undercuts; a
    node in the fringe was seen, at no more than the distance of the entry;
    a node seen and not settled has an entry with the distance seen; every
    edge out of a settled node other than [cur] leads to a node seen at no
    more than the distance through the edge; and no settled distance
    exceeds a distance in the fringe. *)
Record search_inv (G : DiGraph) (a : Z) (cur : option Z) (st : dijkstra_state)
  : Prop := mkSearch {
  si_source : exists sa, seen st !! a = Some sa /\ sa <= 0;
  si_seen : forall v sv, seen st !! v = Some sv ->
    exists p, paths st !! v = Some p /\ path_from_to G a v p
              /\ path_weight G p = sv;
  si_settled : forall v dv, dist st !! v = Some dv ->
    seen st !! v = Some dv
    /\ forall q, path_from_to G a v q -> dv <= path_weight G q;
  si_fringe : forall d c v, (d, c, v) ∈ fringe st ->
    exists sv, seen st !! v = Some sv /\ sv <= d;
  si_pending : forall v sv, seen st !! v = Some sv -> dist st !! v = None ->
    exists c, (sv, c, v) ∈ fringe st;
  si_closed : forall u du x, dist st !! u = Some du -> Some u <> cur ->
    has_edge G u x ->
    exists sx, seen st !! x = Some sx /\ sx <= du + edge_weight G u x;
  si_order : forall u du d c v,
    dist st !! u = Some du -> (d, c, v) ∈ fringe st -> du <= d
}.

(** What the class maintains: a dictionary has each key once, and the
    successors of a node are nodes. *)
Record wf (G : DiGraph) : Prop := mkWf {
  wf_nodes : NoDup (PyDict.keys (nodes G));
  wf_succ : forall u na s, (u, (na, s)) ∈ nodes G -> NoDup (PyDict.keys s);
  wf_attrs : forall u na s v a,
    (u, (na, s)) ∈ nodes G -> (v, a) ∈ s -> NoDup (PyDict.keys a);
  wf_closed : forall u na s v a,
    (u, (na, s)) ∈ nodes G -> (v, a) ∈ s -> has_node v G = true
}.

(** What the loop of Dijkstra's algorithm keeps true, for source [a]: the
    nodes in the fringe and the settled nodes are reached from [a] by a
    path, fringe nodes are nodes with a recorded path, and no settled
    distance exceeds a distance in the fringe. *)
Record dijkstra_inv (G : DiGraph) (a : Z) (st : dijkstra_state) : Prop := mkInv {
  inv_fringe : forall d c v, (d, c, v) ∈ fringe st ->
    reachable G a v /\ has_node v G = true /\ is_Some (paths st !! v);
  inv_dist : forall u du, dist st !! u = Some du -> reachable G a u;
  inv_order : forall u du d c v,
    dist st !! u = Some du -> (d, c, v) ∈ fringe st -> du <= d
}.

(** The work left to the loop besides the fringe: one step per node that
    is not settled, and one per edge leaving such a node. *)
Definition unsettled (l : list (Z * (attrs * list (Z * attrs)))) (dist : gmap Z Z)
  : nat :=
  sum_list (map (fun '(v, (_, s)) =>
                   match dist !! v with Some _ => O | None => S (length s) end) l).

(** The nodes that edges lead to, each once, and what the queue of
    Bellman-Ford can still take in: a node enters it fewer than [n] times. *)
Definition bf_targets (G : DiGraph) : list Z :=
  remove_dups ((fun e : Z * Z * attrs => e.1.2) <$> edges G).

Definition bf_budget (n : nat) (targets : list Z) (count : gmap Z nat) : nat :=
  sum_list_with (fun v => n - 1 - default O (count !! v))%nat targets.

(** While Bellman-Ford runs, every count stays below [n], and what is
    left to do is bounded by the queue and the budget. *)
Definition bf_counts_below (n : nat) (st : bf_state) : Prop :=
  forall x c, count st !! x = Some c -> (c < n)%nat.

Definition bf_left (n : nat) (T : list Z) (st : bf_state) : nat :=
  (length (queue st) + bf_budget n T (count st))%nat.

(** Every edge carries a weight that is a number and not negative. *)
Definition nonneg_weights (G : DiGraph) : Prop :=
  forall u v a, edge_data G u v = Ok a -> exists w, weight a = Ok w /\ 0 <= w.

(** A check of [nonneg_weights] that runs over the edges. *)
Definition weights_checked (G : DiGraph) : bool :=
  forallb (fun '(_, _, a) =>
             match weight a with Ok w => 0 <=? w | _ => false end)
          (edges G).

End Nx.

(** ** class QgepGraphManager

    The attributes of the manager are the fields of [t]; a method is a
    function from the state before to its result and the state after, so
    that what a method changed before it raised stays visible.  [timings]
    keeps the names of the profiled phases (the clock readings are left
    out), and the messages written to the console and to the host's
    message bar are not part of the state. *)

Module GraphManager.
Import Qgis.

Record t : Type := mkManager {
  reachLayer : option layer;
  reachLayerId : value;
  nodeLayer : option layer;
  nodeLayerId : value;
  dirty : bool;
  graph : option Nx.DiGraph;
  vertexIds : gmap string Z;
  nodesOnStructure : list (string * list Z);
  timings : list string
}.

(** The class attributes a new manager starts from. *)
Definition initial : t :=
  {| reachLayer := None; reachLayerId := VInt (-1);
     nodeLayer := None; nodeLayerId := VInt (-1);
     dirty := true; graph := None; vertexIds := ∅;
     nodesOnStructure := []; timings := [] |}.

Definition M (A : Type) : Type := t -> outcome A * t.

Definition ret {A} (a : A) : M A := fun s => (Ok a, s).
Definition raise {A} (e : exn) : M A := fun s => (Raise e, s).
Definition lift {A} (o : outcome A) : M A := fun s => (o, s).
Definition bind {A B} (m : M A) (k : A -> M B) : M B :=
  fun s =>
    match m s with
    | (Ok a, s') => k a s'
    | (Raise e, s') => (Raise e, s')
    | (OutOfFuel, s') => (OutOfFuel, s')
    end.
Definition modify (f : t -> t) : M unit := fun s => (Ok tt, f s).
Definition read {A} (f : t -> A) : M A := fun s => (Ok (f s), s).

(** [try: m  except e: h] *)
Definition catch {A} (m : M A) (e : exn) (h : M A) : M A :=
  fun s =>
    match m s with
    | (Raise e', s') => if decide (e' = e) then h s' else (Raise e', s')
    | r => r
    end.

#[global] Instance M_ret : MRet M := @ret.
#[global] Instance M_bind : MBind M := fun A B k m => bind m k.

(** [obj.method(...)] on an attribute that may be [None]. *)
Definition deref {A} (o : option A) : M A :=
  match o with
  | Some a => ret a
  | None => raise AttributeError
  end.

Definition set_reachLayer (l : option layer) (s : t) : t :=
  {| reachLayer := l; reachLayerId := reachLayerId s; nodeLayer := nodeLayer s;
     nodeLayerId := nodeLayerId s; dirty := dirty s; graph := graph s;
     vertexIds := vertexIds s; nodesOnStructure := nodesOnStructure s;
     timings := timings s |}.
Definition set_reachLayerId (i : value) (s : t) : t :=
  {| reachLayer := reachLayer s; reachLayerId := i; nodeLayer := nodeLayer s;
     nodeLayerId := nodeLayerId s; dirty := dirty s; graph := graph s;
     vertexIds := vertexIds s; nodesOnStructure := nodesOnStructure s;
     timings := timings s |}.
Definition set_nodeLayer (l : option layer) (s : t) : t :=
  {| reachLayer := reachLayer s; reachLayerId := reachLayerId s; nodeLayer := l;
     nodeLayerId := nodeLayerId s; dirty := dirty s; graph := graph s;
     vertexIds := vertexIds s; nodesOnStructure := nodesOnStructure s;
     timings := timings s |}.
Definition set_nodeLayerId (i : value) (s : t) : t :=
  {| reachLayer := reachLayer s; reachLayerId := reachLayerId s;
     nodeLayer := nodeLayer s; nodeLayerId := i; dirty := dirty s;
     graph := graph s; vertexIds := vertexIds s;
     nodesOnStructure := nodesOnStructure s; timings := timings s |}.
Definition set_dirty (b : bool) (s : t) : t :=
  {| reachLayer := reachLayer s; reachLayerId := reachLayerId s;
     nodeLayer := nodeLayer s; nodeLayerId := nodeLayerId s; dirty := b;
     graph := graph s; vertexIds := vertexIds s;
     nodesOnStructure := nodesOnStructure s; timings := timings s |}.
Definition set_graph (g : option Nx.DiGraph) (s : t) : t :=
  {| reachLayer := reachLayer s; reachLayerId := reachLayerId s;
     nodeLayer := nodeLayer s; nodeLayerId := nodeLayerId s; dirty := dirty s;
     graph := g; vertexIds := vertexIds s;
     nodesOnStructure := nodesOnStructure s; timings := timings s |}.
Definition set_vertexIds (m : gmap string Z) (s : t) : t :=
  {| reachLayer := reachLayer s; reachLayerId := reachLayerId s;
     nodeLayer := nodeLayer s; nodeLayerId := nodeLayerId s; dirty := dirty s;
     graph := graph s; vertexIds := m;
     nodesOnStructure := nodesOnStructure s; timings := timings s |}.
Definition set_nodesOnStructure (m : list (string * list Z)) (s : t) : t :=
  {| reachLayer := reachLayer s; reachLayerId := reachLayerId s;
     nodeLayer := nodeLayer s; nodeLayerId := nodeLayerId s; dirty := dirty s;
     graph := graph s; vertexIds := vertexIds s;
     nodesOnStructure := m; timings := timings s |}.
Definition set_timings (l : list string) (s : t) : t :=
  {| reachLayer := reachLayer s; reachLayerId := reachLayerId s;
     nodeLayer := nodeLayer s; nodeLayerId := nodeLayerId s; dirty := dirty s;
     graph := graph s; vertexIds := vertexIds s;
     nodesOnStructure := nodesOnStructure s; timings := l |}.

(** [_profile(name)] *)
Definition _profile (name : string) : M unit :=
  modify (fun s => set_timings (timings s ++ [name]) s).

(** [print_profile()] only prints. *)
Definition print_profile : M unit := ret tt.

(** *** Building the graph *)

(** The body of the loop of [_addVertices].  [vertex] is the local
    variable of that name: unbound ([None]) until a record's point was
    read. *)
Definition addVertex (vertex : option (Z * Z)) (feat : feature)
  : M (option (Z * Z)) :=
  let fid := fid feat in
  obj_id ← lift (field feat "obj_id");
  obj_type ← lift (field feat "type");
  vertex ← catch (p ← lift (geometry_asPoint feat); ret (Some p))
                 AttributeError
                 (ret vertex);
  g ← (g ← read graph; deref g);
  pt ← match vertex with
       | Some (x, y) => ret (VPoint x y)
       | None => raise UnboundLocalError
       end;
  _ ← modify (set_graph (Some (Nx.add_node fid
         [("point", pt); ("objType", obj_type); ("objId", obj_id)] g)));
  _ ← modify (fun s => set_vertexIds (<[str obj_id := fid]> (vertexIds s)) s);
  ret vertex.

Fixpoint addVertices_loop (feats : list feature) (vertex : option (Z * Z))
  : M unit :=
  match feats with
  | [] => ret tt
  | feat :: rest =>
      vertex' ← addVertex vertex feat;
      addVertices_loop rest vertex'
  end.

Definition _addVertices : M unit :=
  l ← (l ← read nodeLayer; deref l);
  _ ← addVertices_loop (features l) None;
  _profile "add vertices".

(** [self.vertexIds[k]]: the keys of the index are texts. *)
Definition vertexId (k : value) : M Z :=
  ids ← read vertexIds;
  match k with
  | VStr s => lift (subscript (ids !! s))
  | _ => raise KeyError
  end.

(** The node an endpoint field of a reach resolves to in the object-id
    index, if it does. *)
Definition endpoint (ids : gmap string Z) (feat : feature) (name : string)
  : option Z :=
  match field feat name with
  | Ok (VStr k) => ids !! k
  | _ => None
  end.

(** The body of the loop of [_addEdges]. *)
Definition addEdge (feat : feature) : M unit :=
  catch
    (obj_id ← lift (field feat "obj_id");
     obj_type ← lift (field feat "type");
     from_obj_id ← lift (field feat "from_obj_id");
     to_obj_id ← lift (field feat "to_obj_id");
     length ← lift (field feat "length_calc");
     pt_id1 ← vertexId from_obj_id;
     pt_id2 ← vertexId to_obj_id;
     g ← (g ← read graph; deref g);
     modify (set_graph (Some (Nx.add_edge pt_id1 pt_id2
       [("weight", length); ("feature", VInt (fid feat));
        ("baseFeature", obj_id); ("objType", obj_type)] g))))
    KeyError
    (ret tt).

Fixpoint addEdges_loop (feats : list feature) : M unit :=
  match feats with
  | [] => ret tt
  | feat :: rest => _ ← addEdge feat; addEdges_loop rest
  end.

Definition _addEdges : M unit :=
  l ← (l ← read reachLayer; deref l);
  _ ← addEdges_loop (features l);
  _profile "add edges".

Definition createGraph : M unit :=
  _ ← _profile "create graph";
  _ ← modify (set_vertexIds ∅);
  _ ← modify (set_nodesOnStructure []);
  _ ← _profile "initiate dicts";
  _ ← modify (set_graph (Some Nx.empty));
  _ ← _profile "initiate graph";
  _ ← _addVertices;
  _ ← _addEdges;
  _ ← print_profile;
  modify (set_dirty false).

(** *** Layers *)

Definition layerId (l : option layer) : value :=
  match l with
  | Some l => VStr (layer_id l)
  | None => VInt 0
  end.

Definition both_layers (s : t) : bool :=
  match nodeLayer s, reachLayer s with
  | Some _, Some _ => true
  | _, _ => false
  end.

Definition setReachLayer (reach_layer : option layer) : M unit :=
  _ ← modify (set_reachLayer reach_layer);
  _ ← modify (set_dirty true);
  _ ← modify (set_reachLayerId (layerId reach_layer));
  both ← read both_layers;
  if (both : bool) then createGraph else ret tt.

Definition setNodeLayer (node_layer : option layer) : M unit :=
  _ ← modify (set_dirty true);
  _ ← modify (set_nodeLayer node_layer);
  _ ← modify (set_nodeLayerId (layerId node_layer));
  both ← read both_layers;
  if (both : bool) then createGraph else ret tt.

Definition getNodeLayer : M (option layer) := read nodeLayer.
Definition getReachLayer : M (option layer) := read reachLayer.
Definition getNodeLayerId : M value := read nodeLayerId.
Definition getReachLayerId : M value := read reachLayerId.

(** [refresh()]: the database refreshes its views (only messages come
    back from that), then the graph is cleared and built again. *)
Definition refresh : M unit :=
  _ ← (l ← read nodeLayer; deref l);
  g ← (g ← read graph; deref g);
  _ ← modify (set_graph (Some Nx.empty));
  createGraph.

(** *** Queries *)

Fixpoint zip_next (path : list Z) : list (Z * Z) :=
  match path with
  | u :: (v :: _) as rest => (u, v) :: zip_next rest
  | _ => []
  end.

(** The [try] block of [shortestPath] and its handler, on the graph the
    manager holds. *)
Definition shortestPath_on (g : option Nx.DiGraph) (start_point end_point : Z)
  : outcome (list Z * list (Z * Z * Nx.attrs)) :=
  try_except
    (path ← match g with
            | Some G => Nx.dijkstra_path G start_point end_point
            | None =>
                if decide (end_point = start_point) then Ok [end_point]
                else Raise AttributeError
            end;
     edges ← comprehension
               (fun '(u, v) =>
                  d ← match g with
                      | Some G => Nx.edge_data G u v
                      | None => Raise TypeError
                      end;
                  Ok (u, v, d))
               (zip_next path);
     Ok (path, edges))
    NetworkXNoPath
    (Ok ([], [])).

Definition shortestPath (start_point end_point : Z)
  : M (list Z * list (Z * Z * Nx.attrs)) :=
  d ← read dirty;
  _ ← (if (d : bool) then createGraph else ret tt);
  g ← read graph;
  lift (shortestPath_on g start_point end_point).

(** The body of [getTree] after the rebuild.  The predecessors [v] of a
    pair [(u, v)] of [pred.items()] are a list, which is not [None], so
    that every pair passes the filter and [my_graph[v]] is looked up with
    the list. *)
Definition getTree_on (g : option Nx.DiGraph) (n : Z) (reverse : bool)
  : outcome (list Nx.attrs * list (list Z * Z * Nx.attrs)) :=
  G ← match g with
    | Some G => Ok G
    | None => Raise (if reverse then AttributeError else TypeError)
    end;
  let my_graph := if reverse then Nx.reverse G else G in
  r ← Nx.bellman_ford_predecessor_and_distance my_graph n;
  let pred := r.1 in
  edges ← comprehension
            (fun '(u, v) =>
               s ← Nx.adj_of_list my_graph v;
               d ← subscript (PyDict.get u s);
               Ok (v, u, d))
            pred;
  ns ← Nx.set_of ((inl <$> PyDict.keys pred) ++ (inr <$> PyDict.values pred));
  nodes ← comprehension (Nx.node my_graph) ns;
  Ok (nodes, edges).

Definition getTree (n : Z) (reverse : bool)
  : M (list Nx.attrs * list (list Z * Z * Nx.attrs)) :=
  d ← read dirty;
  _ ← (if (d : bool) then createGraph else ret tt);
  g ← read graph;
  lift (getTree_on g n reverse).

(** [getFeaturesById(layer, ids)] *)
Definition getFeaturesById (l : layer) (ids : list Z) : outcome FeatureCache.t :=
  FeatureCache.addFeatures
    (filter (fun feat => fid feat ∈ ids) (features l))
    (FeatureCache.init (Some l) "obj_id").

(** The graph the manager holds, when it holds one, satisfies the
    invariant of its class. *)
Definition graph_wf (s : t) : Prop :=
  forall G, graph s = Some G -> Nx.wf G.



(** *** The methods as operations on the manager *)

Inductive op : Type :=
| SetReachLayer (l : option layer)
| SetNodeLayer (l : option layer)
| AddVertices
| AddEdges
| Refresh
| Profile (name : string)
| CreateGraph
| GetNodeLayer
| GetReachLayer
| GetNodeLayerId
| GetReachLayerId
| ShortestPath (start_point end_point : Z)
| GetTree (n : Z) (reverse : bool)
| PrintProfile.

(** The state a call leaves behind, whether it returned or raised. *)
Definition exec (o : op) (s : t) : t :=
  match o with
  | SetReachLayer l => (setReachLayer l s).2
  | SetNodeLayer l => (setNodeLayer l s).2
  | AddVertices => (_addVertices s).2
  | AddEdges => (_addEdges s).2
  | Refresh => (refresh s).2
  | Profile name => (_profile name s).2
  | CreateGraph => (createGraph s).2
  | GetNodeLayer => (getNodeLayer s).2
  | GetReachLayer => (getReachLayer s).2
  | GetNodeLayerId => (getNodeLayerId s).2
  | GetReachLayerId => (getReachLayerId s).2
  | ShortestPath a b => (shortestPath a b s).2
  | GetTree n r => (getTree n r s).2
  | PrintProfile => (print_profile s).2
  end.

(** *** Properties of methods *)

(** A computation that leaves the dirty flag as it found it, however it
    ends. *)
Definition keeps_dirty {A} (m : M A) : Prop :=
  forall s, dirty (m s).2 = dirty s.

(** A computation that returns or raises: the fuel of a loop inside it is
    not used up. *)
Definition ends {A} (m : M A) : Prop := forall s, (m s).1 <> OutOfFuel.

(** A computation that relates the state it starts from to the state it
    leaves, however it ends, for a relation [P]. *)
Definition preserves {A} (P : t -> t -> Prop) (m : M A) : Prop :=
  forall s, P s (m s).2.

(** The second state has the layers and the layer ids of the first. *)
Definition same_layers (s s' : t) : Prop :=
  nodeLayer s' = nodeLayer s /\ reachLayer s' = reachLayer s
  /\ nodeLayerId s' = nodeLayerId s /\ reachLayerId s' = reachLayerId s.

(** The timings of the first state are the beginning of the timings of the
    second. *)
Definition timings_grow (s s' : t) : Prop := timings s `prefix_of` timings s'.

(** Every entry of the object-id index points at a node of the graph. *)
Definition index_valid (s : t) : Prop :=
  forall G k n,
    graph s = Some G -> vertexIds s !! k = Some n -> Nx.has_node n G = true.

(** Every node of the graph has the three attributes [_addVertices] gives a
    node, every edge the four [_addEdges] gives an edge. *)
Definition node_keys : list string := ["point"; "objType"; "objId"].
Definition edge_keys : list string := ["weight"; "feature"; "baseFeature"; "objType"].

Definition nodes_described (G : Nx.DiGraph) : Prop :=
  forall n a, Nx.node G n = Ok a -> PyDict.keys a = node_keys.

Definition edges_described (G : Nx.DiGraph) : Prop :=
  forall u v a, Nx.edge_data G u v = Ok a -> PyDict.keys a = edge_keys.

Definition graph_described (s : t) : Prop :=
  forall G, graph s = Some G -> nodes_described G /\ edges_described G.

(** The state a sequence of calls on a new manager leaves. *)
Definition run (ops : list op) : t := foldl (fun s o => exec o s) initial ops.

(** The edge a reach record stands for under an index: its two ends and the
    attributes [_addEdges] writes, when the record has its five fields and
    both ends are in the index. *)
Definition reach_edge (ids : gmap string Z) (feat : feature)
  : option (Z * Z * Nx.attrs) :=
  match field feat "obj_id", field feat "type", field feat "length_calc",
        endpoint ids feat "from_obj_id", endpoint ids feat "to_obj_id" with
  | Ok obj_id, Ok obj_type, Ok length, Some pt_id1, Some pt_id2 =>
      Some (pt_id1, pt_id2,
            [("weight", length); ("feature", VInt (fid feat));
             ("baseFeature", obj_id); ("objType", obj_type)])
  | _, _, _, _, _ => None
  end.

(** Two managers that agree on all a rebuild reads: the layers, the graph,
    the index and the nodes on structures. *)
Definition same_build (s s' : t) : Prop :=
  nodeLayer s = nodeLayer s' /\ reachLayer s = reachLayer s'
  /\ graph s = graph s' /\ vertexIds s = vertexIds s'
  /\ nodesOnStructure s = nodesOnStructure s'.

(** A computation that does the same from two such managers: the same
    outcome, and states that agree again. *)
Definition respects {A} (m : M A) : Prop :=
  forall s s', same_build s s' ->
    (m s).1 = (m s').1 /\ same_build (m s).2 (m s').2.

(** A node record [_addVertices] can take: it has the two fields, and
    reading its point returns one or raises [AttributeError]. *)
Definition node_record_ok (feat : feature) : Prop :=
  is_Ok (field feat "obj_id") /\ is_Ok (field feat "type")
  /\ (forall e, asPoint feat = inr e -> e = AttributeError).

Definition has_point (feat : feature) : Prop := exists p, asPoint feat = inl p.

(** [createGraph] in two parts: the state after its statements before
    [_addVertices], which start the index and the graph afresh, and the
    statements from [_addVertices] on. *)
Definition createGraph_reset (s : t) : t :=
  ((_ ← _profile "create graph";
    _ ← modify (set_vertexIds ∅);
    _ ← modify (set_nodesOnStructure []);
    _ ← _profile "initiate dicts";
    _ ← modify (set_graph (Some Nx.empty));
    _profile "initiate graph") s).2.

Definition createGraph_fill : M unit :=
  _ ← _addVertices;
  _ ← _addEdges;
  _ ← print_profile;
  modify (set_dirty false).

(** [createGraph] up to its last statement. *)
Definition createGraph_build : M unit :=
  _ ← _profile "create graph";
  _ ← modify (set_vertexIds ∅);
  _ ← modify (set_nodesOnStructure []);
  _ ← _profile "initiate dicts";
  _ ← modify (set_graph (Some Nx.empty));
  _ ← _profile "initiate graph";
  _ ← _addVertices;
  _ ← _addEdges;
  print_profile.

End GraphManager.

(** * Facts about the embedding *)

(** ** Comprehensions *)

Lemma comprehension_Forall2 {A B} (f : A -> outcome B) l bs :
  comprehension f l = Ok bs -> Forall2 (fun a b => f a = Ok b) l bs.
Proof.
  revert bs. induction l as [|a l IH]; intros bs H; simpl in H.
  - injection H as <-. constructor.
  - destruct (f a) as [b0| |] eqn:Hfa; simpl in H; try discriminate.
    destruct (comprehension f l) as [bs0| |] eqn:Hl; simpl in H; try discriminate.
    injection H as <-. constructor; [done | by apply IH].
Qed.

Lemma comprehension_elem {A B} (f : A -> outcome B) l bs b :
  comprehension f l = Ok bs -> b ∈ bs -> exists a, a ∈ l /\ f a = Ok b.
Proof.
  revert bs. induction l as [|a l IH]; intros bs H Hb; simpl in H.
  - inversion H; subst. by apply elem_of_nil in Hb.
  - destruct (f a) as [b0| |] eqn:Hfa; simpl in H; try discriminate.
    destruct (comprehension f l) as [bs0| |] eqn:Hl; simpl in H; try discriminate.
    inversion H; subst. apply elem_of_cons in Hb as [->|Hb].
    + exists a. split; [left|done].
    + destruct (IH bs0 eq_refl Hb) as (a' & Ha' & Hf). exists a'. split; [by right|done].
Qed.

(** ** Dictionaries *)

Module PyDictFacts.
Import PyDict.
Section Dict.
Context {K V : Type} `{EqDecision K}.
Implicit Types (k : K) (v : V) (d : list (K * V)).

Lemma get_set_eq k v d : get k (set k v d) = Some v.
Proof.
  induction d as [|[k' v'] d IH]; simpl.
  - by rewrite decide_True.
  - destruct (decide (k = k')); simpl.
    + by rewrite decide_True.
    + by rewrite decide_False.
Qed.

Lemma get_set_ne k k' v d : k <> k' -> get k' (set k v d) = get k' d.
Proof.
  intros Hne. induction d as [|[k0 v0] d IH]; simpl.
  - by rewrite decide_False.
  - destruct (decide (k = k0)) as [->|]; simpl.
    + by rewrite !decide_False.
    + destruct (decide (k' = k0)); done.
Qed.

Lemma get_set k k' v d :
  get k' (set k v d) = if decide (k = k') then Some v else get k' d.
Proof.
  destruct (decide (k = k')) as [->|]; [apply get_set_eq | by apply get_set_ne].
Qed.

Lemma get_Some_elem k v d : get k d = Some v -> (k, v) ∈ d.
Proof.
  induction d as [|[k' v'] d IH]; simpl; [done|].
  destruct (decide (k = k')) as [->|]; intros H.
  - inversion H; subst. left.
  - right. auto.
Qed.

Lemma get_None_keys k d : get k d = None <-> k ∉ keys d.
Proof.
  unfold keys. induction d as [|[k' v'] d IH]; simpl.
  - split; [intros _; apply not_elem_of_nil | done].
  - rewrite not_elem_of_cons. destruct (decide (k = k')) as [->|]; [|tauto].
    split; [done | intros [? _]; done].
Qed.

Lemma get_is_Some_keys k d : is_Some (get k d) <-> k ∈ keys d.
Proof.
  destruct (get k d) eqn:E.
  - split; [intros _|eauto]. destruct (decide (k ∈ keys d)); [done|].
    apply get_None_keys in n. congruence.
  - apply get_None_keys in E. split; [intros [? ?]; done | done].
Qed.

Lemma elem_get_NoDup k v d : NoDup (keys d) -> (k, v) ∈ d -> get k d = Some v.
Proof.
  unfold keys. induction d as [|[k' v'] d IH]; simpl; intros Hnd Hin.
  - by apply elem_of_nil in Hin.
  - apply NoDup_cons in Hnd as [Hk Hnd].
    apply elem_of_cons in Hin as [Heq|Hin].
    + inversion Heq; subst. by rewrite decide_True.
    + destruct (decide (k = k')) as [->|]; [|auto].
      exfalso. apply Hk. apply list_elem_of_fmap. by exists (k', v).
Qed.

Lemma keys_set k v d :
  keys (set k v d) = if mem k d then keys d else keys d ++ [k].
Proof.
  unfold keys, mem. induction d as [|[k' v'] d IH]; csimpl; [done|].
  destruct (decide (k = k')) as [->|]; csimpl; [done|].
  rewrite IH. by destruct (get k d).
Qed.

Lemma elem_keys_set k k' v d : k' ∈ keys (set k v d) <-> k' = k \/ k' ∈ keys d.
Proof.
  rewrite keys_set. unfold mem. destruct (get k d) eqn:E.
  - split; [auto|]. intros [->|?]; [|done]. apply get_is_Some_keys. eauto.
  - rewrite elem_of_app, list_elem_of_singleton. tauto.
Qed.

Lemma NoDup_keys_set k v d : NoDup (keys d) -> NoDup (keys (set k v d)).
Proof.
  intros Hnd. rewrite keys_set. unfold mem. destruct (get k d) eqn:E; [done|].
  apply NoDup_app. split; [done|]. split; [|apply NoDup_singleton].
  intros x Hx Hx'. apply list_elem_of_singleton in Hx' as ->.
  by apply get_None_keys in E.
Qed.

Lemma length_set_le k v d : (length d <= length (set k v d))%nat.
Proof.
  induction d as [|[k' v'] d IH]; simpl; [lia|].
  destruct (decide (k = k')); simpl; lia.
Qed.

(** Copying a dictionary item by item into an empty one gives it back. *)
Lemma update_app_fresh d other :
  NoDup (keys (d ++ other)) -> update d other = d ++ other.
Proof.
  unfold update. revert d. induction other as [|[k v] o IH]; intros d Hnd; simpl.
  - by rewrite app_nil_r.
  - assert (Hset : set k v d = d ++ [(k, v)]).
    { assert (Hk : k ∉ keys d).
      { unfold keys in *. rewrite fmap_app in Hnd. apply NoDup_app in Hnd as (_ & Hd & _).
        intros Hin. apply (Hd k Hin). simpl. left. }
      clear -Hk. unfold keys in Hk. induction d as [|[k' v'] d IH]; simpl; [done|].
      simpl in Hk. apply not_elem_of_cons in Hk as [Hne Hk].
      rewrite decide_False by done. by rewrite IH. }
    rewrite Hset. rewrite IH; rewrite <- app_assoc; done.
Qed.

Lemma update_empty d : NoDup (keys d) -> update [] d = d.
Proof. intros. by apply (update_app_fresh []). Qed.

Lemma elem_set k v d x : x ∈ set k v d -> x = (k, v) \/ x ∈ d.
Proof.
  induction d as [|[k' v'] d IH]; simpl.
  - intros Hx. apply list_elem_of_singleton in Hx. by left.
  - destruct (decide (k = k')) as [->|]; intros Hx;
      apply elem_of_cons in Hx as [->|Hx].
    + by left.
    + right. by right.
    + right. left.
    + destruct (IH Hx) as [->|?]; [by left | right; by right].
Qed.

Lemma NoDup_keys_update d other : NoDup (keys d) -> NoDup (keys (update d other)).
Proof.
  unfold update. revert d. induction other as [|[k v] o IH]; intros d Hd; simpl; [done|].
  apply IH. by apply NoDup_keys_set.
Qed.

End Dict.
End PyDictFacts.

(** ** Graphs *)

Module NxFacts.
Import Qgis Nx PyDictFacts.

Lemma outcome_bind_Ok {A B} (m : outcome A) (k : A -> outcome B) b :
  m ≫= k = Ok b <-> exists a, m = Ok a /\ k a = Ok b.
Proof.
  unfold mbind, outcome_bind, obind. destruct m; split.
  - eauto.
  - by intros (? & [= ->] & ?).
  - done.
  - by intros (? & ? & ?).
  - done.
  - by intros (? & ? & ?).
Qed.

Lemma edge_data_Ok G u v a :
  edge_data G u v = Ok a <->
  exists na s, PyDict.get u (nodes G) = Some (na, s) /\ PyDict.get v s = Some a.
Proof.
  unfold edge_data, succ. rewrite outcome_bind_Ok. split.
  - intros (s & Hs & Hv). apply outcome_bind_Ok in Hs as ([na s'] & Hu & [= <-]).
    exists na, s'. split.
    + by destruct (PyDict.get u (nodes G)) as [?|]; simplify_eq/=.
    + by destruct (PyDict.get v s') as [?|]; simplify_eq/=.
  - intros (na & s & Hu & Hv). exists s. rewrite Hu, Hv. done.
Qed.

Lemma has_node_true n G : has_node n G = true <-> is_Some (PyDict.get n (nodes G)).
Proof.
  unfold has_node, PyDict.mem.
  destruct (PyDict.get n (nodes G)); split; eauto; try done.
  all: by intros [? ?].
Qed.

Lemma has_node_false n G : has_node n G = false <-> PyDict.get n (nodes G) = None.
Proof.
  unfold has_node, PyDict.mem. by destruct (PyDict.get n (nodes G)).
Qed.

(** [touch] keeps what is there. *)
Lemma get_touch n x G :
  PyDict.get x (nodes (touch n G)) =
  match PyDict.get x (nodes G) with
  | Some d => Some d
  | None => if decide (n = x) then Some ([], []) else None
  end.
Proof.
  unfold touch. destruct (PyDict.get n (nodes G)) eqn:En; simpl.
  - destruct (PyDict.get x (nodes G)) eqn:Ex; [done|].
    destruct (decide (n = x)) as [->|]; [congruence | done].
  - rewrite get_set. destruct (decide (n = x)) as [->|].
    + by rewrite En.
    + by destruct (PyDict.get x (nodes G)).
Qed.

Lemma get_touch_Some n x d G :
  PyDict.get x (nodes G) = Some d -> PyDict.get x (nodes (touch n G)) = Some d.
Proof. intros H. by rewrite get_touch, H. Qed.

Lemma get_touch_self n G : is_Some (PyDict.get n (nodes (touch n G))).
Proof.
  rewrite get_touch. destruct (PyDict.get n (nodes G)); [eauto|].
  rewrite decide_True by done. eauto.
Qed.

(** The edge [add_edge] writes is there afterwards. *)
Lemma add_edge_has_edge u v a G : has_edge (add_edge u v a G) u v.
Proof.
  unfold has_edge, add_edge.
  destruct (get_touch_self u G) as [[na s] Hu].
  apply (get_touch_Some v) in Hu. rewrite Hu. simpl.
  eexists. apply edge_data_Ok. simpl. do 2 eexists.
  split; [apply get_set_eq | apply get_set_eq].
Qed.

(** [add_edge] removes no edge. *)
Lemma add_edge_keeps_edge u v a G x y :
  has_edge G x y -> has_edge (add_edge u v a G) x y.
Proof.
  intros [b Hb]. apply edge_data_Ok in Hb as (nb & sb & Hx & Hy).
  unfold has_edge, add_edge.
  destruct (get_touch_self u G) as [[na s] Hu].
  apply (get_touch_Some v) in Hu. rewrite Hu. simpl.
  apply (get_touch_Some u), (get_touch_Some v) in Hx.
  destruct (decide (u = x)) as [->|Hne].
  - assert (nb = na /\ sb = s) as [-> ->] by (split; congruence).
    destruct (decide (v = y)) as [->|Hne'].
    + eexists. apply edge_data_Ok. simpl. do 2 eexists.
      split; [apply get_set_eq | apply get_set_eq].
    + exists b. apply edge_data_Ok. simpl. do 2 eexists.
      split; [apply get_set_eq | by rewrite get_set_ne].
  - exists b. apply edge_data_Ok. simpl. do 2 eexists.
    split; [by rewrite get_set_ne | done].
Qed.

(** *** The invariant of the class *)

Lemma wf_empty : wf empty.
Proof.
  split; simpl.
  - constructor.
  - intros u na s Hin. by apply elem_of_nil in Hin.
  - intros u na s v a Hin. by apply elem_of_nil in Hin.
  - intros u na s v a Hin. by apply elem_of_nil in Hin.
Qed.

Lemma has_node_set n x G v :
  has_node v G = true \/ v = n ->
  has_node v (mkDiGraph (PyDict.set n x (nodes G))) = true.
Proof.
  intros H. apply has_node_true. simpl. rewrite get_set.
  case_decide; [eauto|]. destruct H as [H|H]; [by apply has_node_true in H | congruence].
Qed.

(** Writing a node's entry keeps the invariant when the entry written
    respects it. *)
Lemma wf_set_node n na s G :
  wf G ->
  NoDup (PyDict.keys s) ->
  (forall v a, (v, a) ∈ s ->
     NoDup (PyDict.keys a) /\ (has_node v G = true \/ v = n)) ->
  wf (mkDiGraph (PyDict.set n (na, s) (nodes G))).
Proof.
  intros [Hn Hs Ha Hc] Hnd Hall. split; simpl.
  - by apply NoDup_keys_set.
  - intros u na1 s1 Hin. apply elem_set in Hin as [[= -> -> ->]|Hin]; eauto.
  - intros u na1 s1 v a Hin Hv.
    apply elem_set in Hin as [[= -> -> ->]|Hin]; [by apply (Hall v a) | eauto].
  - intros u na1 s1 v a Hin Hv. apply has_node_set.
    apply elem_set in Hin as [[= -> -> ->]|Hin]; [by apply (Hall v a) | left; eauto].
Qed.

Lemma wf_add_node n a G : wf G -> wf (add_node n a G).
Proof.
  intros HG. unfold add_node.
  destruct (PyDict.get n (nodes G)) as [[na s]|] eqn:Hget.
  - apply get_Some_elem in Hget. apply wf_set_node; [done|by eapply wf_succ|].
    intros v e Hv. split; [by eapply wf_attrs | left; by eapply wf_closed].
  - apply wf_set_node; [done|constructor|].
    intros v e Hv. by apply elem_of_nil in Hv.
Qed.

Lemma wf_touch n G : wf G -> wf (touch n G).
Proof.
  intros HG. unfold touch. destruct (PyDict.get n (nodes G)); [done|].
  apply wf_set_node; [done|constructor|].
  intros v e Hv. by apply elem_of_nil in Hv.
Qed.

Lemma wf_add_edge u v a G : wf G -> wf (add_edge u v a G).
Proof.
  intros HG. unfold add_edge.
  assert (HG2 : wf (touch v (touch u G))) by by do 2 apply wf_touch.
  assert (Hv : has_node v (touch v (touch u G)) = true)
    by (apply has_node_true, get_touch_self).
  destruct (PyDict.get u (nodes (touch v (touch u G)))) as [[na s]|] eqn:Hget;
    [|done].
  apply get_Some_elem in Hget.
  apply wf_set_node; [done|apply NoDup_keys_set; by eapply wf_succ|].
  intros x e Hx. apply elem_set in Hx as [[= -> ->]|Hx].
  - split; [|by left]. apply NoDup_keys_update.
    destruct (PyDict.get v s) as [d|] eqn:Hd; simpl; [|constructor].
    apply get_Some_elem in Hd. by eapply wf_attrs.
  - split; [by eapply wf_attrs | left; by eapply wf_closed].
Qed.

(** *** Edges and weights *)

Lemma edge_data_edges G u v a : edge_data G u v = Ok a -> (u, v, a) ∈ edges G.
Proof.
  intros H. apply edge_data_Ok in H as (na & s & Hu & Hv).
  apply get_Some_elem in Hu, Hv. apply list_elem_of_In.
  unfold edges. apply in_flat_map. exists (u, (na, s)).
  split; [by apply list_elem_of_In|].
  apply in_map_iff. exists (v, a). split; [done | by apply list_elem_of_In].
Qed.

Lemma weights_checked_nonneg G : weights_checked G = true -> nonneg_weights G.
Proof.
  unfold weights_checked. rewrite forallb_forall. intros H u v a Hedge.
  apply edge_data_edges, list_elem_of_In in Hedge. specialize (H _ Hedge).
  simpl in H. destruct (weight a) as [w| |]; [|done|done].
  exists w. split; [done | lia].
Qed.

(** *** Reversing a graph *)

Lemma edge_data_add_node n a G x y :
  edge_data (add_node n a G) x y = edge_data G x y.
Proof.
  unfold edge_data, succ, add_node.
  destruct (PyDict.get n (nodes G)) as [[na s]|] eqn:Hn; simpl;
    rewrite get_set; case_decide; subst; try done; by rewrite Hn.
Qed.

Lemma edge_data_add_nodes (l : list (Z * (attrs * list (Z * attrs)))) : forall H x y,
  edge_data (foldl (fun H '(n, (d, _)) => add_node n d H) H l) x y
  = edge_data H x y.
Proof.
  induction l as [|[n [d s]] l IH]; intros H x y; simpl; [done|].
  by rewrite IH, edge_data_add_node.
Qed.

(** An edge of the graph after [add_edge] is the edge just written, with
    the attributes merged into what the edge had, or an edge from before. *)
Lemma edge_data_add_edge u v a G x y e :
  edge_data (add_edge u v a G) x y = Ok e ->
  (x = u /\ y = v
   /\ e = PyDict.update
            (match edge_data G u v with Ok d => d | _ => [] end) a)
  \/ edge_data G x y = Ok e.
Proof.
  intros He. apply edge_data_Ok in He as (nx & sx & Hx & Hy).
  unfold add_edge in Hx.
  destruct (get_touch_self u G) as [[na s] Hu].
  apply (get_touch_Some v) in Hu. rewrite Hu in Hx. simpl in Hx.
  rewrite get_set in Hx.
  assert (Hfresh : forall z nz sz,
            PyDict.get z (nodes (touch v (touch u G))) = Some (nz, sz) ->
            PyDict.get z (nodes G) = Some (nz, sz) \/ sz = []).
  { intros z nz sz. rewrite !get_touch.
    destruct (PyDict.get z (nodes G)); [by left|].
    repeat case_decide; intros [=]; by right. }
  case_decide as Hxu.
  - subst x. injection Hx as <- <-.
    destruct (Hfresh _ _ _ Hu) as [HuG| ->].
    + rewrite get_set in Hy. case_decide as Hvy.
      * subst y. left. split; [done|]. split; [done|].
        injection Hy as <-. unfold edge_data, succ. rewrite HuG. cbn.
        by destruct (PyDict.get v s).
      * right. apply edge_data_Ok. eauto.
    + simpl in Hy. case_decide as Hvy; [|done]. subst y. left.
      split; [done|]. split; [done|]. injection Hy as <-.
      unfold edge_data, succ.
      destruct (PyDict.get u (nodes G)) as [[na' s']|] eqn:HuG; cbn; [|done].
      apply (get_touch_Some u), (get_touch_Some v) in HuG.
      rewrite Hu in HuG. injection HuG as <- <-. done.
  - destruct (Hfresh _ _ _ Hx) as [HxG| ->]; [|done].
    right. apply edge_data_Ok. eauto.
Qed.

Lemma edges_elem G u v a :
  (u, v, a) ∈ edges G <->
  exists na s, (u, (na, s)) ∈ nodes G /\ (v, a) ∈ s.
Proof.
  unfold edges. rewrite list_elem_of_In, in_flat_map. split.
  - intros ([u' [na s]] & Hin & Hmap).
    apply in_map_iff in Hmap as ([v' a'] & [= -> -> ->] & Hv).
    exists na, s. by rewrite !list_elem_of_In.
  - intros (na & s & Hu & Hv). exists (u, (na, s)).
    split; [by apply list_elem_of_In|]. apply in_map_iff. exists (v, a).
    split; [done | by apply list_elem_of_In].
Qed.

Lemma edges_edge_data G u v a :
  wf G -> (u, v, a) ∈ edges G -> edge_data G u v = Ok a.
Proof.
  intros HG Hin. apply edges_elem in Hin as (na & s & Hu & Hv).
  apply edge_data_Ok. exists na, s. split.
  - apply elem_get_NoDup; [apply HG | done].
  - apply elem_get_NoDup; [by eapply wf_succ | done].
Qed.

Lemma endpoints_succ u (s : list (Z * attrs)) :
  endpoints <$> map (fun '(v, d) => (u, v, d)) s = (fun v => (u, v)) <$> s.*1.
Proof.
  induction s as [|[v d] s IH]; [done|]. csimpl. by rewrite <- IH.
Qed.

Lemma endpoints_edges_fst (l : list (Z * (attrs * list (Z * attrs)))) x :
  x ∈ endpoints <$>
        flat_map (fun '(u, (_, s)) => map (fun '(v, d) => (u, v, d)) s) l ->
  x.1 ∈ l.*1.
Proof.
  induction l as [|[u [na s]] l IH]; simpl; [by intros ?%elem_of_nil|].
  rewrite fmap_app, elem_of_app, endpoints_succ. intros [Hx|Hx].
  - apply list_elem_of_fmap in Hx as (v & -> & _). left.
  - right. by apply IH.
Qed.

(** [edges] lists each pair of endpoints once. *)
Lemma edges_NoDup G : wf G -> NoDup (endpoints <$> edges G).
Proof.
  intros [Hn Hs _ _]. unfold edges. revert Hn Hs. unfold PyDict.keys.
  induction (nodes G) as [|[u [na s]] l IH]; intros Hn Hs; simpl; [constructor|].
  csimpl in Hn. apply NoDup_cons in Hn as [Hu Hn].
  rewrite fmap_app. apply NoDup_app. split; [|split].
  - rewrite endpoints_succ. apply NoDup_fmap_2.
    + intros v1 v2 [=]. done.
    + apply (Hs u na s). left.
  - intros x Hx Hy. rewrite endpoints_succ in Hx.
    apply list_elem_of_fmap in Hx as (v & -> & _).
    apply endpoints_edges_fst in Hy. by apply Hu.
  - apply IH; [done|]. intros u' na' s' Hin. apply (Hs u' na' s'). by right.
Qed.

(** The edges written by the second loop of [reverse] are the turned edges
    read so far. *)
Lemma reverse_edges (es : list (Z * Z * attrs)) : forall done H,
  NoDup (endpoints <$> (done ++ es)) ->
  (forall u v d, (u, v, d) ∈ es -> NoDup (PyDict.keys d)) ->
  (forall x y e, edge_data H x y = Ok e -> (y, x, e) ∈ done) ->
  forall x y e,
    edge_data (foldl (fun H '(u, v, d) => add_edge v u d H) H es) x y = Ok e ->
    (y, x, e) ∈ done ++ es.
Proof.
  induction es as [|[[u v] d] es IH]; intros done H Hnd Hattrs Hinv x y e; simpl.
  - rewrite app_nil_r. apply Hinv.
  - intros He.
    replace (done ++ (u, v, d) :: es) with ((done ++ [(u, v, d)]) ++ es)
      by (by rewrite <- app_assoc).
    eapply IH; [by rewrite <- app_assoc | | | exact He].
    + intros u' v' d' Hin. apply (Hattrs u' v' d'). by right.
    + intros x' y' e' He'. apply edge_data_add_edge in He' as [(-> & -> & ->)|He'].
      * destruct (edge_data H v u) as [d0| |] eqn:Hold.
        -- exfalso. apply Hinv in Hold.
           rewrite fmap_app in Hnd. apply NoDup_app in Hnd as (_ & Hdis & _).
           apply (Hdis (u, v)).
           ++ apply list_elem_of_fmap. by exists (u, v, d0).
           ++ simpl. left.
        -- rewrite update_empty by (apply (Hattrs u v d); left).
           apply elem_of_app. right. left.
        -- rewrite update_empty by (apply (Hattrs u v d); left).
           apply elem_of_app. right. left.
      * apply elem_of_app. left. by apply Hinv.
Qed.

(** An edge of the reversed graph is an edge of the graph, turned, with
    the same attributes. *)
Lemma edge_data_reverse G v u a :
  wf G -> edge_data (reverse G) v u = Ok a -> edge_data G u v = Ok a.
Proof.
  intros HG He. apply edges_edge_data; [done|].
  unfold reverse in He.
  apply (reverse_edges (edges G) [] _) in He; [done| | |].
  - by apply edges_NoDup.
  - intros u' v' d Hin. apply edges_elem in Hin as (na & s & Hu & Hv).
    by eapply wf_attrs.
  - intros x y e. rewrite edge_data_add_nodes. done.
Qed.

(** *** The nodes of a graph and of its reverse *)

Lemma has_node_keys x G : has_node x G = true <-> x ∈ PyDict.keys (nodes G).
Proof. rewrite has_node_true. apply get_is_Some_keys. Qed.

Lemma has_node_add_node x n a G :
  has_node x (add_node n a G) = true <-> has_node x G = true \/ x = n.
Proof.
  rewrite !has_node_keys. unfold add_node.
  destruct (PyDict.get n (nodes G)) as [[na s]|]; simpl;
    rewrite elem_keys_set; tauto.
Qed.

Lemma has_node_touch x n G :
  has_node x (touch n G) = true <-> has_node x G = true \/ x = n.
Proof.
  rewrite !has_node_keys. unfold touch.
  destruct (PyDict.get n (nodes G)) as [d|] eqn:Hn; simpl.
  - split; [tauto|]. intros [?| ->]; [done|]. apply get_is_Some_keys. eauto.
  - rewrite elem_keys_set. tauto.
Qed.

Lemma has_node_add_edge x u v a G :
  has_node x (add_edge u v a G) = true <->
  has_node x G = true \/ x = u \/ x = v.
Proof.
  unfold add_edge.
  destruct (get_touch_self u G) as [[na s] Hu].
  apply (get_touch_Some v) in Hu. rewrite Hu.
  rewrite has_node_keys. simpl. rewrite elem_keys_set.
  rewrite <- has_node_keys, !has_node_touch.
  split; [tauto|]. intros [?|[?|?]]; tauto.
Qed.

Lemma has_node_add_nodes (l : list (Z * (attrs * list (Z * attrs)))) : forall H x,
  has_node x (foldl (fun H '(n, (d, _)) => add_node n d H) H l) = true <->
  has_node x H = true \/ x ∈ l.*1.
Proof.
  induction l as [|[n [d s]] l IH]; intros H x; simpl.
  - rewrite elem_of_nil. tauto.
  - rewrite IH, has_node_add_node. csimpl. rewrite elem_of_cons. tauto.
Qed.

Lemma has_node_add_edges (es : list (Z * Z * attrs)) : forall H x,
  has_node x (foldl (fun H '(u, v, d) => add_edge v u d H) H es) = true <->
  has_node x H = true \/ exists u v d, (u, v, d) ∈ es /\ (x = u \/ x = v).
Proof.
  induction es as [|[[u v] d] es IH]; intros H x; simpl.
  - split; [by left|]. intros [?|(? & ? & ? & Hin & _)]; [done|].
    by apply elem_of_nil in Hin.
  - rewrite IH, has_node_add_edge. split.
    + intros [[?|[Hx|Hx]]|(u' & v' & d' & Hin & Hx)]; [by left| | |].
      * right. exists u, v, d. split; [left | by right].
      * right. exists u, v, d. split; [left | by left].
      * right. exists u', v', d'. split; [by right | done].
    + intros [?|(u' & v' & d' & Hin & Hx)]; [by left; left|].
      apply elem_of_cons in Hin as [[= -> -> ->]|Hin].
      * left. right. tauto.
      * right. eauto 8.
Qed.

(** On a well-formed graph, [reverse] keeps the set of nodes. *)
Lemma has_node_reverse G x : wf G -> has_node x (reverse G) = has_node x G.
Proof.
  intros HG. apply eq_true_iff_eq. unfold reverse.
  rewrite has_node_add_edges, has_node_add_nodes. rewrite (has_node_keys x G).
  split; [|by left; right].
  intros [[?|?]|(u & v & d & Hin & Hx)]; [done|done|].
  apply edges_elem in Hin as (na & s & Hu & Hv). destruct Hx as [->| ->].
  - apply list_elem_of_fmap. by exists (u, (na, s)).
  - apply has_node_keys. by eapply wf_closed.
Qed.

(** *** What [add_node] and [add_edge] write *)

Lemma node_add_node n a G x :
  node (add_node n a G) x =
  if decide (x = n)
  then Ok (PyDict.update (match node G n with Ok d => d | _ => [] end) a)
  else node G x.
Proof.
  unfold node, add_node.
  destruct (PyDict.get n (nodes G)) as [[na s]|] eqn:Hn; simpl;
    rewrite get_set; case_decide as Hx; subst; rewrite ?decide_True by done;
    try done; by rewrite decide_False by congruence.
Qed.

Lemma touch_present n G : has_node n G = true -> touch n G = G.
Proof.
  intros [d Hd]%has_node_true. unfold touch. by rewrite Hd.
Qed.

Lemma edge_data_touch n G x y : edge_data (touch n G) x y = edge_data G x y.
Proof.
  unfold edge_data, succ. rewrite get_touch.
  destruct (PyDict.get x (nodes G)); [done|]. by case_decide.
Qed.

(** After [add_edge] the edge written has its old attributes updated with
    the new ones, and every other pair of nodes is as before. *)
Lemma edge_data_add_edge_eq u v a G x y :
  edge_data (add_edge u v a G) x y =
  if decide (x = u /\ y = v)
  then Ok (PyDict.update (match edge_data G u v with Ok d => d | _ => [] end) a)
  else edge_data G x y.
Proof.
  rewrite <- (edge_data_touch u G u v), <- (edge_data_touch v (touch u G) u v).
  rewrite <- (edge_data_touch u G x y), <- (edge_data_touch v (touch u G) x y).
  unfold add_edge.
  destruct (get_touch_self u G) as [[na s] Hu].
  apply (get_touch_Some v) in Hu. rewrite Hu.
  unfold edge_data, succ. simpl. rewrite get_set, Hu. simpl.
  destruct (decide (u = x)) as [<-|Hne].
  - simpl. rewrite get_set. destruct (decide (v = y)) as [<-|Hne].
    + rewrite decide_True by done. by destruct (PyDict.get v s).
    + rewrite decide_False by (intros [_ ?]; congruence). by rewrite Hu.
  - rewrite decide_False by (intros [? _]; congruence). done.
Qed.

(** Between two nodes of the graph, [add_edge] adds no node and leaves the
    attributes of the nodes alone. *)
Lemma node_add_edge u v a G x :
  has_node u G = true -> has_node v G = true ->
  node (add_edge u v a G) x = node G x.
Proof.
  intros Hu Hv. unfold add_edge. rewrite (touch_present u) by done.
  rewrite (touch_present v) by done.
  apply has_node_true in Hu as [[na s] Hu]. rewrite Hu.
  unfold node. simpl. rewrite get_set. case_decide; [subst; by rewrite Hu | done].
Qed.

Lemma has_node_add_edge_present u v a G x :
  has_node u G = true -> has_node v G = true ->
  has_node x (add_edge u v a G) = has_node x G.
Proof.
  intros Hu Hv. apply eq_true_iff_eq. rewrite has_node_add_edge.
  split; [|tauto]. intros [?|[->| ->]]; done.
Qed.

Lemma node_Ok_has_node G n a : node G n = Ok a -> has_node n G = true.
Proof.
  unfold node. intros H. apply has_node_true.
  destruct (PyDict.get n (nodes G)); [eauto | done].
Qed.

Lemma has_node_node G n : has_node n G = true -> exists a, node G n = Ok a.
Proof.
  intros [[na s] H]%has_node_true. exists na. unfold node. by rewrite H.
Qed.

(** *** The heap *)

Lemma entry_lt_true x y : entry_lt x y = true -> x.1.1 <= y.1.1.
Proof.
  destruct x as [[d1 c1] n1], y as [[d2 c2] n2]. simpl.
  intros H. apply orb_true_iff in H as [H|H]; [lia|].
  apply andb_true_iff in H as [H _]. lia.
Qed.

Lemma entry_lt_false x y : entry_lt x y = false -> y.1.1 <= x.1.1.
Proof.
  destruct x as [[d1 c1] n1], y as [[d2 c2] n2]. simpl.
  intros H. apply orb_false_iff in H as [H _]. lia.
Qed.

Lemma heappop_None h : heappop h = None -> h = [].
Proof.
  destruct h as [|x h]; [done|]. simpl.
  destruct (heappop h) as [[y r]|]; [|done]. by destruct (entry_lt y x).
Qed.

Lemma heappop_spec h : forall x rest,
  heappop h = Some (x, rest) ->
  (forall z, z ∈ h <-> z = x \/ z ∈ rest)
  /\ length h = S (length rest)
  /\ (forall y, y ∈ rest -> x.1.1 <= y.1.1).
Proof.
  induction h as [|x0 h IH]; intros x rest; simpl; [done|].
  destruct (heappop h) as [[y r]|] eqn:E.
  - destruct (IH y r eq_refl) as (Hel & Hlen & Hmin).
    destruct (entry_lt y x0) eqn:Hlt; intros [= <- <-].
    + split; [|split].
      * intros z. rewrite !elem_of_cons, Hel. tauto.
      * simpl. lia.
      * intros z Hz. apply elem_of_cons in Hz as [->|Hz]; [|auto].
        by apply entry_lt_true.
    + split; [|split].
      * intros z. by rewrite elem_of_cons.
      * done.
      * intros z Hz. apply Hel in Hz as [->|Hz].
        -- by apply entry_lt_false.
        -- apply entry_lt_false in Hlt. specialize (Hmin z Hz). lia.
  - apply heappop_None in E as ->. intros [= <- <-].
    split; [|split]; [intros z; apply elem_of_cons|done|].
    intros y Hy. by apply elem_of_nil in Hy.
Qed.

(** *** The work left *)

Lemma unsettled_insert_le l v d dist :
  (unsettled l (<[v := d]> dist) <= unsettled l dist)%nat.
Proof.
  unfold unsettled. induction l as [|[k [na s]] l IH]; simpl; [lia|].
  destruct (decide (v = k)) as [->|Hne].
  - rewrite lookup_insert_eq. destruct (dist !! k); lia.
  - rewrite lookup_insert_ne by done. lia.
Qed.

Lemma unsettled_insert l v d dist na s :
  PyDict.get v l = Some (na, s) ->
  dist !! v = None ->
  (unsettled l (<[v := d]> dist) + S (length s) <= unsettled l dist)%nat.
Proof.
  unfold unsettled. induction l as [|[k [na' s']] l IH]; simpl; [done|].
  destruct (decide (v = k)) as [->|Hne]; intros Hget Hnone.
  - injection Hget as -> ->. rewrite lookup_insert_eq, Hnone.
    pose proof (unsettled_insert_le l k d dist) as H. unfold unsettled in H. lia.
  - rewrite lookup_insert_ne by done. specialize (IH Hget Hnone). lia.
Qed.

Lemma unsettled_empty G :
  unsettled (nodes G) ∅ = (length (nodes G) + length (edges G))%nat.
Proof.
  unfold unsettled, edges. induction (nodes G) as [|[k [na s]] l IH]; simpl; [done|].
  rewrite lookup_empty, IH, length_app, length_map. lia.
Qed.

(** *** Dijkstra's loop *)

Section Dijkstra.
Variables (G : DiGraph) (a : Z).
Hypothesis Hwf : wf G.
Hypothesis Hw : nonneg_weights G.

Lemma succ_edges v na s u e :
  PyDict.get v (nodes G) = Some (na, s) -> (u, e) ∈ s ->
  edge_data G v u = Ok e /\ has_node u G = true.
Proof.
  intros Hv Hin. apply get_Some_elem in Hv as Hel. split.
  - apply edge_data_Ok. exists na, s. split; [done|].
    apply elem_get_NoDup; [|done]. by eapply wf_succ.
  - by eapply wf_closed.
Qed.

Lemma relax_ok v d st u e :
  dijkstra_inv G a st ->
  reachable G a v ->
  dist st !! v = Some d ->
  is_Some (paths st !! v) ->
  (forall x dx, dist st !! x = Some dx -> dx <= d) ->
  edge_data G v u = Ok e ->
  has_node u G = true ->
  exists st',
    relax v st (u, e) = Ok st'
    /\ dijkstra_inv G a st'
    /\ dist st' = dist st
    /\ is_Some (paths st' !! v)
    /\ (length (fringe st') <= S (length (fringe st)))%nat.
Proof.
  intros Hinv Hrv Hdv [pv Hpv] Hmax Hedge Hu.
  destruct (Hw _ _ _ Hedge) as (w & Hwt & Hpos).
  unfold relax. rewrite Hwt. cbn. rewrite Hdv. cbn.
  destruct (dist st !! u) as [du|] eqn:Hdu.
  - specialize (Hmax _ _ Hdu).
    destruct (Z.ltb_spec (d + w) du); [lia|].
    exists st. split; [done|]. split; [done|]. split; [done|].
    split; [eauto|lia].
  - assert (Hkeep : exists st', Ok st = Ok st' /\ dijkstra_inv G a st'
              /\ dist st' = dist st /\ is_Some (paths st' !! v)
              /\ (length (fringe st') <= S (length (fringe st)))%nat).
    { exists st. split; [done|]. split; [done|]. split; [done|].
      split; [eauto|lia]. }
    assert (Hpush : exists st',
              Ok {| dist := dist st; seen := <[u := d + w]> (seen st);
                    paths := <[u := pv ++ [u]]> (paths st);
                    fringe := heappush (fringe st) (d + w, counter st, u);
                    counter := S (counter st) |} = Ok st'
              /\ dijkstra_inv G a st' /\ dist st' = dist st
              /\ is_Some (paths st' !! v)
              /\ (length (fringe st') <= S (length (fringe st)))%nat).
    { eexists. split; [reflexivity|]. split; [|split; [done|split]].
      - destruct Hinv as [Hf Hd Ho]. split; simpl.
        + intros d' c' v' Hin. unfold heappush in Hin.
          apply elem_of_cons in Hin as [[= -> -> ->]|Hin].
          * split; [|split; [done|]].
            -- eapply reachable_step; [exact Hrv|]. by exists e.
            -- rewrite lookup_insert_eq. eauto.
          * destruct (Hf _ _ _ Hin) as (? & ? & Hp). split; [done|split; [done|]].
            rewrite lookup_insert. case_decide; eauto.
        + done.
        + intros x dx d' c' v' Hx Hin. unfold heappush in Hin.
          apply elem_of_cons in Hin as [[= -> -> ->]|Hin].
          * specialize (Hmax _ _ Hx). lia.
          * eauto.
      - simpl. rewrite lookup_insert. case_decide; eauto.
      - simpl. lia. }
    rewrite Hpv. cbn.
    destruct (seen st !! u) as [su|]; [|exact Hpush].
    destruct (d + w <? su); [exact Hpush | exact Hkeep].
Qed.

Lemma relax_all_ok v d s : forall st,
  dijkstra_inv G a st ->
  reachable G a v ->
  dist st !! v = Some d ->
  is_Some (paths st !! v) ->
  (forall x dx, dist st !! x = Some dx -> dx <= d) ->
  (forall u e, (u, e) ∈ s -> edge_data G v u = Ok e /\ has_node u G = true) ->
  exists st',
    for_each (relax v) s st = Ok st'
    /\ dijkstra_inv G a st'
    /\ dist st' = dist st
    /\ (length (fringe st') <= length (fringe st) + length s)%nat.
Proof.
  induction s as [|[u e] s IH]; intros st Hinv Hrv Hdv Hpv Hmax Hs;
    cbn [for_each length].
  - exists st. split; [done|]. split; [done|]. split; [done|lia].
  - destruct (Hs u e) as [Hedge Hu]; [left|].
    destruct (relax_ok v d st u e Hinv Hrv Hdv Hpv Hmax Hedge Hu)
      as (st1 & Hstep & Hinv1 & Hd1 & Hp1 & Hlen1).
    rewrite Hstep. cbn.
    destruct (IH st1) as (st' & Hrest & Hinv' & Hd' & Hlen'); try done.
    + by rewrite Hd1.
    + intros x dx. rewrite Hd1. apply Hmax.
    + intros u' e' Hin. apply Hs. by right.
    + exists st'. split; [done|]. split; [done|]. split; [congruence|lia].
Qed.

Lemma dijkstra_loop_ok target : forall fuel st,
  dijkstra_inv G a st ->
  (length (fringe st) + unsettled (nodes G) (dist st) < fuel)%nat ->
  exists st',
    dijkstra_loop fuel G target st = Ok st'
    /\ (forall u du, dist st' !! u = Some du -> reachable G a u).
Proof.
  induction fuel as [|fuel IH]; intros st Hinv Hfuel; [lia|]. simpl.
  destruct (heappop (fringe st)) as [[[[d c] v] rest]|] eqn:Hpop.
  - destruct (heappop_spec _ _ _ Hpop) as (Hel & Hlen & Hmin).
    assert (Hv : (d, c, v) ∈ fringe st) by (apply Hel; by left).
    destruct (inv_fringe _ _ _ Hinv _ _ _ Hv) as (Hrv & Hnode & Hpv).
    destruct (dist st !! v) as [dv|] eqn:Hdv.
    + apply IH.
      * destruct Hinv as [Hf Hd Ho]. split; simpl.
        -- intros d' c' v' Hin. apply (Hf d' c' v'). apply Hel. by right.
        -- done.
        -- intros x dx d' c' v' Hx Hin. apply (Ho x dx d' c' v' Hx).
           apply Hel. by right.
      * simpl. lia.
    + set (st1 := {| dist := <[v := d]> (dist st); seen := seen st;
                     paths := paths st; fringe := rest;
                     counter := counter st |}).
      assert (Hinv1 : dijkstra_inv G a st1).
      { destruct Hinv as [Hf Hd Ho]. split; simpl.
        - intros d' c' v' Hin. apply (Hf d' c' v'). apply Hel. by right.
        - intros x dx. rewrite lookup_insert. case_decide; [by subst|]. apply Hd.
        - intros x dx d' c' v' Hx Hin. rewrite lookup_insert in Hx.
          case_decide.
          + injection Hx as <-. apply (Hmin (d', c', v') Hin).
          + apply (Ho x dx d' c' v' Hx). apply Hel. by right. }
      destruct (decide (v = target)) as [->|Hne].
      * exists st1. split; [done|]. apply (inv_dist _ _ _ Hinv1).
      * apply has_node_true in Hnode as [[na s] Hget].
        unfold succ. rewrite Hget. cbn.
        destruct (relax_all_ok v d s st1) as (st2 & Hrel & Hinv2 & Hd2 & Hlen2);
          try done.
        -- simpl. apply lookup_insert_eq.
        -- intros x dx. simpl. rewrite lookup_insert. case_decide.
           ++ intros [= <-]. lia.
           ++ intros Hx. apply (inv_order _ _ _ Hinv x dx d c v Hx Hv).
        -- intros u e. by apply succ_edges with na.
        -- rewrite Hrel. cbn. apply IH; [done|].
           rewrite Hd2. simpl.
           pose proof (unsettled_insert (nodes G) v d (dist st) na s Hget Hdv).
           simpl in Hlen2. lia.
  - exists st. split; [done|]. apply (inv_dist _ _ _ Hinv).
Qed.

(** With the source in the graph, the search ends without an error, and
    every node it settled is reached from the source. *)
Lemma dijkstra_multisource_ok target paths0 :
  has_node a G = true ->
  is_Some (paths0 !! a) ->
  exists st,
    _dijkstra_multisource G a target paths0 = Ok st
    /\ (forall u du, dist st !! u = Some du -> reachable G a u).
Proof.
  intros Ha Hp. unfold _dijkstra_multisource. rewrite Ha.
  apply dijkstra_loop_ok.
  - split; simpl.
    + intros d c v Hin. apply list_elem_of_singleton in Hin as [= -> -> ->].
      split; [constructor|done].
    + intros u du. by rewrite lookup_empty.
    + intros u du d c v. by rewrite lookup_empty.
  - simpl. rewrite unsettled_empty. unfold dijkstra_fuel. lia.
Qed.

(** No path from the source: [dijkstra_path] raises [NetworkXNoPath]. *)
Lemma dijkstra_path_no_path b :
  has_node a G = true ->
  ~ reachable G a b ->
  dijkstra_path G a b = Raise NetworkXNoPath.
Proof.
  intros Ha Hno. unfold dijkstra_path.
  destruct (decide (b = a)) as [->|Hne]; [destruct Hno; constructor|].
  destruct (dijkstra_multisource_ok b {[a := [a]]} Ha) as (st & Hrun & Hreach).
  { rewrite lookup_singleton_eq. eauto. }
  rewrite Hrun. cbn.
  destruct (dist st !! b) as [db|] eqn:Hb; [|done].
  destruct Hno. by eapply Hreach.
Qed.

End Dijkstra.

(** *** The loop of Dijkstra's algorithm ends on every graph *)

Lemma weight_ends e : weight e <> OutOfFuel.
Proof. unfold weight. by destruct (PyDict.get "weight" e) as [[|?|?|??]|]. Qed.

Lemma relax_ends v st ue :
  match relax v st ue with
  | Ok st' => dist st' = dist st
              /\ (length (fringe st') <= S (length (fringe st)))%nat
  | Raise _ => True
  | OutOfFuel => False
  end.
Proof.
  destruct ue as [u e]. unfold relax.
  pose proof (weight_ends e) as Hw.
  destruct (weight e) as [w| |]; cbn [mbind outcome_bind obind]; [|done|done].
  destruct (dist st !! v) as [dv|]; cbn [mbind outcome_bind obind subscript];
    [|done].
  destruct (dist st !! u) as [du|].
  - destruct (dv + w <? du); [done|]. split; [done|lia].
  - match goal with
    | |- context [if ?b then _ else _] => destruct b; [|split; [done|lia]]
    end.
    destruct (paths st !! v); cbn [mbind outcome_bind obind subscript]; [|done].
    simpl. split; [done|lia].
Qed.

Lemma relax_all_ends v s : forall st,
  match for_each (relax v) s st with
  | Ok st' => dist st' = dist st
              /\ (length (fringe st') <= length (fringe st) + length s)%nat
  | Raise _ => True
  | OutOfFuel => False
  end.
Proof.
  induction s as [|ue s IH]; intros st; cbn [for_each length].
  - split; [done|lia].
  - pose proof (relax_ends v st ue) as H.
    destruct (relax v st ue) as [st1| |]; cbn [mbind outcome_bind obind];
      [|done|done].
    destruct H as [Hd1 Hl1]. specialize (IH st1).
    destruct (for_each (relax v) s st1) as [st2| |]; [|done|done].
    destruct IH as [Hd2 Hl2]. split; [congruence|lia].
Qed.

Lemma dijkstra_loop_ends G target : forall fuel st,
  (length (fringe st) + unsettled (nodes G) (dist st) < fuel)%nat ->
  dijkstra_loop fuel G target st <> OutOfFuel.
Proof.
  induction fuel as [|fuel IH]; intros st Hfuel; [lia|]. cbn [dijkstra_loop].
  destruct (heappop (fringe st)) as [[[[d c] v] rest]|] eqn:Hpop; [|done].
  destruct (heappop_spec _ _ _ Hpop) as (_ & Hlen & _).
  destruct (dist st !! v) as [dv|] eqn:Hdv.
  - apply IH. simpl. lia.
  - case_decide; [done|].
    unfold succ. destruct (PyDict.get v (nodes G)) as [[na s]|] eqn:Hget;
      cbn [mbind outcome_bind obind subscript snd]; [|done].
    match goal with
    | |- context [for_each (relax v) s ?st1] =>
        pose proof (relax_all_ends v s st1) as Hrel;
        destruct (for_each (relax v) s st1) as [st2| |];
        cbn [mbind outcome_bind obind]; [|done|done]
    end.
    destruct Hrel as [Hd2 Hl2]. apply IH. rewrite Hd2. simpl in *.
    pose proof (unsettled_insert (nodes G) v d (dist st) na s Hget Hdv). lia.
Qed.

(** The search for a path ends on every graph: it returns or it raises. *)
Lemma dijkstra_path_ends G a b : dijkstra_path G a b <> OutOfFuel.
Proof.
  unfold dijkstra_path. case_decide; [done|].
  unfold _dijkstra_multisource. destruct (has_node a G); [|done].
  match goal with
  | |- context [dijkstra_loop ?f G b ?st0] =>
      pose proof (dijkstra_loop_ends G b f st0) as Hends;
      destruct (dijkstra_loop f G b st0) as [st| |];
      cbn [mbind outcome_bind obind]
  end.
  - destruct (dist st !! b); cbn; [|done]. by destruct (paths st !! b).
  - done.
  - exfalso. apply Hends; [|done]. simpl. rewrite unsettled_empty.
    unfold dijkstra_fuel. lia.
Qed.

Lemma comprehension_ends {A B} (f : A -> outcome B) l :
  (forall a, f a <> OutOfFuel) -> comprehension f l <> OutOfFuel.
Proof.
  intros Hf. induction l as [|a l IH]; cbn [comprehension]; [done|].
  specialize (Hf a). destruct (f a); cbn [mbind outcome_bind obind]; [|done|done].
  by destruct (comprehension f l).
Qed.

Lemma edge_data_ends G u v : edge_data G u v <> OutOfFuel.
Proof.
  unfold edge_data, succ. destruct (PyDict.get u (nodes G)) as [[na s]|]; cbn; [|done].
  by destruct (PyDict.get v s).
Qed.

Lemma node_ends G n : node G n <> OutOfFuel.
Proof. unfold node. by destruct (PyDict.get n (nodes G)). Qed.

(** *** The paths Dijkstra's algorithm records are paths of the graph *)

Lemma walk_snoc G p v u :
  walk G p -> last p = Some v -> has_edge G v u -> walk G (p ++ [u]).
Proof.
  induction p as [|x [|y p] IH]; intros Hw Hl He; [done| |].
  - injection Hl as ->. simpl. done.
  - destruct Hw as [Hxy Hw]. split; [done|]. by apply IH.
Qed.

Lemma path_from_to_snoc G a v u p :
  path_from_to G a v p -> has_edge G v u -> path_from_to G a u (p ++ [u]).
Proof.
  intros (Hh & Hl & Hw) He. split; [|split].
  - destruct p; [done|]. done.
  - apply last_snoc.
  - by eapply walk_snoc.
Qed.

Lemma relax_paths G a v st u e :
  paths_inv G a st -> has_edge G v u ->
  match relax v st (u, e) with
  | Ok st' => paths_inv G a st'
  | _ => True
  end.
Proof.
  intros Hinv He. unfold relax.
  destruct (weight e) as [w| |]; cbn [mbind outcome_bind obind]; [|done|done].
  destruct (dist st !! v) as [dv|]; cbn [mbind outcome_bind obind subscript];
    [|done].
  destruct (dist st !! u) as [du|].
  - by destruct (dv + w <? du).
  - match goal with
    | |- context [if ?b then _ else _] => destruct b; [|done]
    end.
    destruct (paths st !! v) as [pv|] eqn:Hpv;
      cbn [mbind outcome_bind obind subscript]; [|done].
    intros x p. simpl. rewrite lookup_insert. case_decide.
    + intros [= <-]. subst x. eapply path_from_to_snoc; [by apply Hinv | done].
    + apply Hinv.
Qed.

Lemma relax_all_paths G a v s : forall st,
  paths_inv G a st -> (forall u e, (u, e) ∈ s -> has_edge G v u) ->
  match for_each (relax v) s st with
  | Ok st' => paths_inv G a st'
  | _ => True
  end.
Proof.
  induction s as [|[u e] s IH]; intros st Hinv Hs; cbn [for_each]; [done|].
  pose proof (relax_paths G a v st u e Hinv (Hs u e ltac:(left))) as Hstep.
  destruct (relax v st (u, e)) as [st1| |]; cbn [mbind outcome_bind obind];
    [|done|done].
  apply IH; [done|]. intros u' e' Hin. apply (Hs u' e'). by right.
Qed.

Lemma succ_has_edge G v s u e : succ G v = Ok s -> (u, e) ∈ s -> has_edge G v u.
Proof.
  unfold succ. destruct (PyDict.get v (nodes G)) as [[na s']|] eqn:Hv; [|done].
  intros [= <-] Hin.
  destruct (PyDict.get u s') as [e'|] eqn:Hu.
  - exists e'. apply edge_data_Ok. eauto.
  - apply get_None_keys in Hu. destruct Hu. apply list_elem_of_fmap.
    by exists (u, e).
Qed.

Lemma dijkstra_loop_paths G a target : forall fuel st,
  paths_inv G a st ->
  match dijkstra_loop fuel G target st with
  | Ok st' => paths_inv G a st'
  | _ => True
  end.
Proof.
  induction fuel as [|fuel IH]; intros st Hinv; [done|]. cbn [dijkstra_loop].
  destruct (heappop (fringe st)) as [[[[d c] v] rest]|]; [|done].
  destruct (dist st !! v) as [dv|]; [by apply IH|].
  case_decide; [done|].
  destruct (succ G v) as [s| |] eqn:Hs; cbn [mbind outcome_bind obind];
    [|done|done].
  match goal with
  | |- context [for_each (relax v) s ?st1] =>
      pose proof (relax_all_paths G a v s st1 Hinv
                    (fun u e H => succ_has_edge G v s u e Hs H)) as Hrel;
      destruct (for_each (relax v) s st1) as [st2| |];
      cbn [mbind outcome_bind obind]; [|done|done]
  end.
  by apply IH.
Qed.

(** A path [dijkstra_path] returns leads from the source to the target
    along edges of the graph. *)
Lemma dijkstra_path_sound G a b p :
  dijkstra_path G a b = Ok p -> path_from_to G a b p.
Proof.
  unfold dijkstra_path. case_decide as Hab.
  - intros [= <-]. subst b. done.
  - unfold _dijkstra_multisource. destruct (has_node a G); [|done].
    match goal with
    | |- context [dijkstra_loop ?f G b ?st0] =>
        pose proof (dijkstra_loop_paths G a b f st0) as Hloop;
        destruct (dijkstra_loop f G b st0) as [st| |];
        cbn [mbind outcome_bind obind]; [|done|done]
    end.
    destruct (dist st !! b); cbn [mbind outcome_bind obind subscript try_except];
      [|by case_decide].
    destruct (paths st !! b) as [p'|] eqn:Hp; cbn; [|by case_decide].
    intros [= <-]. apply Hloop; [|done].
    intros v q. simpl. rewrite lookup_singleton. case_decide; [|done].
    intros [= <-]. by subst v.
Qed.

(** *** Dijkstra's algorithm finds a shortest path *)

Section Shortest.
Variables (G : DiGraph) (a : Z).
Hypothesis Hwf : wf G.
Hypothesis Hw : nonneg_weights G.

Lemma edge_weight_eq u v e w :
  edge_data G u v = Ok e -> weight e = Ok w -> edge_weight G u v = w.
Proof. unfold edge_weight. by intros -> ->. Qed.

Lemma edge_weight_nonneg u v : has_edge G u v -> 0 <= edge_weight G u v.
Proof.
  intros [e He]. destruct (Hw _ _ _ He) as (w & Hwt & Hpos).
  by rewrite (edge_weight_eq _ _ _ _ He Hwt).
Qed.

Lemma path_weight_cons u v p :
  path_weight G (u :: v :: p) = edge_weight G u v + path_weight G (v :: p).
Proof. reflexivity. Qed.

Lemma path_weight_snoc p x y :
  last p = Some x ->
  path_weight G (p ++ [y]) = path_weight G p + edge_weight G x y.
Proof.
  induction p as [|u [|v p] IH]; intros Hl; [done| |].
  - injection Hl as ->. simpl. lia.
  - change ((u :: v :: p) ++ [y]) with (u :: v :: (p ++ [y])).
    rewrite !path_weight_cons.
    change (v :: p ++ [y]) with ((v :: p) ++ [y]). rewrite IH by done. lia.
Qed.

Lemma walk_snoc_inv p x y :
  walk G (p ++ [y]) -> last p = Some x -> walk G p /\ has_edge G x y.
Proof.
  induction p as [|u [|v p] IH]; intros Hwk Hl; [done| |].
  - injection Hl as ->. simpl in Hwk. by destruct Hwk.
  - change ((u :: v :: p) ++ [y]) with (u :: (v :: p) ++ [y]) in Hwk.
    destruct Hwk as [Huv Hwk]. destruct (IH Hwk Hl) as [H1 H2].
    split; [|done]. by split.
Qed.

Lemma path_weight_nonneg p : walk G p -> 0 <= path_weight G p.
Proof.
  induction p as [|u [|v p] IH]; intros Hwk; [done|done|].
  destruct Hwk as [Huv Hwk]. rewrite path_weight_cons.
  pose proof (edge_weight_nonneg _ _ Huv). specialize (IH Hwk). lia.
Qed.

(** Every path from the source to a node that is not settled is at least
    as long as some distance in the fringe. *)
Lemma fringe_bound st q : forall y,
  search_inv G a None st ->
  path_from_to G a y q ->
  dist st !! y = None ->
  exists d c z, (d, c, z) ∈ fringe st /\ d <= path_weight G q.
Proof.
  induction q as [|y' q' IH] using rev_ind; intros y Hinv (Hh & Hl & Hwk) Hy;
    [done|].
  rewrite last_snoc in Hl. injection Hl as ->.
  destruct (last q') as [x|] eqn:Hlast.
  - destruct (walk_snoc_inv _ _ _ Hwk Hlast) as [Hwk' Hedge].
    rewrite (path_weight_snoc _ _ _ Hlast).
    pose proof (edge_weight_nonneg _ _ Hedge) as Hpos.
    assert (Hpath : path_from_to G a x q').
    { split; [|done]. by destruct q'. }
    destruct (dist st !! x) as [dx|] eqn:Hdx.
    + destruct (si_settled _ _ _ _ Hinv _ _ Hdx) as [_ Hopt].
      specialize (Hopt _ Hpath).
      destruct (si_closed _ _ _ _ Hinv x dx y Hdx) as (sy & Hsy & Hle);
        [done|done|].
      destruct (si_pending _ _ _ _ Hinv _ _ Hsy Hy) as [c Hc].
      exists sy, c, y. split; [done|lia].
    + destruct (IH x Hinv Hpath Hdx) as (d & c & z & Hin & Hle).
      exists d, c, z. split; [done|lia].
  - apply last_None in Hlast. subst q'. injection Hh as ->.
    destruct (si_source _ _ _ _ Hinv) as (sa & Hsa & Hle).
    destruct (si_pending _ _ _ _ Hinv _ _ Hsa Hy) as [c Hc].
    exists sa, c, a. split; [done|]. simpl. lia.
Qed.

(** Relaxing an edge out of the node being expanded keeps the invariant
    and sees to the end of the edge. *)
Lemma relax_search v dv st u e :
  search_inv G a (Some v) st ->
  dist st !! v = Some dv ->
  (forall x dx, dist st !! x = Some dx -> dx <= dv) ->
  edge_data G v u = Ok e ->
  match relax v st (u, e) with
  | Ok st' =>
      search_inv G a (Some v) st'
      /\ dist st' = dist st
      /\ (exists su, seen st' !! u = Some su /\ su <= dv + edge_weight G v u)
      /\ (forall x sx, seen st !! x = Some sx ->
            exists sx', seen st' !! x = Some sx' /\ sx' <= sx)
  | _ => True
  end.
Proof.
  intros Hinv Hdv Hmax Hedge.
  destruct (Hw _ _ _ Hedge) as (w & Hwt & Hpos).
  rewrite (edge_weight_eq _ _ _ _ Hedge Hwt).
  assert (Hkeep : search_inv G a (Some v) st /\ dist st = dist st
            /\ (forall x sx, seen st !! x = Some sx ->
                  exists sx', seen st !! x = Some sx' /\ sx' <= sx)).
  { split; [done|]. split; [done|]. intros x sx Hx. exists sx. split; [done|lia]. }
  destruct (si_settled _ _ _ _ Hinv _ _ Hdv) as [Hsv _].
  destruct (si_seen _ _ _ _ Hinv _ _ Hsv) as (pv & Hpv & Hpath & Hpw).
  assert (Hupd : (forall su, seen st !! u = Some su -> dv + w < su) ->
    dist st !! u = None ->
    let st' := {| dist := dist st;
                  seen := <[u := dv + w]> (seen st);
                  paths := <[u := pv ++ [u]]> (paths st);
                  fringe := heappush (fringe st) (dv + w, counter st, u);
                  counter := S (counter st) |} in
    search_inv G a (Some v) st'
    /\ dist st' = dist st
    /\ (exists su, seen st' !! u = Some su /\ su <= dv + w)
    /\ (forall x sx, seen st !! x = Some sx ->
          exists sx', seen st' !! x = Some sx' /\ sx' <= sx)).
  { intros Hbetter Hdu st'.
    assert (Hmono : forall x sx, seen st !! x = Some sx ->
              exists sx', seen st' !! x = Some sx' /\ sx' <= sx).
    { intros x sx Hx. simpl. destruct (decide (u = x)) as [->|Hne].
      - rewrite lookup_insert_eq. exists (dv + w). split; [done|].
        specialize (Hbetter _ Hx). lia.
      - rewrite lookup_insert_ne by done. exists sx. split; [done|lia]. }
    split; [|split; [done|split; [|done]]].
    - split; simpl.
      + destruct (si_source _ _ _ _ Hinv) as (sa & Hsa & Hle).
        destruct (Hmono _ _ Hsa) as (sa' & Hsa' & Hle').
        exists sa'. split; [done|lia].
      + intros x sx. destruct (decide (u = x)) as [->|Hne].
        * rewrite !lookup_insert_eq. intros [= <-]. exists (pv ++ [x]).
          split; [done|]. split.
          -- eapply path_from_to_snoc; [done|by eexists].
          -- rewrite (path_weight_snoc _ v) by apply Hpath.
             rewrite (edge_weight_eq _ _ _ _ Hedge Hwt). lia.
        * rewrite !lookup_insert_ne by done. apply (si_seen _ _ _ _ Hinv).
      + intros x dx Hx. destruct (si_settled _ _ _ _ Hinv _ _ Hx) as [Hsx Hopt].
        split; [|done]. rewrite lookup_insert_ne; [done|]. congruence.
      + intros d c x Hin. unfold heappush in Hin.
        apply elem_of_cons in Hin as [[= -> -> ->]|Hin].
        * rewrite lookup_insert_eq. exists (dv + w). split; [done|lia].
        * destruct (si_fringe _ _ _ _ Hinv _ _ _ Hin) as (sx & Hsx & Hle).
          destruct (Hmono _ _ Hsx) as (sx' & Hsx' & Hle').
          exists sx'. split; [done|lia].
      + intros x sx Hx Hdx. unfold heappush.
        destruct (decide (u = x)) as [->|Hne].
        * rewrite lookup_insert_eq in Hx. injection Hx as <-.
          exists (counter st). left.
        * rewrite lookup_insert_ne in Hx by done.
          destruct (si_pending _ _ _ _ Hinv _ _ Hx Hdx) as [c Hc].
          exists c. by right.
      + intros y dy x Hy Hcur Hyx.
        destruct (si_closed _ _ _ _ Hinv _ _ _ Hy Hcur Hyx) as (sx & Hsx & Hle).
        destruct (Hmono _ _ Hsx) as (sx' & Hsx' & Hle').
        exists sx'. split; [done|lia].
      + intros y dy d c x Hy Hin. unfold heappush in Hin.
        apply elem_of_cons in Hin as [[= -> -> ->]|Hin].
        * specialize (Hmax _ _ Hy). lia.
        * by eapply (si_order _ _ _ _ Hinv).
    - exists (dv + w). simpl. rewrite lookup_insert_eq. split; [done|lia]. }
  unfold relax. rewrite Hwt. cbn [mbind outcome_bind obind].
  rewrite Hdv. cbn [mbind outcome_bind obind subscript].
  destruct (dist st !! u) as [du|] eqn:Hdu.
  - destruct (Z.ltb_spec (dv + w) du); [done|].
    destruct Hkeep as (K1 & K2 & K3). split; [done|]. split; [done|].
    split; [|done].
    destruct (si_settled _ _ _ _ Hinv _ _ Hdu) as [Hsu _].
    exists du. split; [done|lia].
  - destruct (seen st !! u) as [su|] eqn:Hsu.
    + destruct (Z.ltb_spec (dv + w) su).
      * rewrite Hpv. cbn [mbind outcome_bind obind subscript].
        apply Hupd; [|done]. intros su' [= <-]. done.
      * destruct Hkeep as (K1 & K2 & K3). split; [done|]. split; [done|].
        split; [|done]. exists su. split; [done|lia].
    + rewrite Hpv. cbn [mbind outcome_bind obind subscript].
      apply Hupd; [|done]. intros su' [=].
Qed.

Lemma relax_all_search v dv s : forall st,
  search_inv G a (Some v) st ->
  dist st !! v = Some dv ->
  (forall x dx, dist st !! x = Some dx -> dx <= dv) ->
  (forall u e, (u, e) ∈ s -> edge_data G v u = Ok e) ->
  match for_each (relax v) s st with
  | Ok st' =>
      search_inv G a (Some v) st'
      /\ dist st' = dist st
      /\ (forall u e, (u, e) ∈ s ->
            exists su, seen st' !! u = Some su /\ su <= dv + edge_weight G v u)
      /\ (forall x sx, seen st !! x = Some sx ->
            exists sx', seen st' !! x = Some sx' /\ sx' <= sx)
  | _ => True
  end.
Proof.
  induction s as [|[u e] s IH]; intros st Hinv Hdv Hmax Hs; cbn [for_each].
  - split; [done|]. split; [done|]. split.
    + intros u e Hin. by apply elem_of_nil in Hin.
    + intros x sx Hx. exists sx. split; [done|lia].
  - pose proof (relax_search v dv st u e Hinv Hdv Hmax (Hs u e ltac:(left)))
      as Hstep.
    destruct (relax v st (u, e)) as [st1| |]; cbn [mbind outcome_bind obind];
      [|done|done].
    destruct Hstep as (Hinv1 & Hd1 & Hu1 & Hmono1).
    assert (Hdv1 : dist st1 !! v = Some dv) by by rewrite Hd1.
    assert (Hmax1 : forall x dx, dist st1 !! x = Some dx -> dx <= dv)
      by (rewrite Hd1; exact Hmax).
    specialize (IH st1 Hinv1 Hdv1 Hmax1
                  (fun u' e' Hin => Hs u' e' ltac:(by right))).
    destruct (for_each (relax v) s st1) as [st2| |]; [|done|done].
    destruct IH as (Hinv2 & Hd2 & Hs2 & Hmono2).
    split; [done|]. split; [congruence|]. split.
    + intros u' e' Hin. apply elem_of_cons in Hin as [[= -> ->]|Hin].
      * destruct Hu1 as (su & Hsu & Hle).
        destruct (Hmono2 _ _ Hsu) as (su' & Hsu' & Hle').
        exists su'. split; [done|lia].
      * by eapply Hs2.
    + intros x sx Hx. destruct (Hmono1 _ _ Hx) as (sx1 & Hx1 & Hle1).
      destruct (Hmono2 _ _ Hx1) as (sx2 & Hx2 & Hle2).
      exists sx2. split; [done|lia].
Qed.

(** Taking the least entry of the fringe settles its node at its final
    distance. *)
Lemma settle_search st d c v rest :
  search_inv G a None st ->
  heappop (fringe st) = Some ((d, c, v), rest) ->
  dist st !! v = None ->
  search_inv G a (Some v)
    {| dist := <[v := d]> (dist st); seen := seen st; paths := paths st;
       fringe := rest; counter := counter st |}
  /\ (forall x dx, <[v := d]> (dist st) !! x = Some dx -> dx <= d).
Proof.
  intros Hinv Hpop Hdv.
  destruct (heappop_spec _ _ _ Hpop) as (Hel & _ & Hmin).
  assert (Hv : (d, c, v) ∈ fringe st) by (apply Hel; by left).
  assert (Hleast : forall d' c' x, (d', c', x) ∈ fringe st -> d <= d').
  { intros d' c' x Hin. apply Hel in Hin as [[= -> -> ->]|Hin]; [lia|].
    apply (Hmin _ Hin). }
  destruct (si_fringe _ _ _ _ Hinv _ _ _ Hv) as (sv & Hsv & Hle).
  destruct (si_pending _ _ _ _ Hinv _ _ Hsv Hdv) as [c' Hc'].
  pose proof (Hleast _ _ _ Hc') as Hge.
  assert (sv = d) as -> by lia.
  split.
  - split; simpl.
    + apply (si_source _ _ _ _ Hinv).
    + apply (si_seen _ _ _ _ Hinv).
    + intros x dx Hx. apply lookup_insert_Some in Hx as [[<- <-]|[Hne Hx]].
      * split; [done|]. intros q Hq.
        destruct (fringe_bound st q v Hinv Hq Hdv) as (d' & c0 & z & Hin & Hle').
        pose proof (Hleast _ _ _ Hin). lia.
      * apply (si_settled _ _ _ _ Hinv _ _ Hx).
    + intros d' c0 x Hin. apply (si_fringe _ _ _ _ Hinv d' c0 x).
      apply Hel. by right.
    + intros x sx Hx Hdx. apply lookup_insert_None in Hdx as [Hdx Hne].
      destruct (si_pending _ _ _ _ Hinv _ _ Hx Hdx) as [c0 Hc0].
      apply Hel in Hc0 as [[= -> -> ->]|Hin]; [done|]. by exists c0.
    + intros u du x Hu Hcur Hux.
      apply lookup_insert_Some in Hu as [[-> _]|[Hne Hu]]; [done|].
      by apply (si_closed _ _ _ _ Hinv _ _ _ Hu).
    + intros u du d' c0 x Hu Hin.
      assert (Hin' : (d', c0, x) ∈ fringe st) by (apply Hel; by right).
      apply lookup_insert_Some in Hu as [[<- <-]|[Hne Hu]].
      * by eapply Hleast.
      * by eapply (si_order _ _ _ _ Hinv).
  - intros x dx Hx. apply lookup_insert_Some in Hx as [[<- <-]|[Hne Hx]]; [lia|].
    by eapply (si_order _ _ _ _ Hinv).
Qed.

Lemma skip_search st d c v rest :
  search_inv G a None st ->
  heappop (fringe st) = Some ((d, c, v), rest) ->
  is_Some (dist st !! v) ->
  search_inv G a None
    {| dist := dist st; seen := seen st; paths := paths st;
       fringe := rest; counter := counter st |}.
Proof.
  intros Hinv Hpop [dv Hdv].
  destruct (heappop_spec _ _ _ Hpop) as (Hel & _ & _).
  split; simpl.
  - apply (si_source _ _ _ _ Hinv).
  - apply (si_seen _ _ _ _ Hinv).
  - apply (si_settled _ _ _ _ Hinv).
  - intros d' c0 x Hin. apply (si_fringe _ _ _ _ Hinv d' c0 x).
    apply Hel. by right.
  - intros x sx Hx Hdx.
    destruct (si_pending _ _ _ _ Hinv _ _ Hx Hdx) as [c0 Hc0].
    apply Hel in Hc0 as [[= -> -> ->]|Hin]; [congruence|]. by exists c0.
  - apply (si_closed _ _ _ _ Hinv).
  - intros u du d' c0 x Hu Hin. eapply (si_order _ _ _ _ Hinv); [done|].
    apply Hel. by right.
Qed.

(** When the loop has ended, what it settled has its final distance, and
    it has settled the target or every node a path leads to. *)
Lemma dijkstra_loop_search target : forall fuel st,
  search_inv G a None st ->
  match dijkstra_loop fuel G target st with
  | Ok st' =>
      (exists cur, search_inv G a cur st')
      /\ (is_Some (dist st' !! target)
          \/ forall x, reachable G a x -> is_Some (dist st' !! x))
  | _ => True
  end.
Proof.
  induction fuel as [|fuel IH]; intros st Hinv; [done|]. cbn [dijkstra_loop].
  destruct (heappop (fringe st)) as [[[[d c] v] rest]|] eqn:Hpop.
  - destruct (dist st !! v) as [dv|] eqn:Hdv.
    + apply IH. eapply skip_search; [done|done|by eexists].
    + destruct (settle_search _ _ _ _ _ Hinv Hpop Hdv) as [Hinv1 Hmax1].
      case_decide as Htarget.
      * split; [by eexists|]. left. simpl. subst v.
        rewrite lookup_insert_eq. by eexists.
      * destruct (succ G v) as [s| |] eqn:Hs; cbn [mbind outcome_bind obind];
          [|done|done].
        assert (Hsucc : forall u e, (u, e) ∈ s -> edge_data G v u = Ok e).
        { intros u e Hin. unfold succ in Hs.
          destruct (PyDict.get v (nodes G)) as [[na s']|] eqn:Hv; [|done].
          injection Hs as <-. apply edge_data_Ok. exists na, s'. split; [done|].
          apply elem_get_NoDup; [|done]. eapply wf_succ; [done|].
          by apply get_Some_elem. }
        match goal with
        | |- context [for_each (relax v) s ?st1] =>
            pose proof (relax_all_search v d s st1 Hinv1
                          ltac:(simpl; apply lookup_insert_eq) Hmax1 Hsucc) as Hrel;
            destruct (for_each (relax v) s st1) as [st2| |];
            cbn [mbind outcome_bind obind]; [|done|done]
        end.
        destruct Hrel as (Hinv2 & Hd2 & Hs2 & _).
        apply IH. split; try apply Hinv2.
        intros u du x Hu _ Hux.
        destruct (decide (u = v)) as [->|Hne].
        -- simpl in Hd2. rewrite Hd2, lookup_insert_eq in Hu. injection Hu as <-.
           destruct Hux as [e He]. apply (Hs2 x e).
           apply edge_data_Ok in He as (na & s' & Hv & Hx).
           unfold succ in Hs. rewrite Hv in Hs. injection Hs as <-.
           by apply get_Some_elem.
        -- apply (si_closed _ _ _ _ Hinv2 _ _ _ Hu); [congruence|done].
  - apply heappop_None in Hpop. split; [by eexists|]. right.
    assert (Hseen : forall x sx, seen st !! x = Some sx -> is_Some (dist st !! x)).
    { intros x sx Hx. destruct (dist st !! x) as [dx|] eqn:Hdx; [by eexists|].
      destruct (si_pending _ _ _ _ Hinv _ _ Hx Hdx) as [c Hc].
      rewrite Hpop in Hc. by apply elem_of_nil in Hc. }
    intros x Hreach. induction Hreach as [|u x Hreach IHr Hedge].
    + destruct (si_source _ _ _ _ Hinv) as (sa & Hsa & _). by eapply Hseen.
    + destruct IHr as [du Hu].
      destruct (si_closed _ _ _ _ Hinv _ _ _ Hu ltac:(done) Hedge)
        as (sx & Hsx & _).
      by eapply Hseen.
Qed.

Lemma search_inv_initial :
  search_inv G a None
    {| dist := ∅; seen := {[a := 0]}; paths := {[a := [a]]};
       fringe := [(0, 0%nat, a)]; counter := 1 |}.
Proof.
  split; simpl.
  - exists 0. by rewrite lookup_singleton_eq.
  - intros v sv Hv. apply lookup_singleton_Some in Hv as [<- <-].
    exists [a]. by rewrite lookup_singleton_eq.
  - intros v dv. by rewrite lookup_empty.
  - intros d c v Hin. apply list_elem_of_singleton in Hin as [= -> -> ->].
    exists 0. by rewrite lookup_singleton_eq.
  - intros v sv Hv _. apply lookup_singleton_Some in Hv as [<- <-].
    exists 0%nat. left.
  - intros u du x. by rewrite lookup_empty.
  - intros u du d c v. by rewrite lookup_empty.
Qed.

(** No path from the source to the target weighs less than the path
    [dijkstra_path] returns. *)
Lemma dijkstra_path_shortest b p q :
  dijkstra_path G a b = Ok p ->
  path_from_to G a b q ->
  path_weight G p <= path_weight G q.
Proof.
  unfold dijkstra_path. case_decide as Hab.
  - intros [= <-] (_ & _ & Hwk). simpl. by apply path_weight_nonneg.
  - unfold _dijkstra_multisource. destruct (has_node a G); [|done].
    match goal with
    | |- context [dijkstra_loop ?f G b ?st0] =>
        pose proof (dijkstra_loop_search b f st0 search_inv_initial) as Hloop;
        destruct (dijkstra_loop f G b st0) as [st| |];
        cbn [mbind outcome_bind obind]; [|done|done]
    end.
    destruct Hloop as [[cur Hinv] _].
    destruct (dist st !! b) as [db|] eqn:Hdb;
      cbn [mbind outcome_bind obind subscript try_except]; [|by case_decide].
    destruct (paths st !! b) as [p'|] eqn:Hp; cbn; [|by case_decide].
    intros [= <-] Hq.
    destruct (si_settled _ _ _ _ Hinv _ _ Hdb) as [Hsb Hopt].
    destruct (si_seen _ _ _ _ Hinv _ _ Hsb) as (p0 & Hp0 & _ & Hpw).
    rewrite Hp in Hp0. injection Hp0 as <-. rewrite Hpw. by apply Hopt.
Qed.

(** [dijkstra_path] returns a path whenever one leads from the source to
    the target. *)
Lemma dijkstra_path_complete b :
  has_node a G = true ->
  reachable G a b ->
  exists p, dijkstra_path G a b = Ok p.
Proof.
  intros Ha Hreach. unfold dijkstra_path. case_decide as Hab; [by eexists|].
  destruct (dijkstra_multisource_ok G a Hwf Hw b {[a := [a]]} Ha)
    as (st & Hrun & _).
  { rewrite lookup_singleton_eq. by eexists. }
  rewrite Hrun. cbn [mbind outcome_bind obind].
  unfold _dijkstra_multisource in Hrun. rewrite Ha in Hrun.
  pose proof (dijkstra_loop_search b (dijkstra_fuel G) _ search_inv_initial)
    as Hloop.
  rewrite Hrun in Hloop. destruct Hloop as [[cur Hinv] Hdone].
  assert (Hb : is_Some (dist st !! b)) by (destruct Hdone; auto).
  destruct Hb as [db Hdb]. rewrite Hdb.
  destruct (si_settled _ _ _ _ Hinv _ _ Hdb) as [Hsb _].
  destruct (si_seen _ _ _ _ Hinv _ _ Hsb) as (p & Hp & _).
  rewrite Hp. cbn. by eexists.
Qed.

End Shortest.

Lemma path_from_to_reachable G a b p : path_from_to G a b p -> reachable G a b.
Proof.
  revert b. induction p as [|y p IH] using rev_ind; intros b (Hh & Hl & Hwk);
    [done|].
  rewrite last_snoc in Hl. injection Hl as ->.
  destruct (last p) as [x|] eqn:Hlast.
  - assert (Hsplit : walk G p /\ has_edge G x b).
    { clear IH Hh. revert Hwk Hlast.
      induction p as [|u [|v p] IHp]; intros Hwk Hl; [done| |].
      - injection Hl as ->. simpl in Hwk. by destruct Hwk.
      - change ((u :: v :: p) ++ [b]) with (u :: (v :: p) ++ [b]) in Hwk.
        destruct Hwk as [Huv Hwk]. destruct (IHp Hwk Hl) as [H1 H2].
        split; [|done]. by split. }
    destruct Hsplit as [Hwk' Hedge].
    eapply reachable_step; [|exact Hedge]. apply IH.
    split; [by destruct p|]. by split.
  - apply last_None in Hlast. subst p. injection Hh as ->. constructor.
Qed.

(** *** The loop of Bellman-Ford ends *)

Lemma bf_budget_other n T count v c :
  v ∉ T -> bf_budget n T (<[v := c]> count) = bf_budget n T count.
Proof.
  unfold bf_budget. induction T as [|x T IH]; intros Hv; simpl; [done|].
  apply not_elem_of_cons in Hv as [Hne Hv].
  rewrite lookup_insert_ne by done. by rewrite IH.
Qed.

Lemma bf_budget_insert n T count v :
  NoDup T -> v ∈ T ->
  (S (default O (count !! v)) < n)%nat ->
  (bf_budget n T (<[v := S (default O (count !! v))]> count) + 1
   <= bf_budget n T count)%nat.
Proof.
  intros Hnd Hv Hc. induction T as [|x T IH]; [by apply elem_of_nil in Hv|].
  apply NoDup_cons in Hnd as [Hx Hnd].
  destruct (decide (v = x)) as [->|Hne].
  - unfold bf_budget. simpl. rewrite lookup_insert_eq. simpl.
    pose proof (bf_budget_other n T count x (S (default O (count !! x))) Hx) as H.
    unfold bf_budget in H. rewrite H. lia.
  - apply elem_of_cons in Hv as [?|Hv]; [done|].
    specialize (IH Hnd Hv). unfold bf_budget in *. simpl.
    rewrite lookup_insert_ne by done. lia.
Qed.

Lemma bf_targets_succ G u na s v e :
  PyDict.get u (nodes G) = Some (na, s) -> (v, e) ∈ s -> v ∈ bf_targets G.
Proof.
  intros Hu Hv. unfold bf_targets. apply elem_of_remove_dups.
  apply list_elem_of_fmap. exists (u, v, e). split; [done|].
  apply edges_elem. exists na, s. split; [by apply get_Some_elem | done].
Qed.

Lemma bf_budget_initial G :
  (bf_budget (len G) (bf_targets G) ∅ <= len G * length (edges G))%nat.
Proof.
  unfold bf_budget, bf_targets.
  assert (Hlen : forall l : list Z, (length (remove_dups l) <= length l)%nat).
  { induction l as [|x l IH]; simpl; [lia|]. case_decide; simpl; lia. }
  specialize (Hlen ((fun e : Z * Z * attrs => e.1.2) <$> edges G)).
  rewrite length_fmap in Hlen.
  etrans; [|apply Nat.mul_le_mono_l, Hlen].
  generalize (remove_dups ((fun e : Z * Z * attrs => e.1.2) <$> edges G)).
  intros T. induction T as [|x T IH]; simpl; [lia|].
  rewrite lookup_empty. simpl. lia.
Qed.

Lemma bf_relax_ends n T u du st v e :
  (0 < n)%nat -> NoDup T -> v ∈ T -> bf_counts_below n st ->
  match bf_relax n u du st (v, e) with
  | Ok st' => bf_counts_below n st' /\ (bf_left n T st' <= bf_left n T st)%nat
  | Raise _ => True
  | OutOfFuel => False
  end.
Proof.
  intros Hn Hnd Hv Hc. unfold bf_relax, weight.
  destruct (PyDict.get "weight" e) as [[|w|?|??]|]; cbn; try done.
  all: match goal with
       | |- context [if ?b then _ else if ?b' then _ else _] =>
           destruct b;
           [|destruct b'; [|by split];
             destruct (PyDict.get v (bf_pred st)); cbn; [by split|done]]
       end.
  all: case_decide; cbn; [by split|].
  all: case_decide; cbn; [done|].
  all: split;
    [ intros x c; simpl; rewrite lookup_insert; case_decide;
      [ intros [= <-]; destruct (count st !! v) as [c0|] eqn:Hc0; simpl in *;
        [ specialize (Hc _ _ Hc0); lia | lia ]
      | apply Hc ]
    | unfold bf_left; simpl; rewrite length_app; simpl;
      assert (S (default O (count st !! v)) < n)%nat
        by (destruct (count st !! v) as [c0|] eqn:Hc0; simpl in *;
            [ specialize (Hc _ _ Hc0); lia | lia ]);
      pose proof (bf_budget_insert n T (count st) v Hnd Hv ltac:(done)); lia ].
Qed.

Lemma bf_relax_all_ends n T u du s : forall st,
  (0 < n)%nat -> NoDup T -> (forall v e, (v, e) ∈ s -> v ∈ T) ->
  bf_counts_below n st ->
  match for_each (bf_relax n u du) s st with
  | Ok st' => bf_counts_below n st' /\ (bf_left n T st' <= bf_left n T st)%nat
  | Raise _ => True
  | OutOfFuel => False
  end.
Proof.
  induction s as [|[v e] s IH]; intros st Hn Hnd Hs Hc; cbn [for_each].
  - by split.
  - pose proof (bf_relax_ends n T u du st v e Hn Hnd (Hs v e ltac:(left)) Hc) as H.
    destruct (bf_relax n u du st (v, e)) as [st1| |]; cbn; [|done|done].
    destruct H as [Hc1 Hle1].
    specialize (IH st1 Hn Hnd (fun v' e' H' => Hs v' e' ltac:(by right)) Hc1).
    destruct (for_each (bf_relax n u du) s st1) as [st2| |]; [|done|done].
    destruct IH as [Hc2 Hle2]. split; [done|lia].
Qed.

Lemma bf_loop_ends G : forall fuel st,
  (0 < len G)%nat ->
  bf_counts_below (len G) st ->
  (bf_left (len G) (bf_targets G) st < fuel)%nat ->
  bf_loop fuel G st <> OutOfFuel.
Proof.
  induction fuel as [|fuel IH]; intros st Hn Hc Hfuel; [lia|].
  cbn [bf_loop]. destruct (queue st) as [|u q] eqn:Hq; [done|].
  remember {| bf_dist := bf_dist st; bf_pred := bf_pred st; queue := q;
              in_q := in_q st ∖ {[u]}; count := count st |} as st1 eqn:Hst1.
  assert (Hc1 : bf_counts_below (len G) st1) by (by subst st1).
  assert (Hl1 : (bf_left (len G) (bf_targets G) st1 < fuel)%nat).
  { subst st1. unfold bf_left in *. rewrite Hq in Hfuel. simpl in *. lia. }
  clear Hst1.
  destruct (PyDict.get u (bf_pred st1)) as [pu|]; [|done].
  cbn [mbind outcome_bind obind subscript].
  match goal with
  | |- context [if ?b then _ else _] => destruct b; [|by apply IH]
  end.
  destruct (bf_dist st1 !! u) as [du|]; [|done].
  cbn [mbind outcome_bind obind subscript].
  unfold succ. destruct (PyDict.get u (nodes G)) as [[na s]|] eqn:Hu; [|done].
  cbn [mbind outcome_bind obind subscript snd].
  pose proof (bf_relax_all_ends (len G) (bf_targets G) u du s st1 Hn
                (NoDup_remove_dups _)
                (fun v e H => bf_targets_succ G u na s v e Hu H) Hc1) as H.
  destruct (for_each (bf_relax (len G) u du) s st1) as [st2| |]; [|done|done].
  cbn [mbind outcome_bind obind].
  destruct H as [Hc2 Hle2]. apply IH; [done|done|lia].
Qed.

(** The search for the tree ends: it returns or it raises. *)
Lemma bellman_ford_ends G source :
  bellman_ford_predecessor_and_distance G source <> OutOfFuel.
Proof.
  unfold bellman_ford_predecessor_and_distance.
  destruct (has_node source G) eqn:Hs; [|done].
  assert (Hneg : negative_selfloop (edges G) <> OutOfFuel).
  { induction (edges G) as [|[[u v] d] es IH]; simpl; [done|].
    case_decide; [|done]. unfold weight.
    destruct (PyDict.get "weight" d) as [[|w|?|??]|]; cbn; try done.
    all: by destruct (_ <? 0). }
  destruct (negative_selfloop (edges G)) as [[]| |];
    cbn [mbind outcome_bind obind]; try done.
  case_decide; [done|].
  assert (Hn : (0 < len G)%nat).
  { apply has_node_true in Hs as [d Hd]. unfold len.
    destruct (nodes G); [done | simpl; lia]. }
  match goal with
  | |- context [bf_loop ?f G ?st0] =>
      pose proof (bf_loop_ends G f st0 Hn) as Hends;
      destruct (bf_loop f G st0); cbn [mbind outcome_bind obind]; [done|done|]
  end.
  exfalso. apply Hends; [|  |done].
  - intros x c. simpl. by rewrite lookup_empty.
  - unfold bf_left, bf_fuel. simpl.
    pose proof (bf_budget_initial G). lia.
Qed.

(** The predecessors the search returns are never empty: the source has
    its entry from the start, and no entry is removed. *)
Lemma bf_relax_pred n u du st v e :
  bf_pred st <> [] ->
  match bf_relax n u du st (v, e) with
  | Ok st' => bf_pred st' <> []
  | _ => True
  end.
Proof.
  assert (Hset : forall (k : Z) (x : list Z) (d : list (Z * list Z)),
            d <> [] -> PyDict.set k x d <> []).
  { intros k x d Hd Heq. pose proof (length_set_le k x d) as Hle.
    rewrite Heq in Hle. destruct d; [done|simpl in Hle; lia]. }
  intros Hp. unfold bf_relax.
  destruct (weight e) as [w| |]; cbn [mbind outcome_bind obind]; [|done|done].
  match goal with
  | |- context [if ?b then _ else if ?b' then _ else _] =>
      destruct b; [|destruct b'; [|done]]
  end.
  - case_decide; cbn [mbind outcome_bind obind]; [by apply Hset|].
    case_decide; cbn [mbind outcome_bind obind]; [done|]. by apply Hset.
  - destruct (PyDict.get v (bf_pred st));
      cbn [mbind outcome_bind obind subscript]; [|done].
    by apply Hset.
Qed.

Lemma bf_relax_all_pred n u du s : forall st,
  bf_pred st <> [] ->
  match for_each (bf_relax n u du) s st with
  | Ok st' => bf_pred st' <> []
  | _ => True
  end.
Proof.
  induction s as [|[v e] s IH]; intros st Hp; cbn [for_each]; [done|].
  pose proof (bf_relax_pred n u du st v e Hp) as Hstep.
  destruct (bf_relax n u du st (v, e)) as [st1| |];
    cbn [mbind outcome_bind obind]; [|done|done].
  by apply IH.
Qed.

Lemma bf_loop_pred G : forall fuel st,
  bf_pred st <> [] ->
  match bf_loop fuel G st with
  | Ok st' => bf_pred st' <> []
  | _ => True
  end.
Proof.
  induction fuel as [|fuel IH]; intros st Hp; [done|]. cbn [bf_loop].
  destruct (queue st) as [|u q]; [done|]. cbn [bf_pred bf_dist].
  destruct (PyDict.get u (bf_pred st)) as [pu|];
    cbn [mbind outcome_bind obind subscript]; [|done].
  match goal with
  | |- context [if ?b then _ else _] => destruct b; [|by apply IH]
  end.
  destruct (bf_dist st !! u) as [du|];
    cbn [mbind outcome_bind obind subscript]; [|done].
  destruct (succ G u) as [s| |]; cbn [mbind outcome_bind obind]; [|done|done].
  match goal with
  | |- context [for_each ?f s ?st1] =>
      pose proof (bf_relax_all_pred (len G) u du s st1 Hp) as Hrel;
      destruct (for_each f s st1) as [st2| |];
      cbn [mbind outcome_bind obind]; [|done|done]
  end.
  by apply IH.
Qed.

Lemma bellman_ford_pred G source pred ds :
  bellman_ford_predecessor_and_distance G source = Ok (pred, ds) -> pred <> [].
Proof.
  unfold bellman_ford_predecessor_and_distance.
  destruct (has_node source G); [|done].
  destruct (negative_selfloop (edges G)) as [[]| |];
    cbn [mbind outcome_bind obind]; try done.
  case_decide; [by intros [= <- _]|].
  match goal with
  | |- context [bf_loop ?f G ?st0] =>
      pose proof (bf_loop_pred G f st0 ltac:(done)) as Hloop;
      destruct (bf_loop f G st0) as [st| |];
      cbn [mbind outcome_bind obind]; [|done|done]
  end.
  by intros [= <- _].
Qed.

Lemma reachable_has_node G a b :
  wf G -> has_node a G = true -> reachable G a b -> has_node b G = true.
Proof.
  intros HG Ha Hreach. induction Hreach as [|u v Hreach IH [e He]]; [done|].
  apply edge_data_Ok in He as (na & s & Hu & Hv).
  eapply wf_closed; [done|by apply get_Some_elem|by apply get_Some_elem].
Qed.

End NxFacts.

(** ** The manager's state monad *)

Module GraphManagerFacts.
Import Qgis GraphManager.

Lemma keeps_dirty_ret {A} (a : A) : keeps_dirty (ret a).
Proof. by intros s. Qed.

Lemma keeps_dirty_raise {A} e : keeps_dirty (@raise A e).
Proof. by intros s. Qed.

Lemma keeps_dirty_lift {A} (o : outcome A) : keeps_dirty (lift o).
Proof. by intros s. Qed.

Lemma keeps_dirty_read {A} (f : t -> A) : keeps_dirty (read f).
Proof. by intros s. Qed.

Lemma keeps_dirty_deref {A} (o : option A) : keeps_dirty (deref o).
Proof. destruct o; [apply keeps_dirty_ret | apply keeps_dirty_raise]. Qed.

Lemma keeps_dirty_modify (f : t -> t) :
  (forall s, dirty (f s) = dirty s) -> keeps_dirty (modify f).
Proof. intros Hf s. apply Hf. Qed.

Lemma keeps_dirty_bind {A B} (m : M A) (k : A -> M B) :
  keeps_dirty m -> (forall a, keeps_dirty (k a)) -> keeps_dirty (m ≫= k).
Proof.
  intros Hm Hk s. unfold mbind, M_bind, bind. specialize (Hm s).
  destruct (m s) as [[a|e|] s1]; simpl in *; [|done|done].
  by rewrite Hk.
Qed.

Lemma keeps_dirty_catch {A} (m h : M A) e :
  keeps_dirty m -> keeps_dirty h -> keeps_dirty (catch m e h).
Proof.
  intros Hm Hh s. unfold catch. specialize (Hm s).
  destruct (m s) as [[a|e'|] s1]; simpl in *; [done| |done].
  destruct (decide (e' = e)); [by rewrite Hh | done].
Qed.

Create HintDb dirty.

#[export] Hint Resolve keeps_dirty_ret keeps_dirty_raise keeps_dirty_lift
  keeps_dirty_read keeps_dirty_deref : dirty.

Ltac keeps_dirty_step :=
  first
    [ solve [auto with dirty]
    | apply keeps_dirty_bind; [|intros ?]
    | apply keeps_dirty_catch
    | apply keeps_dirty_modify; intros ?; reflexivity ].

Ltac keeps_dirty := repeat keeps_dirty_step.

Lemma keeps_dirty_profile name : keeps_dirty (_profile name).
Proof. unfold _profile. keeps_dirty. Qed.

#[export] Hint Resolve keeps_dirty_profile : dirty.

Lemma keeps_dirty_addVertex vertex feat : keeps_dirty (addVertex vertex feat).
Proof.
  unfold addVertex. keeps_dirty.
  match goal with |- keeps_dirty (match ?v with _ => _ end) => destruct v as [[??]|] end;
    keeps_dirty.
Qed.

Lemma keeps_dirty_addVertices_loop feats vertex :
  keeps_dirty (addVertices_loop feats vertex).
Proof.
  revert vertex. induction feats as [|feat rest IH]; intros vertex; simpl.
  - keeps_dirty.
  - apply keeps_dirty_bind; [apply keeps_dirty_addVertex | intros ?; apply IH].
Qed.

#[export] Hint Resolve keeps_dirty_addVertices_loop : dirty.

Lemma keeps_dirty_addVertices : keeps_dirty _addVertices.
Proof. unfold _addVertices. keeps_dirty. Qed.

Lemma keeps_dirty_vertexId k : keeps_dirty (vertexId k).
Proof. unfold vertexId. keeps_dirty. destruct k; keeps_dirty. Qed.

#[export] Hint Resolve keeps_dirty_vertexId : dirty.

Lemma keeps_dirty_addEdge feat : keeps_dirty (addEdge feat).
Proof. unfold addEdge. keeps_dirty. Qed.

Lemma keeps_dirty_addEdges_loop feats : keeps_dirty (addEdges_loop feats).
Proof.
  induction feats as [|feat rest IH]; simpl.
  - keeps_dirty.
  - apply keeps_dirty_bind; [apply keeps_dirty_addEdge | intros ?; apply IH].
Qed.

#[export] Hint Resolve keeps_dirty_addEdges_loop : dirty.

Lemma keeps_dirty_addEdges : keeps_dirty _addEdges.
Proof. unfold _addEdges. keeps_dirty. Qed.

#[export] Hint Resolve keeps_dirty_addVertices keeps_dirty_addEdges : dirty.

Lemma bind_assoc {A B C} (m : M A) (k : A -> M B) (h : B -> M C) s :
  ((m ≫= k) ≫= h) s = (m ≫= (fun a => k a ≫= h)) s.
Proof.
  unfold mbind, M_bind, bind. destruct (m s) as [[a|e|] s1]; done.
Qed.

Lemma createGraph_split s :
  createGraph s = (createGraph_build ≫= fun _ => modify (set_dirty false)) s.
Proof.
  unfold createGraph, createGraph_build, print_profile, mbind, M_bind, bind, modify, ret.
  repeat match goal with
         | |- context [match ?m ?s0 with _ => _ end] =>
             destruct (m s0) as [[[]|?|] ?]; try reflexivity
         end.
Qed.

Lemma keeps_dirty_createGraph_build : keeps_dirty createGraph_build.
Proof.
  unfold createGraph_build, print_profile. keeps_dirty.
Qed.

(** [createGraph] clears the flag exactly when it runs to its end. *)
Lemma createGraph_dirty s :
  match (createGraph s).1 with
  | Ok _ => dirty (createGraph s).2 = false
  | _ => dirty (createGraph s).2 = dirty s
  end.
Proof.
  rewrite createGraph_split. unfold mbind, M_bind, bind.
  pose proof (keeps_dirty_createGraph_build s) as H.
  destruct (createGraph_build s) as [[[]|e|] s1]; simpl in *; done.
Qed.

Lemma createGraph_cleared s r s1 :
  createGraph s = (r, s1) -> dirty s1 = false -> dirty s = false \/ r = Ok tt.
Proof.
  intros E Hd. pose proof (createGraph_dirty s) as H. rewrite E in H. simpl in H.
  destruct r as [[]| |]; [by right | left; congruence | left; congruence].
Qed.

Lemma createGraph_Ok_clean s s1 : createGraph s = (Ok tt, s1) -> dirty s1 = false.
Proof.
  intros E. pose proof (createGraph_dirty s) as H. by rewrite E in H.
Qed.

(** *** Adding the reaches *)

Lemma field_cases feat name :
  (exists v, field feat name = Ok v) \/ field feat name = Raise KeyError.
Proof.
  unfold field, subscript. destruct (PyDict.get name (attributes feat)); eauto.
Qed.

Lemma vertexId_eq k s :
  vertexId k s =
  (match k with VStr x => subscript (vertexIds s !! x) | _ => Raise KeyError end, s).
Proof. unfold vertexId, mbind, M_bind, bind, read, lift, raise. by destruct k. Qed.

(** A reach with an endpoint that does not resolve changes nothing. *)
Lemma addEdge_unresolved feat s :
  endpoint (vertexIds s) feat "from_obj_id" = None
  \/ endpoint (vertexIds s) feat "to_obj_id" = None ->
  addEdge feat s = (Ok tt, s).
Proof.
  unfold endpoint. intros H.
  unfold addEdge, catch, mbind, M_bind, bind, lift.
  destruct (field_cases feat "obj_id") as [[v1 E1]|E1]; rewrite E1; [|reflexivity].
  destruct (field_cases feat "type") as [[v2 E2]|E2]; rewrite E2; [|reflexivity].
  destruct (field_cases feat "from_obj_id") as [[v3 E3]|E3]; rewrite E3 in *;
    [|reflexivity].
  destruct (field_cases feat "to_obj_id") as [[v4 E4]|E4]; rewrite E4 in *;
    [|reflexivity].
  destruct (field_cases feat "length_calc") as [[v5 E5]|E5]; rewrite E5;
    [|reflexivity].
  cbv beta iota. rewrite vertexId_eq.
  destruct v3 as [|?|k3|??]; try reflexivity.
  destruct (vertexIds s !! k3) as [p1|] eqn:K3; [|reflexivity].
  cbn -[vertexId]. rewrite vertexId_eq.
  destruct v4 as [|?|k4|??]; try reflexivity.
  destruct (vertexIds s !! k4) as [p2|] eqn:K4; [|reflexivity].
  destruct H; congruence.
Qed.

(** A reach with its fields and both endpoints resolved adds its edge. *)
Lemma addEdge_resolved feat s G obj_id obj_type len p1 p2 :
  graph s = Some G ->
  field feat "obj_id" = Ok obj_id ->
  field feat "type" = Ok obj_type ->
  field feat "length_calc" = Ok len ->
  endpoint (vertexIds s) feat "from_obj_id" = Some p1 ->
  endpoint (vertexIds s) feat "to_obj_id" = Some p2 ->
  addEdge feat s =
    (Ok tt,
     set_graph (Some (Nx.add_edge p1 p2
       [("weight", len); ("feature", VInt (fid feat));
        ("baseFeature", obj_id); ("objType", obj_type)] G)) s).
Proof.
  unfold endpoint. intros Hg E1 E2 E5 H3 H4.
  unfold addEdge, catch, mbind, M_bind, bind, lift.
  rewrite E1, E2, E5.
  destruct (field feat "from_obj_id") as [[|?|k3|??]| |]; try discriminate.
  destruct (field feat "to_obj_id") as [[|?|k4|??]| |]; try discriminate.
  cbv beta iota. rewrite vertexId_eq, H3.
  cbn -[vertexId]. rewrite vertexId_eq, H4.
  cbn. rewrite Hg. reflexivity.
Qed.

(** The body of the loop never raises and removes no edge. *)
Lemma addEdge_total feat s G :
  graph s = Some G ->
  exists G',
    addEdge feat s = (Ok tt, set_graph (Some G') s)
    /\ (forall x y, Nx.has_edge G x y -> Nx.has_edge G' x y).
Proof.
  intros Hg.
  assert (Hsame : s = set_graph (Some G) s) by (destruct s; simpl in *; subst; reflexivity).
  destruct (endpoint (vertexIds s) feat "from_obj_id") as [p1|] eqn:H3;
    [|exists G; split; [rewrite <- Hsame; apply addEdge_unresolved; by left | done]].
  destruct (endpoint (vertexIds s) feat "to_obj_id") as [p2|] eqn:H4;
    [|exists G; split; [rewrite <- Hsame; apply addEdge_unresolved; by right | done]].
  destruct (field_cases feat "obj_id") as [[v1 E1]|E1];
    [|exists G; split; [|done]; rewrite <- Hsame;
      unfold addEdge, catch, mbind, M_bind, bind, lift; by rewrite E1].
  destruct (field_cases feat "type") as [[v2 E2]|E2];
    [|exists G; split; [|done]; rewrite <- Hsame;
      unfold addEdge, catch, mbind, M_bind, bind, lift; by rewrite E1, E2].
  destruct (field_cases feat "length_calc") as [[v5 E5]|E5].
  - eexists. split; [by eapply addEdge_resolved|].
    intros x y. apply NxFacts.add_edge_keeps_edge.
  - exists G; split; [|done]. rewrite <- Hsame. revert H3 H4. unfold endpoint.
    unfold addEdge, catch, mbind, M_bind, bind, lift. rewrite E1, E2, E5.
    destruct (field feat "from_obj_id") as [[|?|k3|??]| |]; try discriminate.
    destruct (field feat "to_obj_id") as [[|?|k4|??]| |]; try discriminate.
    reflexivity.
Qed.

Lemma addEdges_loop_spec feats : forall s G,
  graph s = Some G ->
  exists G',
    addEdges_loop feats s = (Ok tt, set_graph (Some G') s)
    /\ (forall x y, Nx.has_edge G x y -> Nx.has_edge G' x y)
    /\ (forall feat p1 p2,
          feat ∈ feats ->
          is_Ok (field feat "obj_id") ->
          is_Ok (field feat "type") ->
          is_Ok (field feat "length_calc") ->
          endpoint (vertexIds s) feat "from_obj_id" = Some p1 ->
          endpoint (vertexIds s) feat "to_obj_id" = Some p2 ->
          Nx.has_edge G' p1 p2).
Proof.
  induction feats as [|feat rest IH]; intros s G Hg.
  - exists G. split; [|split; [done|]].
    + destruct s; simpl in *; by subst.
    + intros feat p1 p2 Hin. by apply elem_of_nil in Hin.
  - destruct (addEdge_total feat s G Hg) as (G1 & Hstep & Hmono1).
    destruct (IH (set_graph (Some G1) s) G1 eq_refl) as (G' & Hloop & Hmono & Hall).
    exists G'. split; [|split].
    + simpl. unfold mbind, M_bind, bind. rewrite Hstep, Hloop. reflexivity.
    + auto.
    + intros f p1 p2 Hin [v1 E1] [v2 E2] [v5 E5] H3 H4.
      apply elem_of_cons in Hin as [->|Hin].
      * apply Hmono.
        rewrite (addEdge_resolved _ _ _ _ _ _ _ _ Hg E1 E2 E5 H3 H4) in Hstep.
        injection Hstep as <-. apply NxFacts.add_edge_has_edge.
      * apply (Hall f); eauto; by eexists.
Qed.

(** *** The graph of the manager is well formed *)

Ltac run_monad :=
  unfold mbind, M_bind, bind, catch, lift, read, modify, deref, ret, raise;
  cbn -[Nx.add_node Nx.add_edge createGraph addVertices_loop addEdges_loop
        Nx.dijkstra_path Nx.bellman_ford_predecessor_and_distance].

Lemma graph_wf_frame s s' : graph s' = graph s -> graph_wf s -> graph_wf s'.
Proof. unfold graph_wf. intros ->. done. Qed.

Lemma addVertex_wf vertex feat s :
  graph_wf s -> graph_wf (addVertex vertex feat s).2.
Proof.
  intros H. unfold addVertex. run_monad.
  repeat case_match; simplify_eq/=; try done.
  all: intros G' [= <-]; apply NxFacts.wf_add_node; by apply H.
Qed.

Lemma addVertices_loop_wf feats : forall vertex s,
  graph_wf s -> graph_wf (addVertices_loop feats vertex s).2.
Proof.
  induction feats as [|feat rest IH]; intros vertex s H; [done|].
  cbn [addVertices_loop]. unfold mbind, M_bind, bind.
  pose proof (addVertex_wf vertex feat s H) as H1.
  destruct (addVertex vertex feat s) as [[v'| |] s1]; simpl in *; [|done|done].
  by apply IH.
Qed.

Lemma addEdge_wf feat s : graph_wf s -> graph_wf (addEdge feat s).2.
Proof.
  intros H. destruct (graph s) as [G|] eqn:Hg.
  - destruct (addEdge_total feat s G Hg) as (G' & Hstep & _).
    destruct (endpoint (vertexIds s) feat "from_obj_id") as [p1|] eqn:H3;
      [|rewrite addEdge_unresolved by (by left); done].
    destruct (endpoint (vertexIds s) feat "to_obj_id") as [p2|] eqn:H4;
      [|rewrite addEdge_unresolved by (by right); done].
    destruct (field_cases feat "obj_id") as [[v1 E1]|E1];
      [|unfold addEdge, catch, mbind, M_bind, bind, lift; by rewrite E1].
    destruct (field_cases feat "type") as [[v2 E2]|E2];
      [|unfold addEdge, catch, mbind, M_bind, bind, lift; by rewrite E1, E2].
    destruct (field_cases feat "length_calc") as [[v5 E5]|E5].
    + rewrite (addEdge_resolved _ _ _ _ _ _ _ _ Hg E1 E2 E5 H3 H4). simpl.
      intros G0 [= <-]. apply NxFacts.wf_add_edge. by apply H.
    + revert H3 H4. unfold endpoint.
      unfold addEdge, catch, mbind, M_bind, bind, lift. rewrite E1, E2, E5.
      destruct (field feat "from_obj_id") as [[|?|k3|??]| |]; try discriminate.
      destruct (field feat "to_obj_id") as [[|?|k4|??]| |]; try discriminate.
      done.
  - eapply graph_wf_frame; [|exact H].
    unfold addEdge, vertexId. run_monad.
    repeat case_match; simplify_eq/=; try done; congruence.
Qed.

Lemma addEdges_loop_wf feats : forall s,
  graph_wf s -> graph_wf (addEdges_loop feats s).2.
Proof.
  induction feats as [|feat rest IH]; intros s H; [done|].
  cbn [addEdges_loop]. unfold mbind, M_bind, bind.
  pose proof (addEdge_wf feat s H) as H1.
  destruct (addEdge feat s) as [[[]| |] s1]; simpl in *; [|done|done].
  by apply IH.
Qed.

Lemma profile_wf name s : graph_wf s -> graph_wf (_profile name s).2.
Proof. done. Qed.

Lemma addVertices_wf s : graph_wf s -> graph_wf (_addVertices s).2.
Proof.
  intros H. unfold _addVertices. run_monad.
  destruct (nodeLayer s) as [l|]; [|done]. cbn -[addVertices_loop].
  pose proof (addVertices_loop_wf (features l) None s H) as H1.
  destruct (addVertices_loop (features l) None s) as [[[]| |] s1]; done.
Qed.

Lemma addEdges_wf s : graph_wf s -> graph_wf (_addEdges s).2.
Proof.
  intros H. unfold _addEdges. run_monad.
  destruct (reachLayer s) as [l|]; [|done]. cbn -[addEdges_loop].
  pose proof (addEdges_loop_wf (features l) s H) as H1.
  destruct (addEdges_loop (features l) s) as [[[]| |] s1]; done.
Qed.

(** Whatever graph was there before, [createGraph] leaves a well-formed
    one. *)
Lemma createGraph_wf s : graph_wf (createGraph s).2.
Proof.
  unfold createGraph, print_profile, _profile.
  unfold mbind, M_bind, bind, modify, ret. cbv beta iota.
  match goal with
  | |- context [_addVertices ?s0] =>
      assert (H0 : graph_wf s0) by (intros G [= <-]; apply NxFacts.wf_empty);
      pose proof (addVertices_wf s0 H0) as H1;
      destruct (_addVertices s0) as [[[]| |] s1]; [|done|done]
  end.
  pose proof (addEdges_wf s1 H1) as H2.
  destruct (_addEdges s1) as [[[]| |] s2]; done.
Qed.

(** No method breaks the invariant of the graph. *)
Lemma exec_graph_wf o s : graph_wf s -> graph_wf (exec o s).
Proof.
  intros H. destruct o as [l|l| | | |name| | | | | |a b|n r| ]; simpl; try done.
  - unfold setReachLayer. run_monad. case_match; [apply createGraph_wf | done].
  - unfold setNodeLayer. run_monad. case_match; [apply createGraph_wf | done].
  - by apply addVertices_wf.
  - by apply addEdges_wf.
  - unfold refresh. run_monad.
    destruct (nodeLayer s); [|done]. destruct (graph s); [|done].
    apply createGraph_wf.
  - apply createGraph_wf.
  - unfold shortestPath. run_monad. destruct (dirty s); [|done].
    pose proof (createGraph_wf s) as H1.
    destruct (createGraph s) as [[[]| |] s1]; done.
  - unfold getTree. run_monad. destruct (dirty s); [|done].
    pose proof (createGraph_wf s) as H1.
    destruct (createGraph s) as [[[]| |] s1]; done.
Qed.

(** *** Every method ends

    No method's outcome is [OutOfFuel]: the fuel of the library's loops is
    never used up, and a call returns or raises. *)

Lemma shortestPath_on_ends g a b : shortestPath_on g a b <> OutOfFuel.
Proof.
  unfold shortestPath_on.
  assert (Hpath : match g with
                  | Some G => Nx.dijkstra_path G a b
                  | None => if decide (b = a) then Ok [b] else Raise AttributeError
                  end <> OutOfFuel).
  { destruct g; [apply NxFacts.dijkstra_path_ends | by case_decide]. }
  destruct (match g with Some G => _ | None => _ end) as [path| |];
    cbn [mbind outcome_bind obind try_except]; [|by case_decide|done].
  match goal with
  | |- context [comprehension ?f ?l] =>
      assert (Hc : comprehension f l <> OutOfFuel);
      [|destruct (comprehension f l); cbn; [done|by case_decide|done]]
  end.
  apply NxFacts.comprehension_ends. intros [u v].
  destruct g as [G|]; cbn [mbind outcome_bind obind]; [|done].
  pose proof (NxFacts.edge_data_ends G u v). by destruct (Nx.edge_data G u v).
Qed.

(** [getTree] does not get past its first comprehension: the search raises,
    or it returns predecessors, the first of which is looked up in the
    graph as a list. *)
Lemma getTree_on_raises g n r :
  (exists e, getTree_on g n r = Raise e)
  /\ (forall G, g = Some G ->
       is_Ok (Nx.bellman_ford_predecessor_and_distance
                (if r then Nx.reverse G else G) n) ->
       getTree_on g n r = Raise TypeError).
Proof.
  unfold getTree_on. destruct g as [G|]; cbn [mbind outcome_bind obind];
    [|split; [by eexists|done]].
  set (my_graph := if r then Nx.reverse G else G).
  pose proof (NxFacts.bellman_ford_ends my_graph n) as Hends.
  pose proof (NxFacts.bellman_ford_pred my_graph n) as Hpred.
  destruct (Nx.bellman_ford_predecessor_and_distance my_graph n)
    as [[pred ds]| |] eqn:Hbf; cbn [mbind outcome_bind obind fst]; [| |done].
  - specialize (Hpred pred ds eq_refl).
    destruct pred as [|[u v] pred]; [done|].
    unfold Nx.adj_of_list. cbn [comprehension mbind outcome_bind obind].
    split; [by eexists|]. by intros G' [= <-] _.
  - split; [by eexists|]. intros G' [= <-] [x Hx].
    unfold my_graph in Hbf. congruence.
Qed.

Lemma getTree_on_ends g n r : getTree_on g n r <> OutOfFuel.
Proof. destruct (getTree_on_raises g n r) as [[e ->] _]. done. Qed.

Lemma ends_bind {A B} (m : M A) (k : A -> M B) :
  ends m -> (forall a, ends (k a)) -> ends (m ≫= k).
Proof.
  intros Hm Hk s. unfold mbind, M_bind, bind. specialize (Hm s).
  destruct (m s) as [[a|e|] s1]; [apply Hk|done|done].
Qed.

Lemma ends_catch {A} (m h : M A) e : ends m -> ends h -> ends (catch m e h).
Proof.
  intros Hm Hh s. unfold catch. specialize (Hm s).
  destruct (m s) as [[a|e'|] s1]; [done| |done].
  case_decide; [apply Hh | done].
Qed.

Lemma ends_lift {A} (o : outcome A) : o <> OutOfFuel -> ends (lift o).
Proof. intros H s. done. Qed.

Lemma ends_field feat name : ends (lift (field feat name)).
Proof.
  apply ends_lift. unfold field. by destruct (PyDict.get name (attributes feat)).
Qed.

Lemma ends_deref {A} (o : option A) : ends (deref o).
Proof. by destruct o. Qed.

Lemma ends_addVertex vertex feat : ends (addVertex vertex feat).
Proof.
  unfold addVertex.
  repeat first
    [ apply ends_field
    | apply ends_deref
    | apply ends_bind; [|intros ?]
    | apply ends_catch
    | done ].
  - apply ends_lift. unfold geometry_asPoint. by destruct (asPoint feat).
  - by destruct a1 as [[??]|].
Qed.

Lemma ends_addVertices_loop feats : forall vertex, ends (addVertices_loop feats vertex).
Proof.
  induction feats as [|feat rest IH]; intros vertex; [done|].
  cbn [addVertices_loop]. apply ends_bind; [apply ends_addVertex | done].
Qed.

Lemma ends_vertexId k : ends (vertexId k).
Proof.
  intros s. rewrite vertexId_eq. destruct k as [|?|x|??]; try done.
  simpl. by destruct (vertexIds s !! x).
Qed.

Lemma ends_addEdge feat : ends (addEdge feat).
Proof.
  unfold addEdge.
  repeat first
    [ apply ends_field
    | apply ends_deref
    | apply ends_vertexId
    | apply ends_bind; [|intros ?]
    | apply ends_catch
    | done ].
Qed.

Lemma ends_addEdges_loop feats : ends (addEdges_loop feats).
Proof.
  induction feats as [|feat rest IH]; [done|].
  cbn [addEdges_loop]. apply ends_bind; [apply ends_addEdge | done].
Qed.

Lemma ends_createGraph : ends createGraph.
Proof.
  unfold createGraph, _addVertices, _addEdges, _profile, print_profile.
  repeat first
    [ apply ends_deref
    | apply ends_addVertices_loop
    | apply ends_addEdges_loop
    | apply ends_bind; [|intros ?]
    | done ].
Qed.

(** The two queries end, whatever the state of the manager. *)
Lemma queries_end s a b n r :
  (shortestPath a b s).1 <> OutOfFuel /\ (getTree n r s).1 <> OutOfFuel.
Proof.
  split.
  - unfold shortestPath.
    repeat first [ apply ends_bind; [|intros ?] | done ].
    + destruct a0; [apply ends_createGraph | done].
    + apply ends_lift, shortestPath_on_ends.
  - unfold getTree.
    repeat first [ apply ends_bind; [|intros ?] | done ].
    + destruct a0; [apply ends_createGraph | done].
    + apply ends_lift, getTree_on_ends.
Qed.

Lemma initial_graph_wf : graph_wf initial.
Proof. intros G. discriminate. Qed.

(** Along a walk every pair of consecutive nodes has its edge, so that
    looking the edges up does not raise. *)
Lemma walk_edges_Ok G p :
  Nx.walk G p ->
  exists es,
    comprehension (fun '(u, v) => d ← Nx.edge_data G u v; Ok (u, v, d))
      (zip_next p)
    = Ok es.
Proof.
  induction p as [|u [|v p] IH]; intros Hwk; [by eexists|by eexists|].
  destruct Hwk as [[d Hd] Hwk]. destruct (IH Hwk) as [es Hes].
  exists ((u, v, d) :: es). cbn [comprehension zip_next].
  rewrite Hd. cbn [mbind outcome_bind obind].
  cbn [zip_next] in Hes. rewrite Hes. reflexivity.
Qed.

(** *** What a method leaves alone

    [preserves P] is closed under the ways methods are put together, for
    any relation on states that is reflexive and transitive. *)

Section Preserves.
Context (P : t -> t -> Prop) `{!PreOrder P}.

Lemma preserves_ret {A} (a : A) : preserves P (ret a).
Proof. intros s. simpl. reflexivity. Qed.

Lemma preserves_raise {A} e : preserves P (@raise A e).
Proof. intros s. simpl. reflexivity. Qed.

Lemma preserves_lift {A} (o : outcome A) : preserves P (lift o).
Proof. intros s. simpl. reflexivity. Qed.

Lemma preserves_read {A} (f : t -> A) : preserves P (read f).
Proof. intros s. simpl. reflexivity. Qed.

Lemma preserves_deref {A} (o : option A) : preserves P (deref o).
Proof. intros s. destruct o; simpl; reflexivity. Qed.

Lemma preserves_bind {A B} (m : M A) (k : A -> M B) :
  preserves P m -> (forall a, preserves P (k a)) -> preserves P (bind m k).
Proof.
  intros Hm Hk s. unfold bind. specialize (Hm s).
  destruct (m s) as [[a| |] s1]; simpl in *; [|done|done].
  etrans; [exact Hm | apply Hk].
Qed.

Lemma preserves_catch {A} (m h : M A) e :
  preserves P m -> preserves P h -> preserves P (catch m e h).
Proof.
  intros Hm Hh s. unfold catch. specialize (Hm s).
  destruct (m s) as [[a|e'|] s1]; simpl in *; [done| |done].
  case_decide; [|done]. etrans; [exact Hm | apply Hh].
Qed.

Lemma preserves_modify (f : t -> t) :
  (forall s, P s (f s)) -> preserves P (modify f).
Proof. intros Hf s. apply Hf. Qed.

Lemma preserves_if {A} (b : bool) (m1 m2 : M A) :
  preserves P m1 -> preserves P m2 -> preserves P (if b then m1 else m2).
Proof. by destruct b. Qed.

End Preserves.

Ltac papply l := apply l; try exact _.

Ltac preserves_step :=
  lazymatch goal with
  | |- preserves _ (ret _) => papply preserves_ret
  | |- preserves _ (raise _) => papply preserves_raise
  | |- preserves _ (lift _) => papply preserves_lift
  | |- preserves _ (read _) => papply preserves_read
  | |- preserves _ (deref _) => papply preserves_deref
  | |- preserves _ (bind _ _) => papply preserves_bind; [|intros ?]
  | |- preserves _ (catch _ _ _) => papply preserves_catch
  | |- preserves _ (modify _) => papply preserves_modify; intros ?; cbv beta
  | |- preserves _ (if _ then _ else _) => papply preserves_if
  | |- preserves _ (match ?x with _ => _ end) => destruct x
  end.

Ltac preserves_auto := repeat (preserves_step; try assumption).

#[export] Instance same_layers_preorder : PreOrder same_layers.
Proof.
  split.
  - intros s. by repeat split.
  - intros s1 s2 s3 (? & ? & ? & ?) (? & ? & ? & ?).
    repeat split; congruence.
Qed.

#[export] Instance timings_grow_preorder : PreOrder timings_grow.
Proof.
  split.
  - intros s. unfold timings_grow. reflexivity.
  - intros s1 s2 s3 H1 H2. unfold timings_grow in *. by etrans.
Qed.

Section PreservesBuild.
Context (P : t -> t -> Prop) `{!PreOrder P}.
Hypothesis P_graph : forall g s, P s (set_graph g s).
Hypothesis P_vertexIds : forall m s, P s (set_vertexIds m s).
Hypothesis P_nodesOnStructure : forall m s, P s (set_nodesOnStructure m s).
Hypothesis P_dirty : forall b s, P s (set_dirty b s).
Hypothesis P_timings : forall name s, P s (set_timings (timings s ++ [name]) s).

Lemma preserves_profile name : preserves P (_profile name).
Proof. intros s. apply P_timings. Qed.

Lemma preserves_addVertex vertex feat : preserves P (addVertex vertex feat).
Proof.
  unfold addVertex, mbind, M_bind, mret, M_ret. preserves_auto; try done.
Qed.

Lemma preserves_addVertices_loop feats :
  forall vertex, preserves P (addVertices_loop feats vertex).
Proof.
  induction feats as [|feat rest IH]; intros vertex; cbn [addVertices_loop].
  - by papply preserves_ret.
  - papply preserves_bind; [papply preserves_addVertex | intros v; apply IH].
Qed.

Lemma preserves_addVertices : preserves P _addVertices.
Proof.
  unfold _addVertices, mbind, M_bind.
  preserves_auto; try done;
    [papply preserves_addVertices_loop | papply preserves_profile].
Qed.

Lemma preserves_vertexId k : preserves P (vertexId k).
Proof. unfold vertexId, mbind, M_bind. preserves_auto; done. Qed.

Lemma preserves_addEdge feat : preserves P (addEdge feat).
Proof.
  unfold addEdge, mbind, M_bind.
  preserves_auto; try done; papply preserves_vertexId.
Qed.

Lemma preserves_addEdges_loop feats : preserves P (addEdges_loop feats).
Proof.
  induction feats as [|feat rest IH]; cbn [addEdges_loop].
  - by papply preserves_ret.
  - papply preserves_bind; [papply preserves_addEdge | intros _; apply IH].
Qed.

Lemma preserves_addEdges : preserves P _addEdges.
Proof.
  unfold _addEdges, mbind, M_bind.
  preserves_auto; try done;
    [papply preserves_addEdges_loop | papply preserves_profile].
Qed.

Lemma preserves_createGraph : preserves P createGraph.
Proof.
  unfold createGraph, print_profile, mbind, M_bind.
  preserves_auto; try done.
  all: lazymatch goal with
       | |- preserves _ (_profile _) => papply preserves_profile
       | |- preserves _ _addVertices => papply preserves_addVertices
       | |- preserves _ _addEdges => papply preserves_addEdges
       end.
Qed.

Lemma preserves_refresh : preserves P refresh.
Proof.
  unfold refresh, mbind, M_bind.
  preserves_auto; try done; papply preserves_createGraph.
Qed.

Lemma preserves_shortestPath a b : preserves P (shortestPath a b).
Proof.
  unfold shortestPath, mbind, M_bind.
  preserves_auto; try done; papply preserves_createGraph.
Qed.

Lemma preserves_getTree n r : preserves P (getTree n r).
Proof.
  unfold getTree, mbind, M_bind.
  preserves_auto; try done; papply preserves_createGraph.
Qed.

End PreservesBuild.

(** *** What a build puts into the graph and the index *)

(** The body of the loop of [_addVertices] either writes the node and the
    index entry of its record, or raises and changes nothing. *)
Lemma addVertex_cases vertex feat s :
  (exists G obj_id obj_type x y,
     graph s = Some G
     /\ field feat "obj_id" = Ok obj_id
     /\ field feat "type" = Ok obj_type
     /\ (asPoint feat = inl (x, y)
         \/ (asPoint feat = inr AttributeError /\ vertex = Some (x, y)))
     /\ addVertex vertex feat s =
        (Ok (Some (x, y)),
         set_vertexIds (<[str obj_id := fid feat]> (vertexIds s))
           (set_graph (Some (Nx.add_node (fid feat)
              [("point", VPoint x y); ("objType", obj_type); ("objId", obj_id)]
              G)) s)))
  \/ (exists e, addVertex vertex feat s = (Raise e, s)).
Proof.
  unfold addVertex, geometry_asPoint. run_monad.
  destruct (field_cases feat "obj_id") as [[oid E1]|E1]; rewrite E1;
    [|right; eauto].
  destruct (field_cases feat "type") as [[ty E2]|E2]; rewrite E2;
    [|right; eauto].
  destruct (asPoint feat) as [[x y]|e] eqn:Hp.
  - destruct (graph s) as [G|] eqn:Hg; [|right; eauto].
    left. exists G, oid, ty, x, y. eauto 10.
  - case_decide as He; [|right; eauto]. subst e.
    destruct (graph s) as [G|] eqn:Hg; [|right; eauto].
    destruct vertex as [[x y]|]; [|right; eauto].
    left. exists G, oid, ty, x, y. eauto 10.
Qed.

Lemma addVertices_loop_cons feat rest vertex s s' :
  addVertices_loop (feat :: rest) vertex s = (Ok tt, s') ->
  exists G obj_id obj_type x y,
    graph s = Some G
    /\ field feat "obj_id" = Ok obj_id
    /\ field feat "type" = Ok obj_type
    /\ (asPoint feat = inl (x, y)
        \/ (asPoint feat = inr AttributeError /\ vertex = Some (x, y)))
    /\ addVertices_loop rest (Some (x, y))
         (set_vertexIds (<[str obj_id := fid feat]> (vertexIds s))
            (set_graph (Some (Nx.add_node (fid feat)
               [("point", VPoint x y); ("objType", obj_type); ("objId", obj_id)]
               G)) s))
       = (Ok tt, s').
Proof.
  cbn [addVertices_loop]. unfold mbind, M_bind, bind.
  destruct (addVertex_cases vertex feat s)
    as [(G & oid & ty & x & y & Hg & E1 & E2 & Hp & ->)|[e ->]]; [|done].
  intros Hrest. exists G, oid, ty, x, y. eauto 10.
Qed.

(** The nodes after the loop of [_addVertices] are those from before and
    the feature ids of the records; no edge is added. *)
Lemma addVertices_loop_nodes feats : forall vertex s s' G,
  graph s = Some G ->
  addVertices_loop feats vertex s = (Ok tt, s') ->
  exists G',
    graph s' = Some G'
    /\ (forall n, Nx.has_node n G' = true <->
                  Nx.has_node n G = true \/ n ∈ fid <$> feats)
    /\ (forall x y, Nx.edge_data G' x y = Nx.edge_data G x y).
Proof.
  induction feats as [|feat rest IH]; intros vertex s s' G Hg Hrun.
  - injection Hrun as <-. exists G. split; [done|]. split; [|done].
    intros n. rewrite elem_of_nil. tauto.
  - apply addVertices_loop_cons in Hrun
      as (G0 & oid & ty & x & y & Hg0 & _ & _ & _ & Hrest).
    rewrite Hg in Hg0. injection Hg0 as <-.
    eapply IH in Hrest as (G' & Hg' & Hn & He); [|reflexivity].
    exists G'. split; [done|]. split.
    + intros n. rewrite Hn, NxFacts.has_node_add_node. csimpl.
      rewrite elem_of_cons. tauto.
    + intros a b. by rewrite He, NxFacts.edge_data_add_node.
Qed.

(** An entry of the index after the loop was there before or comes from a
    record: its key is the text of the record's object id, its value the
    record's feature id. *)
Lemma addVertices_loop_index feats : forall vertex s s' k n,
  addVertices_loop feats vertex s = (Ok tt, s') ->
  vertexIds s' !! k = Some n ->
  vertexIds s !! k = Some n
  \/ exists feat obj_id,
       feat ∈ feats /\ field feat "obj_id" = Ok obj_id
       /\ str obj_id = k /\ fid feat = n.
Proof.
  induction feats as [|feat rest IH]; intros vertex s s' k n Hrun Hk.
  - injection Hrun as <-. by left.
  - apply addVertices_loop_cons in Hrun
      as (G0 & oid & ty & x & y & Hg0 & E1 & _ & _ & Hrest).
    destruct (IH _ _ _ _ _ Hrest Hk) as [Hold|(f & o & Hin & Hf & Hs & Hn)].
    + simpl in Hold. apply lookup_insert_Some in Hold as [[<- <-]|[_ Hold]].
      * right. exists feat, oid. split; [left|done].
      * by left.
    + right. exists f, o. split; [by right | done].
Qed.

(** The last record with an object id decides the entry of the index. *)
Lemma addVertices_loop_index_last feats : forall vertex s s' l1 feat l2 obj_id,
  addVertices_loop feats vertex s = (Ok tt, s') ->
  feats = l1 ++ feat :: l2 ->
  field feat "obj_id" = Ok obj_id ->
  (forall f o, f ∈ l2 -> field f "obj_id" = Ok o -> str o <> str obj_id) ->
  vertexIds s' !! str obj_id = Some (fid feat).
Proof.
  induction feats as [|f0 rest IH];
    intros vertex s s' l1 feat l2 oid Hrun Hsplit Hoid Hlast.
  - by destruct l1.
  - apply addVertices_loop_cons in Hrun
      as (G0 & oid0 & ty & x & y & Hg0 & E1 & _ & _ & Hrest).
    destruct l1 as [|f1 l1]; simplify_eq/=.
    + rewrite E1 in Hoid. injection Hoid as ->.
      destruct (vertexIds s' !! str oid) as [n|] eqn:Hk.
      * destruct (addVertices_loop_index _ _ _ _ _ _ Hrest Hk)
          as [Hold|(f & o & Hin & Hf & Hs & Hn)].
        -- simpl in Hold. rewrite lookup_insert_eq in Hold. congruence.
        -- by destruct (Hlast f o Hin Hf).
      * exfalso. clear IH Hlast.
        assert (Hkeep : forall feats vertex s s' k,
                  addVertices_loop feats vertex s = (Ok tt, s') ->
                  is_Some (vertexIds s !! k) -> is_Some (vertexIds s' !! k)).
        { clear. induction feats as [|f rest IH]; intros vertex s s' k Hrun Hk.
          - by injection Hrun as <-.
          - apply addVertices_loop_cons in Hrun
              as (G0 & oid0 & ty & x & y & Hg0 & E1 & _ & _ & Hrest).
            eapply IH; [exact Hrest|]. simpl.
            rewrite lookup_insert_is_Some. destruct (decide (str oid0 = k)); auto. }
        eapply (Hkeep _ _ _ _ (str oid)) in Hrest.
        -- rewrite Hk in Hrest. by destruct Hrest.
        -- simpl. rewrite lookup_insert_eq. eauto.
    + by eapply IH.
Qed.

(** Writing the three attributes of a node over the same three, or over
    none, leaves just the three written. *)
Lemma update_node_keys (d : Nx.attrs) p o i :
  d = [] \/ PyDict.keys d = node_keys ->
  PyDict.update d [("point", p); ("objType", o); ("objId", i)]
  = [("point", p); ("objType", o); ("objId", i)].
Proof.
  intros [->|Hk]; [reflexivity|].
  destruct d as [|[k1 v1] [|[k2 v2] [|[k3 v3] [|? ?]]]]; try discriminate.
  injection Hk as -> -> ->. reflexivity.
Qed.

Lemma update_edge_keys (d a : Nx.attrs) :
  PyDict.keys a = edge_keys ->
  d = [] \/ PyDict.keys d = edge_keys ->
  PyDict.update d a = a.
Proof.
  intros Ha Hd.
  destruct a as [|[a1 b1] [|[a2 b2] [|[a3 b3] [|[a4 b4] [|? ?]]]]];
    try discriminate.
  injection Ha as -> -> -> ->.
  destruct Hd as [->|Hk]; [reflexivity|].
  destruct d as [|[k1 v1] [|[k2 v2] [|[k3 v3] [|[k4 v4] [|? ?]]]]];
    try discriminate.
  injection Hk as -> -> -> ->. reflexivity.
Qed.

Lemma nodes_described_empty : nodes_described Nx.empty.
Proof. intros n a H. discriminate. Qed.

Lemma edges_described_empty : edges_described Nx.empty.
Proof. intros u v a H. discriminate. Qed.

Lemma node_described_cases G n :
  nodes_described G ->
  match Nx.node G n with Ok d => d | _ => [] end = []
  \/ PyDict.keys (match Nx.node G n with Ok d => d | _ => [] end) = node_keys.
Proof.
  intros HG. destruct (Nx.node G n) as [d| |] eqn:Hn; [|by left|by left].
  right. by eapply HG.
Qed.

Lemma nodes_described_add_node G n p o i :
  nodes_described G ->
  nodes_described
    (Nx.add_node n [("point", p); ("objType", o); ("objId", i)] G).
Proof.
  intros HG x a. rewrite NxFacts.node_add_node. case_decide.
  - rewrite update_node_keys by by apply node_described_cases.
    by intros [= <-].
  - apply HG.
Qed.

Lemma edges_described_add_node G n a :
  edges_described G -> edges_described (Nx.add_node n a G).
Proof. intros HG u v d. rewrite NxFacts.edge_data_add_node. apply HG. Qed.

Lemma edge_described_cases G u v :
  edges_described G ->
  match Nx.edge_data G u v with Ok d => d | _ => [] end = []
  \/ PyDict.keys (match Nx.edge_data G u v with Ok d => d | _ => [] end)
     = edge_keys.
Proof.
  intros HG. destruct (Nx.edge_data G u v) as [d| |] eqn:Hn; [|by left|by left].
  right. by eapply HG.
Qed.

Lemma edges_described_add_edge G u v a :
  edges_described G -> PyDict.keys a = edge_keys ->
  edges_described (Nx.add_edge u v a G).
Proof.
  intros HG Ha x y d. rewrite NxFacts.edge_data_add_edge_eq. case_decide.
  - rewrite update_edge_keys by (done || by apply edge_described_cases).
    by intros [= <-].
  - apply HG.
Qed.

Lemma nodes_described_add_edge G u v a :
  Nx.has_node u G = true -> Nx.has_node v G = true ->
  nodes_described G -> nodes_described (Nx.add_edge u v a G).
Proof.
  intros Hu Hv HG x d. rewrite NxFacts.node_add_edge by done. apply HG.
Qed.

(** The loop of [_addVertices] leaves the nodes of other feature ids as
    they were. *)
Lemma addVertices_loop_node_other feats : forall vertex s s' G G' n,
  graph s = Some G ->
  addVertices_loop feats vertex s = (Ok tt, s') ->
  graph s' = Some G' ->
  n ∉ fid <$> feats ->
  Nx.node G' n = Nx.node G n.
Proof.
  induction feats as [|feat rest IH]; intros vertex s s' G G' n Hg Hrun Hg' Hn.
  - injection Hrun as <-. congruence.
  - apply addVertices_loop_cons in Hrun
      as (G0 & oid & ty & x & y & Hg0 & _ & _ & _ & Hrest).
    rewrite Hg in Hg0. injection Hg0 as <-.
    csimpl in Hn. apply not_elem_of_cons in Hn as [Hne Hn].
    erewrite (IH _ _ _ _ _ _ _ Hrest Hg' Hn).
    rewrite NxFacts.node_add_node. by rewrite decide_False.
  Unshelve. reflexivity.
Qed.

Lemma addVertices_loop_described feats : forall vertex s s' G G',
  graph s = Some G ->
  addVertices_loop feats vertex s = (Ok tt, s') ->
  graph s' = Some G' ->
  nodes_described G -> nodes_described G'.
Proof.
  induction feats as [|feat rest IH]; intros vertex s s' G G' Hg Hrun Hg' HG.
  - injection Hrun as <-. rewrite Hg in Hg'. by injection Hg' as <-.
  - apply addVertices_loop_cons in Hrun
      as (G0 & oid & ty & x & y & Hg0 & _ & _ & _ & Hrest).
    rewrite Hg in Hg0. injection Hg0 as <-.
    eapply IH; [|exact Hrest|exact Hg'|]; [reflexivity|].
    by apply nodes_described_add_node.
Qed.

(** The last record with a feature id decides the attributes of the node:
    the record's type and object id, and its point when it has one. *)
Lemma addVertices_loop_node_last feats : forall vertex s s' G G' l1 feat l2,
  graph s = Some G ->
  nodes_described G ->
  addVertices_loop feats vertex s = (Ok tt, s') ->
  graph s' = Some G' ->
  feats = l1 ++ feat :: l2 ->
  fid feat ∉ fid <$> l2 ->
  exists x y obj_id obj_type,
    field feat "obj_id" = Ok obj_id
    /\ field feat "type" = Ok obj_type
    /\ (forall p, asPoint feat = inl p -> p = (x, y))
    /\ Nx.node G' (fid feat)
       = Ok [("point", VPoint x y); ("objType", obj_type); ("objId", obj_id)].
Proof.
  induction feats as [|f0 rest IH];
    intros vertex s s' G G' l1 feat l2 Hg HG Hrun Hg' Hsplit Hlast.
  - by destruct l1.
  - apply addVertices_loop_cons in Hrun
      as (G0 & oid & ty & x & y & Hg0 & E1 & E2 & Hp & Hrest).
    rewrite Hg in Hg0. injection Hg0 as <-.
    destruct l1 as [|f1 l1]; simplify_eq/=.
    + exists x, y, oid, ty. split; [done|]. split; [done|]. split.
      * intros p Hp'. destruct Hp as [Hp|[Hp _]]; congruence.
      * assert (Hsame : Nx.node G' (fid feat) =
                  Nx.node (Nx.add_node (fid feat)
                    [("point", VPoint x y); ("objType", ty); ("objId", oid)] G)
                    (fid feat)).
        { eapply addVertices_loop_node_other;
            [|exact Hrest|exact Hg'|exact Hlast]. reflexivity. }
        rewrite Hsame, NxFacts.node_add_node, decide_True by done.
        by rewrite update_node_keys by by apply node_described_cases.
    + eapply IH; [| |exact Hrest|exact Hg'|reflexivity|exact Hlast];
        [reflexivity|]. by apply nodes_described_add_node.
Qed.

(** The body of the loop of [_addEdges] writes the edge of its record, if
    the record stands for one, and never raises. *)
Lemma addEdge_eq feat s G :
  graph s = Some G ->
  addEdge feat s =
    (Ok tt,
     match reach_edge (vertexIds s) feat with
     | Some (u, v, a) => set_graph (Some (Nx.add_edge u v a G)) s
     | None => s
     end).
Proof.
  intros Hg. unfold reach_edge.
  destruct (endpoint (vertexIds s) feat "from_obj_id") as [p1|] eqn:H3; cycle 1.
  { rewrite addEdge_unresolved by (by left). by repeat case_match. }
  destruct (endpoint (vertexIds s) feat "to_obj_id") as [p2|] eqn:H4; cycle 1.
  { rewrite addEdge_unresolved by (by right). by repeat case_match. }
  destruct (field_cases feat "obj_id") as [[v1 E1]|E1]; rewrite E1; cycle 1.
  { unfold addEdge, catch, mbind, M_bind, bind, lift. by rewrite E1. }
  destruct (field_cases feat "type") as [[v2 E2]|E2]; rewrite E2; cycle 1.
  { unfold addEdge, catch, mbind, M_bind, bind, lift. by rewrite E1, E2. }
  destruct (field_cases feat "length_calc") as [[v5 E5]|E5]; rewrite E5.
  - by eapply addEdge_resolved.
  - revert H3 H4. unfold endpoint.
    unfold addEdge, catch, mbind, M_bind, bind, lift. rewrite E1, E2, E5.
    destruct (field feat "from_obj_id") as [[|?|k3|??]| |]; try discriminate.
    destruct (field feat "to_obj_id") as [[|?|k4|??]| |]; try discriminate.
    reflexivity.
Qed.

Lemma set_graph_same s G : graph s = Some G -> set_graph (Some G) s = s.
Proof. intros H. destruct s; simpl in *; by subst. Qed.

(** The loop of [_addEdges] adds, in the order of the records, the edges
    the records stand for under the index. *)
Lemma addEdges_loop_eq feats : forall s G,
  graph s = Some G ->
  addEdges_loop feats s =
    (Ok tt,
     set_graph
       (Some (foldl (fun H '(u, v, a) => Nx.add_edge u v a H) G
                (omap (reach_edge (vertexIds s)) feats))) s).
Proof.
  induction feats as [|feat rest IH]; intros s G Hg.
  - simpl. by rewrite set_graph_same.
  - cbn [addEdges_loop]. unfold mbind, M_bind, bind.
    rewrite (addEdge_eq _ _ _ Hg). csimpl.
    destruct (reach_edge (vertexIds s) feat) as [[[u v] a]|] eqn:He.
    + erewrite IH by reflexivity. reflexivity.
    + by rewrite (IH _ _ Hg).
Qed.

Lemma reach_edge_keys ids feat u v a :
  reach_edge ids feat = Some (u, v, a) -> PyDict.keys a = edge_keys.
Proof. unfold reach_edge. intros H. repeat case_match; by simplify_eq. Qed.

Lemma reach_edge_indexed ids feat u v a :
  reach_edge ids feat = Some (u, v, a) ->
  (exists k, ids !! k = Some u) /\ (exists k, ids !! k = Some v).
Proof.
  unfold reach_edge, endpoint. intros H.
  repeat case_match; simplify_eq; eauto.
Qed.

(** Adding edges between nodes of the graph keeps the nodes and their
    attributes. *)
Lemma add_edges_nodes (es : list (Z * Z * Nx.attrs)) : forall G,
  (forall u v a, (u, v, a) ∈ es ->
     Nx.has_node u G = true /\ Nx.has_node v G = true) ->
  forall x,
    Nx.has_node x (foldl (fun H '(u, v, a) => Nx.add_edge u v a H) G es)
    = Nx.has_node x G
    /\ Nx.node (foldl (fun H '(u, v, a) => Nx.add_edge u v a H) G es) x
      = Nx.node G x.
Proof.
  induction es as [|[[u v] a] es IH]; intros G Hes x; [done|]. simpl.
  destruct (Hes u v a) as [Hu Hv]; [left|].
  destruct (IH (Nx.add_edge u v a G)) with (x := x) as [-> ->].
  - intros u' v' a' Hin. rewrite !NxFacts.has_node_add_edge_present by done.
    apply (Hes u' v' a'). by right.
  - by rewrite NxFacts.has_node_add_edge_present, NxFacts.node_add_edge.
Qed.

(** The edges after adding a list of edges are those from before and
    those of the list. *)
Lemma add_edges_has_edge (es : list (Z * Z * Nx.attrs)) : forall G x y,
  Nx.has_edge (foldl (fun H '(u, v, a) => Nx.add_edge u v a H) G es) x y
  <-> Nx.has_edge G x y \/ exists a, (x, y, a) ∈ es.
Proof.
  induction es as [|[[u v] a] es IH]; intros G x y; simpl.
  - split; [by left|]. intros [?|[a Hin]]; [done|]. by apply elem_of_nil in Hin.
  - rewrite IH. unfold Nx.has_edge at 1.
    setoid_rewrite NxFacts.edge_data_add_edge_eq. split.
    + intros [[d Hd]|[d Hin]].
      * case_decide as Hxy.
        -- destruct Hxy as [-> ->]. right. exists a. left.
        -- left. by exists d.
      * right. exists d. by right.
    + intros [[d Hd]|[d Hin]].
      * left. case_decide; eauto.
      * apply elem_of_cons in Hin as [[= -> -> ->]|Hin].
        -- left. rewrite decide_True by done. eauto.
        -- right. eauto.
Qed.

Lemma add_edges_described (es : list (Z * Z * Nx.attrs)) : forall G,
  edges_described G ->
  (forall u v a, (u, v, a) ∈ es -> PyDict.keys a = edge_keys) ->
  edges_described (foldl (fun H '(u, v, a) => Nx.add_edge u v a H) G es).
Proof.
  induction es as [|[[u v] a] es IH]; intros G HG Hes; [done|]. simpl.
  apply IH.
  - apply edges_described_add_edge; [done|]. apply (Hes u v a). left.
  - intros u' v' a' Hin. apply (Hes u' v' a'). by right.
Qed.

Lemma add_edges_other (es : list (Z * Z * Nx.attrs)) : forall G x y,
  (forall a, (x, y, a) ∉ es) ->
  Nx.edge_data (foldl (fun H '(u, v, a) => Nx.add_edge u v a H) G es) x y
  = Nx.edge_data G x y.
Proof.
  induction es as [|[[u v] a] es IH]; intros G x y Hes; [done|]. simpl.
  rewrite IH by (intros a' Hin; apply (Hes a'); by right).
  rewrite NxFacts.edge_data_add_edge_eq. rewrite decide_False; [done|].
  intros [-> ->]. apply (Hes a). left.
Qed.

(** The last edge of the list between two nodes decides the attributes of
    the edge. *)
Lemma add_edges_last (es : list (Z * Z * Nx.attrs)) : forall G l1 u v a l2,
  edges_described G ->
  (forall u v a, (u, v, a) ∈ es -> PyDict.keys a = edge_keys) ->
  es = l1 ++ (u, v, a) :: l2 ->
  (forall a', (u, v, a') ∉ l2) ->
  Nx.edge_data (foldl (fun H '(u, v, a) => Nx.add_edge u v a H) G es) u v
  = Ok a.
Proof.
  intros G l1 u v a l2 HG Hes -> Hlast.
  rewrite foldl_app. simpl. rewrite add_edges_other by done.
  rewrite NxFacts.edge_data_add_edge_eq, decide_True by done.
  rewrite update_edge_keys; [done| |].
  - apply (Hes u v a). apply elem_of_app. right. left.
  - apply edge_described_cases. apply add_edges_described; [done|].
    intros u' v' a' Hin. apply (Hes u' v' a'). apply elem_of_app. by left.
Qed.

Lemma same_layers_addVertices_loop feats vertex s :
  same_layers s (addVertices_loop feats vertex s).2.
Proof.
  apply (preserves_addVertices_loop same_layers); intros; by repeat split.
Qed.

(** A [createGraph] that returns has run the loop of [_addVertices] over
    the records of the node layer, from the empty graph and the empty
    index, and then added the edges of the records of the reach layer. *)
Lemma createGraph_Ok s s' :
  createGraph s = (Ok tt, s') ->
  exists nl rl s0 s1 G1,
    nodeLayer s = Some nl /\ reachLayer s = Some rl
    /\ graph s0 = Some Nx.empty /\ vertexIds s0 = ∅
    /\ addVertices_loop (features nl) None s0 = (Ok tt, s1)
    /\ graph s1 = Some G1
    /\ graph s' =
         Some (foldl (fun H '(u, v, a) => Nx.add_edge u v a H) G1
                 (omap (reach_edge (vertexIds s1)) (features rl)))
    /\ vertexIds s' = vertexIds s1.
Proof.
  unfold createGraph, _addVertices, _addEdges, print_profile, _profile.
  run_monad.
  destruct (nodeLayer s) as [nl|] eqn:Hnl; [|done]. cbn -[addVertices_loop].
  match goal with
  | |- context [addVertices_loop ?l ?v ?s0] =>
      pose proof (same_layers_addVertices_loop l v s0) as Hlay;
      destruct (addVertices_loop l v s0) as [[[]| |] s1] eqn:Hloop;
        [|done|done];
      destruct (addVertices_loop_nodes l v s0 s1 Nx.empty eq_refl Hloop)
        as (G1 & Hg1 & _)
  end.
  destruct Hlay as (_ & Hrl & _). simpl in Hrl.
  cbn -[addEdges_loop]. rewrite Hrl.
  destruct (reachLayer s) as [rl|] eqn:Hrl'; [|done]. cbn -[addEdges_loop].
  erewrite addEdges_loop_eq by (simpl; exact Hg1). cbn.
  intros [= <-]. do 5 eexists.
  split; [reflexivity|]. split; [reflexivity|].
  split; [|split; [|split; [exact Hloop|]]]; [reflexivity|reflexivity|].
  split; [exact Hg1|]. split; reflexivity.
Qed.

(** What [createGraph_Ok] gives, with the facts about the graph of the
    nodes alone worked out: its nodes are the feature ids of the node
    records, it has no edge, and the index points into it. *)
Lemma createGraph_Ok_nodes s s' :
  createGraph s = (Ok tt, s') ->
  exists nl rl s0 s1 G1,
    nodeLayer s = Some nl /\ reachLayer s = Some rl
    /\ graph s0 = Some Nx.empty /\ vertexIds s0 = ∅
    /\ addVertices_loop (features nl) None s0 = (Ok tt, s1)
    /\ graph s1 = Some G1
    /\ graph s' =
         Some (foldl (fun H '(u, v, a) => Nx.add_edge u v a H) G1
                 (omap (reach_edge (vertexIds s')) (features rl)))
    /\ vertexIds s' = vertexIds s1
    /\ (forall n, Nx.has_node n G1 = true <-> n ∈ fid <$> features nl)
    /\ (forall x y, Nx.edge_data G1 x y = Raise KeyError)
    /\ nodes_described G1
    /\ (forall u v a,
          (u, v, a) ∈ omap (reach_edge (vertexIds s')) (features rl) ->
          Nx.has_node u G1 = true /\ Nx.has_node v G1 = true).
Proof.
  intros Hrun.
  apply createGraph_Ok in Hrun
    as (nl & rl & s0 & s1 & G1 & Hnl & Hrl & Hg0 & Hids0 & Hloop & Hg1 & Hg' & Hids').
  destruct (addVertices_loop_nodes _ _ _ _ _ Hg0 Hloop) as (G1' & Hg1' & Hn & He).
  rewrite Hg1 in Hg1'. injection Hg1' as <-.
  assert (Hnodes : forall n, Nx.has_node n G1 = true <-> n ∈ fid <$> features nl).
  { intros n. rewrite Hn. split; [|by right]. by intros [?|?]. }
  assert (Hidx : forall k n, vertexIds s1 !! k = Some n -> Nx.has_node n G1 = true).
  { intros k n Hk. apply Hnodes.
    destruct (addVertices_loop_index _ _ _ _ _ _ Hloop Hk)
      as [Hold|(f & o & Hin & _ & _ & <-)].
    - by rewrite Hids0, lookup_empty in Hold.
    - apply list_elem_of_fmap. by exists f. }
  exists nl, rl, s0, s1, G1. rewrite Hids'.
  split_and!; try done.
  - eapply addVertices_loop_described; [exact Hg0|exact Hloop|exact Hg1|].
    apply nodes_described_empty.
  - intros u v a Hin. apply list_elem_of_omap in Hin as (f & Hin & Hf).
    apply reach_edge_indexed in Hf as [[k1 H1] [k2 H2]]. eauto.
Qed.

(** *** Invariants of the manager

    A property of the graph and the index that holds of a fresh graph with
    an empty index, and that the bodies of the two loops keep, holds after
    every method. *)

Lemma addEdge_no_graph feat s : graph s = None -> (addEdge feat s).2 = s.
Proof.
  intros Hg. unfold addEdge, vertexId. run_monad.
  repeat case_match; simplify_eq/=; try done; congruence.
Qed.

Section Invariant.
Context (I : t -> Prop).
Hypothesis I_frame : forall s s',
  graph s' = graph s -> vertexIds s' = vertexIds s -> I s -> I s'.
Hypothesis I_reset : forall s, graph s = Some Nx.empty -> vertexIds s = ∅ -> I s.
Hypothesis I_addVertex : forall vertex feat s, I s -> I (addVertex vertex feat s).2.
Hypothesis I_addEdge : forall feat s, I s -> I (addEdge feat s).2.

Lemma inv_addVertices_loop feats : forall vertex s,
  I s -> I (addVertices_loop feats vertex s).2.
Proof.
  induction feats as [|feat rest IH]; intros vertex s Hs; [done|].
  cbn [addVertices_loop]. unfold mbind, M_bind, bind.
  pose proof (I_addVertex vertex feat s Hs) as H1.
  destruct (addVertex vertex feat s) as [[v'| |] s1]; simpl in *; [|done|done].
  by apply IH.
Qed.

Lemma inv_addEdges_loop feats : forall s, I s -> I (addEdges_loop feats s).2.
Proof.
  induction feats as [|feat rest IH]; intros s Hs; [done|].
  cbn [addEdges_loop]. unfold mbind, M_bind, bind.
  pose proof (I_addEdge feat s Hs) as H1.
  destruct (addEdge feat s) as [[[]| |] s1]; simpl in *; [|done|done].
  by apply IH.
Qed.

Lemma inv_addVertices s : I s -> I (_addVertices s).2.
Proof.
  intros Hs. unfold _addVertices. run_monad.
  destruct (nodeLayer s) as [l|]; [|done]. cbn -[addVertices_loop].
  pose proof (inv_addVertices_loop (features l) None s Hs) as H1.
  destruct (addVertices_loop (features l) None s) as [[[]| |] s1];
    simpl in *; try done.
  eapply I_frame; [| |exact H1]; reflexivity.
Qed.

Lemma inv_addEdges s : I s -> I (_addEdges s).2.
Proof.
  intros Hs. unfold _addEdges. run_monad.
  destruct (reachLayer s) as [l|]; [|done]. cbn -[addEdges_loop].
  pose proof (inv_addEdges_loop (features l) s Hs) as H1.
  destruct (addEdges_loop (features l) s) as [[[]| |] s1];
    simpl in *; try done.
  eapply I_frame; [| |exact H1]; reflexivity.
Qed.

Lemma inv_createGraph s : I (createGraph s).2.
Proof.
  unfold createGraph, print_profile, _profile.
  unfold mbind, M_bind, bind, modify, ret. cbv beta iota.
  match goal with
  | |- context [_addVertices ?s0] =>
      assert (H0 : I s0) by (apply I_reset; reflexivity);
      pose proof (inv_addVertices s0 H0) as H1;
      destruct (_addVertices s0) as [[[]| |] s1]; [|done|done]
  end.
  pose proof (inv_addEdges s1 H1) as H2.
  destruct (_addEdges s1) as [[[]| |] s2]; simpl in *; try done.
  eapply I_frame; [| |exact H2]; reflexivity.
Qed.

Lemma inv_exec o s : I s -> I (exec o s).
Proof.
  intros Hs. destruct o as [l|l| | | |name| | | | | |a b|n r| ]; simpl; try done.
  - unfold setReachLayer. run_monad. case_match; [apply inv_createGraph|].
    simpl. eapply I_frame; [| |exact Hs]; reflexivity.
  - unfold setNodeLayer. run_monad. case_match; [apply inv_createGraph|].
    simpl. eapply I_frame; [| |exact Hs]; reflexivity.
  - by apply inv_addVertices.
  - by apply inv_addEdges.
  - unfold refresh. run_monad.
    destruct (nodeLayer s); [|done]. destruct (graph s); [|done].
    apply inv_createGraph.
  - eapply I_frame; [| |exact Hs]; reflexivity.
  - apply inv_createGraph.
  - unfold shortestPath. run_monad. destruct (dirty s); [|done].
    pose proof (inv_createGraph s) as H1.
    destruct (createGraph s) as [[[]| |] s1]; done.
  - unfold getTree. run_monad. destruct (dirty s); [|done].
    pose proof (inv_createGraph s) as H1.
    destruct (createGraph s) as [[[]| |] s1]; done.
Qed.

End Invariant.

Lemma described_frame s s' :
  graph s' = graph s -> vertexIds s' = vertexIds s ->
  index_valid s /\ graph_described s -> index_valid s' /\ graph_described s'.
Proof.
  unfold index_valid, graph_described. intros -> ->. done.
Qed.

Lemma described_reset s :
  graph s = Some Nx.empty -> vertexIds s = ∅ ->
  index_valid s /\ graph_described s.
Proof.
  intros Hg Hids. split.
  - intros G k n _. by rewrite Hids, lookup_empty.
  - intros G. rewrite Hg. intros [= <-].
    split; [apply nodes_described_empty | apply edges_described_empty].
Qed.

Lemma described_addVertex vertex feat s :
  index_valid s /\ graph_described s ->
  index_valid (addVertex vertex feat s).2
  /\ graph_described (addVertex vertex feat s).2.
Proof.
  intros [Hidx Hdesc].
  destruct (addVertex_cases vertex feat s)
    as [(G & oid & ty & x & y & Hg & _ & _ & _ & ->)|[e ->]]; [|done].
  simpl. split.
  - intros G' k n [= <-] Hk. simpl in Hk. apply NxFacts.has_node_add_node.
    apply lookup_insert_Some in Hk as [[_ <-]|[_ Hk]]; [by right|].
    left. by eapply Hidx.
  - intros G' [= <-]. destruct (Hdesc G Hg) as [Hn He]. split.
    + by apply nodes_described_add_node.
    + by apply edges_described_add_node.
Qed.

Lemma described_addEdge feat s :
  index_valid s /\ graph_described s ->
  index_valid (addEdge feat s).2 /\ graph_described (addEdge feat s).2.
Proof.
  intros [Hidx Hdesc]. destruct (graph s) as [G|] eqn:Hg;
    [|by rewrite addEdge_no_graph].
  rewrite (addEdge_eq _ _ _ Hg). simpl.
  destruct (reach_edge (vertexIds s) feat) as [[[u v] a]|] eqn:He; [|done].
  destruct (reach_edge_indexed _ _ _ _ _ He) as [[k1 H1] [k2 H2]].
  pose proof (Hidx G k1 u Hg H1) as Hu. pose proof (Hidx G k2 v Hg H2) as Hv.
  destruct (Hdesc G Hg) as [Hn Hed]. split.
  - intros G' k n [= <-] Hk. simpl in Hk.
    rewrite NxFacts.has_node_add_edge_present by done. by eapply Hidx.
  - intros G' [= <-]. split.
    + by apply nodes_described_add_edge.
    + apply edges_described_add_edge; [done|]. by eapply reach_edge_keys.
Qed.

Lemma run_snoc ops o : run (ops ++ [o]) = exec o (run ops).
Proof. unfold run. by rewrite foldl_app. Qed.

(** *** The rebuild reads the layers only *)

Lemma respects_ret {A} (a : A) : respects (ret a).
Proof. by intros s s' H. Qed.

Lemma respects_raise {A} e : respects (@raise A e).
Proof. by intros s s' H. Qed.

Lemma respects_lift {A} (o : outcome A) : respects (lift o).
Proof. by intros s s' H. Qed.

Lemma respects_deref {A} (o : option A) : respects (deref o).
Proof. intros s s' H. by destruct o. Qed.

Lemma respects_read {A} (f : t -> A) :
  (forall s s', same_build s s' -> f s = f s') -> respects (read f).
Proof. intros Hf s s' H. simpl. split; [by rewrite (Hf s s')|done]. Qed.

Lemma respects_modify (f : t -> t) :
  (forall s s', same_build s s' -> same_build (f s) (f s')) ->
  respects (modify f).
Proof. intros Hf s s' H. simpl. split; [done|by apply Hf]. Qed.

Lemma respects_bind {A B} (m : M A) (k : A -> M B) :
  respects m -> (forall a, respects (k a)) -> respects (bind m k).
Proof.
  intros Hm Hk s s' H. unfold bind. destruct (Hm s s' H) as [Ho Hs].
  destruct (m s) as [[a| |] s1], (m s') as [[a'| |] s1'];
    simpl in *; simplify_eq; try done.
  by apply Hk.
Qed.

Lemma respects_catch {A} (m h : M A) e :
  respects m -> respects h -> respects (catch m e h).
Proof.
  intros Hm Hh s s' H. unfold catch. destruct (Hm s s' H) as [Ho Hs].
  destruct (m s) as [[a|e1|] s1], (m s') as [[a'|e1'|] s1'];
    simpl in *; simplify_eq; try done.
  case_decide; [by apply Hh | done].
Qed.

Ltac respects_step :=
  lazymatch goal with
  | |- respects (ret _) => apply respects_ret
  | |- respects (raise _) => apply respects_raise
  | |- respects (lift _) => apply respects_lift
  | |- respects (deref _) => apply respects_deref
  | |- respects (read _) =>
      apply respects_read; intros ? ? (? & ? & ? & ? & ?); done
  | |- respects (modify _) =>
      apply respects_modify; intros ? ? (? & ? & ? & ? & ?);
      repeat split; simpl; congruence
  | |- respects (bind _ _) => apply respects_bind; [|intros ?]
  | |- respects (catch _ _ _) => apply respects_catch
  | |- respects (match ?x with _ => _ end) => destruct x
  end.

Ltac respects_auto := repeat respects_step.

Lemma respects_profile name : respects (_profile name).
Proof. unfold _profile. respects_auto. Qed.

Lemma respects_addVertex vertex feat : respects (addVertex vertex feat).
Proof. unfold addVertex, mbind, M_bind, mret, M_ret. respects_auto. Qed.

Lemma respects_addVertices_loop feats :
  forall vertex, respects (addVertices_loop feats vertex).
Proof.
  induction feats as [|feat rest IH]; intros vertex; cbn [addVertices_loop].
  - apply respects_ret.
  - apply respects_bind; [apply respects_addVertex | intros v; apply IH].
Qed.

Lemma respects_addVertices : respects _addVertices.
Proof.
  unfold _addVertices, mbind, M_bind. respects_auto;
    [apply respects_addVertices_loop | apply respects_profile].
Qed.

Lemma respects_vertexId k : respects (vertexId k).
Proof. unfold vertexId, mbind, M_bind. respects_auto. Qed.

Lemma respects_addEdge feat : respects (addEdge feat).
Proof.
  unfold addEdge, mbind, M_bind. respects_auto; apply respects_vertexId.
Qed.

Lemma respects_addEdges_loop feats : respects (addEdges_loop feats).
Proof.
  induction feats as [|feat rest IH]; cbn [addEdges_loop].
  - apply respects_ret.
  - apply respects_bind; [apply respects_addEdge | intros _; apply IH].
Qed.

Lemma respects_addEdges : respects _addEdges.
Proof.
  unfold _addEdges, mbind, M_bind. respects_auto;
    [apply respects_addEdges_loop | apply respects_profile].
Qed.

Lemma respects_createGraph_fill : respects createGraph_fill.
Proof.
  unfold createGraph_fill, print_profile, mbind, M_bind. respects_auto.
  - apply respects_addVertices.
  - apply respects_addEdges.
Qed.

Lemma createGraph_reset_fill s :
  createGraph s = createGraph_fill (createGraph_reset s).
Proof. reflexivity. Qed.

(** Two rebuilds from managers with the same layers end the same way and
    leave the same graph, index and nodes on structures. *)
Lemma createGraph_layers_only s s' :
  nodeLayer s = nodeLayer s' -> reachLayer s = reachLayer s' ->
  (createGraph s).1 = (createGraph s').1
  /\ same_build (createGraph s).2 (createGraph s').2.
Proof.
  intros Hn Hr. rewrite !createGraph_reset_fill.
  apply respects_createGraph_fill. by repeat split.
Qed.

Lemma same_layers_createGraph s : same_layers s (createGraph s).2.
Proof.
  apply (preserves_createGraph same_layers); intros; by repeat split.
Qed.

(** Two rebuilds from managers that differ in the graph, the index, the
    nodes on structures and the timings only leave managers that differ in
    the timings only. *)
Lemma createGraph_same s s' :
  nodeLayer s = nodeLayer s' -> reachLayer s = reachLayer s' ->
  nodeLayerId s = nodeLayerId s' -> reachLayerId s = reachLayerId s' ->
  dirty s = dirty s' ->
  set_timings [] (createGraph s).2 = set_timings [] (createGraph s').2.
Proof.
  intros Hn Hr Hni Hri Hd.
  destruct (createGraph_layers_only s s' Hn Hr) as [Ho (H1 & H2 & H3 & H4 & H5)].
  destruct (same_layers_createGraph s) as (L1 & L2 & L3 & L4).
  destruct (same_layers_createGraph s') as (L1' & L2' & L3' & L4').
  pose proof (createGraph_dirty s) as D. pose proof (createGraph_dirty s') as D'.
  rewrite Ho in D.
  assert (Hdirty : dirty (createGraph s).2 = dirty (createGraph s').2).
  { destruct ((createGraph s').1); congruence. }
  destruct ((createGraph s).2), ((createGraph s').2). unfold set_timings.
  simpl in *. f_equal; congruence.
Qed.

(** *** The timings *)

#[export] Instance same_timings_preorder :
  PreOrder (fun s s' : t => timings s' = timings s).
Proof. split; [done|]. intros s1 s2 s3 H1 H2. congruence. Qed.

Lemma timings_addVertices_loop feats vertex s :
  timings (addVertices_loop feats vertex s).2 = timings s.
Proof.
  by apply (preserves_addVertices_loop (fun s s' : t => timings s' = timings s)).
Qed.

Lemma timings_addEdges_loop feats s :
  timings (addEdges_loop feats s).2 = timings s.
Proof.
  by apply (preserves_addEdges_loop (fun s s' : t => timings s' = timings s)).
Qed.

(** A [createGraph] that returns has taken its five snapshots. *)
Lemma createGraph_Ok_timings s s' :
  createGraph s = (Ok tt, s') ->
  timings s' =
  timings s ++ ["create graph"; "initiate dicts"; "initiate graph";
                "add vertices"; "add edges"].
Proof.
  unfold createGraph, _addVertices, _addEdges, print_profile, _profile.
  run_monad.
  destruct (nodeLayer s) as [nl|] eqn:Hnl; [|done]. cbn -[addVertices_loop].
  match goal with
  | |- context [addVertices_loop ?l ?v ?s0] =>
      pose proof (timings_addVertices_loop l v s0) as Ht1;
      destruct (addVertices_loop l v s0) as [[[]| |] s1] eqn:Hloop;
        [|done|done]
  end.
  cbn -[addEdges_loop]. destruct (reachLayer s1) as [rl|]; [|done].
  cbn -[addEdges_loop].
  match goal with
  | |- context [addEdges_loop ?l ?s0] =>
      pose proof (timings_addEdges_loop l s0) as Ht2;
      destruct (addEdges_loop l s0) as [[[]| |] s2] eqn:Hloop2;
        [|done|done]
  end.
  cbn. intros [= <-]. simpl in *. rewrite Ht2, Ht1.
  by rewrite <- !app_assoc.
Qed.

Lemma timings_grow_exec o s : timings_grow s (exec o s).
Proof.
  assert (Hg : forall g s, timings_grow s (set_graph g s)) by (intros; by unfold timings_grow).
  assert (Hv : forall m s, timings_grow s (set_vertexIds m s)) by (intros; by unfold timings_grow).
  assert (Hn : forall m s, timings_grow s (set_nodesOnStructure m s)) by (intros; by unfold timings_grow).
  assert (Hd : forall b s, timings_grow s (set_dirty b s)) by (intros; by unfold timings_grow).
  assert (Ht : forall name s, timings_grow s (set_timings (timings s ++ [name]) s)).
  { intros. unfold timings_grow. simpl. by apply prefix_app_r. }
  assert (Hcreate : preserves timings_grow createGraph)
    by by apply (preserves_createGraph timings_grow).
  destruct o as [l|l| | | |name| | | | | |a b|n r| ]; simpl; try reflexivity.
  - revert s. change (preserves timings_grow (setReachLayer l)).
    unfold setReachLayer, mbind, M_bind.
    preserves_auto; try done; by unfold timings_grow.
  - revert s. change (preserves timings_grow (setNodeLayer l)).
    unfold setNodeLayer, mbind, M_bind.
    preserves_auto; try done; by unfold timings_grow.
  - by apply (preserves_addVertices timings_grow).
  - by apply (preserves_addEdges timings_grow).
  - by apply (preserves_refresh timings_grow).
  - apply Ht.
  - apply Hcreate.
  - by apply (preserves_shortestPath timings_grow).
  - by apply (preserves_getTree timings_grow).
Qed.

Lemma same_layers_exec o s :
  (forall l, o <> SetReachLayer l) -> (forall l, o <> SetNodeLayer l) ->
  same_layers s (exec o s).
Proof.
  intros H1 H2.
  destruct o as [l|l| | | |name| | | | | |a b|n r| ]; simpl;
    try by repeat split.
  - by destruct (H1 l).
  - by destruct (H2 l).
  - apply (preserves_addVertices same_layers); intros; by repeat split.
  - apply (preserves_addEdges same_layers); intros; by repeat split.
  - apply (preserves_refresh same_layers); intros; by repeat split.
  - apply same_layers_createGraph.
  - apply (preserves_shortestPath same_layers); intros; by repeat split.
  - apply (preserves_getTree same_layers); intros; by repeat split.
Qed.

(** *** When the rebuild returns *)

Lemma addVertices_loop_Ok_ok feats : forall vertex s s',
  addVertices_loop feats vertex s = (Ok tt, s') ->
  Forall node_record_ok feats
  /\ (vertex = None -> forall f, head feats = Some f -> has_point f).
Proof.
  induction feats as [|feat rest IH]; intros vertex s s' Hrun.
  - split; [constructor|]. intros _ f Hf. discriminate.
  - apply addVertices_loop_cons in Hrun
      as (G & oid & ty & x & y & Hg & E1 & E2 & Hp & Hrest).
    apply IH in Hrest as [Hall _]. split.
    + constructor; [|done]. split; [by eexists|]. split; [by eexists|].
      intros e He. destruct Hp as [Hp|[Hp _]]; congruence.
    + intros -> f [= <-]. destruct Hp as [Hp|[_ Hp]]; [by eexists|done].
Qed.

Lemma addVertices_loop_ok_Ok feats : forall vertex s G,
  graph s = Some G ->
  Forall node_record_ok feats ->
  (vertex = None -> forall f, head feats = Some f -> has_point f) ->
  exists s', addVertices_loop feats vertex s = (Ok tt, s').
Proof.
  induction feats as [|feat rest IH]; intros vertex s G Hg Hall Hhead.
  - by eexists.
  - apply Forall_cons in Hall as [([oid E1] & [ty E2] & Hexn) Hall].
    assert (Hstep : exists p,
      addVertex vertex feat s =
        (Ok (Some p),
         set_vertexIds (<[str oid := fid feat]> (vertexIds s))
           (set_graph (Some (Nx.add_node (fid feat)
              [("point", VPoint p.1 p.2); ("objType", ty); ("objId", oid)]
              G)) s))).
    { unfold addVertex, geometry_asPoint. run_monad. rewrite E1, E2. simpl.
      destruct (asPoint feat) as [[x y]|e] eqn:Hp.
      - rewrite Hg. by exists (x, y).
      - rewrite (Hexn e eq_refl). rewrite decide_True by done. rewrite Hg.
        destruct vertex as [[x y]|]; [by exists (x, y)|].
        destruct (Hhead eq_refl feat eq_refl) as [p Hp']. congruence. }
    destruct Hstep as [p Hstep].
    cbn [addVertices_loop]. unfold mbind, M_bind, bind. rewrite Hstep.
    eapply IH; [reflexivity|done|done].
Qed.

Lemma createGraph_returns_iff s :
  (exists s', createGraph s = (Ok tt, s')) <->
  exists nl rl,
    nodeLayer s = Some nl /\ reachLayer s = Some rl
    /\ Forall node_record_ok (features nl)
    /\ (forall f, head (features nl) = Some f -> has_point f).
Proof.
  split.
  - intros [s' Hrun].
    apply createGraph_Ok in Hrun
      as (nl & rl & s0 & s1 & G1 & Hnl & Hrl & Hg0 & Hids0 & Hloop & _).
    apply addVertices_loop_Ok_ok in Hloop as [Hall Hhead].
    exists nl, rl. split_and!; try done. by apply Hhead.
  - intros (nl & rl & Hnl & Hrl & Hall & Hhead).
    rewrite createGraph_reset_fill.
    assert (Hnl' : nodeLayer (createGraph_reset s) = Some nl) by exact Hnl.
    destruct (addVertices_loop_ok_Ok (features nl) None (createGraph_reset s)
                Nx.empty eq_refl Hall (fun _ => Hhead)) as [s1 Hloop].
    destruct (same_layers_addVertices_loop (features nl) None (createGraph_reset s))
      as (_ & Hrl1 & _).
    destruct (addVertices_loop_nodes _ _ _ _ Nx.empty
                (eq_refl : graph (createGraph_reset s) = Some Nx.empty) Hloop)
      as (G1 & Hg1 & _).
    rewrite Hloop in Hrl1. simpl in Hrl1.
    unfold createGraph_fill, _addVertices, _addEdges, print_profile, _profile.
    run_monad. rewrite Hnl'. cbn -[addVertices_loop]. rewrite Hloop.
    cbn -[addEdges_loop]. rewrite Hrl1.
    rewrite Hrl. cbn -[addEdges_loop].
    erewrite addEdges_loop_eq by (simpl; exact Hg1). cbn. by eexists.
Qed.

(** *** The point of a record without geometry *)

(** A record whose point cannot be read, after records of which the last
    with a point had the point [p], is given the point [p]. *)
Lemma addVertices_loop_stale feats :
  forall vertex s s' G G' mid feat l2 p,
  graph s = Some G ->
  nodes_described G ->
  addVertices_loop feats vertex s = (Ok tt, s') ->
  graph s' = Some G' ->
  feats = mid ++ feat :: l2 ->
  vertex = Some p ->
  (forall f, f ∈ mid -> ~ has_point f) ->
  ~ has_point feat ->
  fid feat ∉ fid <$> l2 ->
  exists obj_id obj_type,
    field feat "obj_id" = Ok obj_id
    /\ field feat "type" = Ok obj_type
    /\ Nx.node G' (fid feat)
       = Ok [("point", VPoint p.1 p.2); ("objType", obj_type); ("objId", obj_id)].
Proof.
  induction feats as [|f0 rest IH];
    intros vertex s s' G G' mid feat l2 p Hg HG Hrun Hg' Hsplit Hv Hmid Hfeat Hlast.
  - by destruct mid.
  - apply addVertices_loop_cons in Hrun
      as (G0 & oid & ty & x & y & Hg0 & E1 & E2 & Hp & Hrest).
    rewrite Hg in Hg0. injection Hg0 as <-.
    destruct mid as [|f1 mid]; simplify_eq/=.
    + destruct Hp as [Hp|[_ [= ->]]]; [destruct Hfeat; by eexists|].
      exists oid, ty. split; [done|]. split; [done|].
      assert (Hsame : Nx.node G' (fid feat) =
                Nx.node (Nx.add_node (fid feat)
                  [("point", VPoint x y); ("objType", ty); ("objId", oid)] G)
                  (fid feat)).
      { eapply addVertices_loop_node_other;
          [|exact Hrest|exact Hg'|exact Hlast]. reflexivity. }
      rewrite Hsame, NxFacts.node_add_node, decide_True by done.
      by rewrite update_node_keys by by apply node_described_cases.
    + destruct Hp as [Hp|[_ [= ->]]].
      { destruct (Hmid f1); [left | by eexists]. }
      eapply (IH _ _ _ _ _ mid feat l2 (x, y));
        [| |exact Hrest|exact Hg'|reflexivity|reflexivity| |exact Hfeat|exact Hlast].
      * reflexivity.
      * by apply nodes_described_add_node.
      * intros f Hf. apply Hmid. by right.
Qed.

Lemma addVertices_loop_previous_point feats :
  forall vertex s s' G G' l0 f0 mid feat l2 p,
  graph s = Some G ->
  nodes_described G ->
  addVertices_loop feats vertex s = (Ok tt, s') ->
  graph s' = Some G' ->
  feats = l0 ++ f0 :: mid ++ feat :: l2 ->
  asPoint f0 = inl p ->
  (forall f, f ∈ mid -> ~ has_point f) ->
  ~ has_point feat ->
  fid feat ∉ fid <$> l2 ->
  exists obj_id obj_type,
    field feat "obj_id" = Ok obj_id
    /\ field feat "type" = Ok obj_type
    /\ Nx.node G' (fid feat)
       = Ok [("point", VPoint p.1 p.2); ("objType", obj_type); ("objId", obj_id)].
Proof.
  induction feats as [|f rest IH];
    intros vertex s s' G G' l0 f0 mid feat l2 p Hg HG Hrun Hg' Hsplit Hp0 Hmid
           Hfeat Hlast.
  - by destruct l0.
  - apply addVertices_loop_cons in Hrun
      as (G0 & oid & ty & x & y & Hg0 & E1 & E2 & Hp & Hrest).
    rewrite Hg in Hg0. injection Hg0 as <-.
    destruct l0 as [|f1 l0]; simplify_eq/=.
    + destruct Hp as [Hp|[Hp _]]; [|congruence].
      rewrite Hp0 in Hp. injection Hp as ->.
      eapply (addVertices_loop_stale _ _ _ _ _ _ mid feat l2 (x, y));
        [| |exact Hrest|exact Hg'|reflexivity|reflexivity|exact Hmid
         |exact Hfeat|exact Hlast].
      * reflexivity.
      * by apply nodes_described_add_node.
    + eapply (IH _ _ _ _ _ l0 f0 mid feat l2 p);
        [| |exact Hrest|exact Hg'|reflexivity|exact Hp0|exact Hmid
         |exact Hfeat|exact Hlast].
      * reflexivity.
      * by apply nodes_described_add_node.
Qed.

End GraphManagerFacts.

(** ** The feature cache *)

Module FeatureCacheFacts.
Import Qgis FeatureCache PyDictFacts.

Lemma attr_returns feat name : attr feat name = Ok (attr_value feat name).
Proof.
  unfold attr, attr_value, field.
  by destruct (PyDict.get name (attributes feat)) as [[|?|?|??]|].
Qed.

Lemma addFeature_returns feat c :
  addFeature feat c =
  Ok {| _featuresById := PyDict.set (fid feat) feat (_featuresById c);
        _featuresByObjId :=
          PyDict.set (attr_value feat (objIdField c)) feat (_featuresByObjId c);
        objIdField := objIdField c; layer := layer c |}.
Proof. unfold addFeature, attrAsUnicode. by rewrite attr_returns. Qed.

(** What a run of [addFeature] calls leaves in the dictionary keyed by
    feature id. *)
Lemma addFeatures_spec feats : forall c,
  exists c',
    addFeatures feats c = Ok c'
    /\ objIdField c' = objIdField c
    /\ (forall i f, PyDict.get i (_featuresById c') = Some f ->
          (f ∈ feats /\ fid f = i) \/ PyDict.get i (_featuresById c) = Some f)
    /\ (forall i, is_Some (PyDict.get i (_featuresById c)) ->
          is_Some (PyDict.get i (_featuresById c')))
    /\ (forall f, f ∈ feats ->
          exists f', PyDict.get (fid f) (_featuresById c') = Some f'
                     /\ f' ∈ feats /\ fid f' = fid f).
Proof.
  induction feats as [|f rest IH]; intros c; cbn [addFeatures].
  - exists c. split; [done|]. split; [done|]. split; [by right|]. split; [done|].
    intros f Hf. by apply elem_of_nil in Hf.
  - rewrite addFeature_returns. cbn [mbind outcome_bind obind].
    match goal with
    | |- context [addFeatures rest ?c1] =>
        destruct (IH c1) as (c' & Hrun & Hfield & Hfrom & Hkeep & Hall)
    end.
    simpl in *. exists c'. split; [done|]. split; [done|].
    assert (Hhead : forall f', PyDict.get (fid f) (_featuresById c') = Some f' ->
                      f' ∈ f :: rest /\ fid f' = fid f).
    { intros f' Hf'. destruct (Hfrom _ _ Hf') as [[? ?]|Hold].
      - split; [by right | done].
      - rewrite get_set_eq in Hold. injection Hold as <-. split; [left | done]. }
    split; [|split].
    + intros i g Hg. destruct (Hfrom _ _ Hg) as [[? ?]|Hold].
      * left. split; [by right | done].
      * rewrite get_set in Hold. case_decide as Hi.
        -- injection Hold as <-. left. split; [left | done].
        -- by right.
    + intros i Hi. apply Hkeep. rewrite get_set. case_decide; eauto.
    + intros g Hg. apply elem_of_cons in Hg as [->|Hg].
      * destruct (Hkeep (fid f)) as [f' Hf'].
        { rewrite get_set_eq. eauto. }
        exists f'. split; [done|]. by apply Hhead.
      * destruct (Hall g Hg) as (f' & Hf' & Hin & Hid).
        exists f'. split; [done|]. split; [by right | done].
Qed.


(** *** The text handed to the geometry parser *)

Lemma first_line_no_line_feed l : "010"%char ∉ first_line l.
Proof.
  induction l as [|c l IH]; simpl; [apply not_elem_of_nil|].
  case_decide; [apply not_elem_of_nil|]. by apply not_elem_of_cons.
Qed.

Lemma first_line_id l : "010"%char ∉ l -> first_line l = l.
Proof.
  induction l as [|c l IH]; cbn [first_line]; [done|]. intros Hl.
  apply not_elem_of_cons in Hl as [Hc Hl]. case_decide; [by subst|].
  by rewrite IH.
Qed.

Lemma after_last_semicolon_sub l x : x ∈ after_last_semicolon l -> x ∈ l.
Proof.
  induction l as [|c l IH]; simpl; [done|].
  repeat case_decide; intros Hx; [right; auto | by right | done].
Qed.

Lemma after_last_semicolon_none l : ";"%char ∉ after_last_semicolon l.
Proof.
  induction l as [|c l IH]; simpl; [apply not_elem_of_nil|].
  repeat case_decide; [done|done|by apply not_elem_of_cons].
Qed.

Lemma after_last_semicolon_id l : ";"%char ∉ l -> after_last_semicolon l = l.
Proof.
  destruct l as [|c l]; cbn [after_last_semicolon]; [done|]. intros Hl.
  apply not_elem_of_cons in Hl as [Hc Hl]. by repeat case_decide; subst.
Qed.

Lemma after_last_semicolon_app p w :
  ";"%char ∉ w -> after_last_semicolon (p ++ ";"%char :: w) = w.
Proof.
  intros Hw. induction p as [|c p IH]; cbn [app after_last_semicolon].
  - by repeat case_decide.
  - case_decide as Hin; [done|]. destruct Hin. apply elem_of_app. right. left.
Qed.

Lemma list_ascii_of_string_app a b :
  String.list_ascii_of_string (a +:+ b)
  = String.list_ascii_of_string a ++ String.list_ascii_of_string b.
Proof. induction a as [|c a IH]; simpl; [done|]. by rewrite IH. Qed.

End FeatureCacheFacts.

(** * The specification's claims *)

Module Claims.
Import Qgis GraphManager GraphManagerFacts.

(** ** Concrete layers used below *)

Definition node_record (i : Z) (obj_id : string) (p : (Z * Z) + exn) : feature :=
  mkFeature i [("obj_id", VStr obj_id); ("type", VStr "wastewater_node")] p.

Definition reach_record (i : Z) (obj_id from_id to_id : string) (len : Z) : feature :=
  mkFeature i
    [("obj_id", VStr obj_id); ("type", VStr "reach");
     ("from_obj_id", VStr from_id); ("to_obj_id", VStr to_id);
     ("length_calc", VInt len)]
    (inr AttributeError).

(** A manager whose two layers were assigned and whose graph is still to be
    built. *)
Definition with_layers (nodes reaches : list feature) : t :=
  {| reachLayer := Some (mkLayer "reaches" reaches); reachLayerId := VStr "reaches";
     nodeLayer := Some (mkLayer "nodes" nodes); nodeLayerId := VStr "nodes";
     dirty := true; graph := None; vertexIds := ∅;
     nodesOnStructure := []; timings := [] |}.

Definition nodes_ABC : list feature :=
  [node_record 1 "A" (inl (0, 0)); node_record 2 "B" (inl (10, 0));
   node_record 3 "C" (inl (5, 5))].

Definition reaches_C1 : list feature :=
  [reach_record 11 "AB" "A" "B" 4; reach_record 12 "BC" "B" "C" 3].

Definition reaches_C5 : list feature :=
  [reach_record 11 "AB" "A" "B" 2; reach_record 12 "AX" "A" "X" 1;
   reach_record 13 "CB" "C" "B" 1].

Definition reaches_C7 : list feature :=
  [reach_record 11 "AB" "A" "B" 2; reach_record 12 "AC" "A" "C" 1;
   reach_record 13 "CB" "C" "B" 1].

(** What a query does when the flag is set: the rebuild first, and the
    query proper on the state the rebuild left, if it completed. *)
Definition after_rebuild {A} (query : option Nx.DiGraph -> outcome A) (s : t)
  : outcome A * t :=
  match createGraph s with
  | (Ok _, s1) => (query (graph s1), s1)
  | (Raise e, s1) => (Raise e, s1)
  | (OutOfFuel, s1) => (OutOfFuel, s1)
  end.

(** ** C1 *)

(** C1 (the code does otherwise): [getTree] returns no edge list.  The
    library maps a node to the list of its predecessors; every pair of
    [pred.items()] passes the filter [v is not None], and [my_graph[v]],
    looked up with the list, raises [TypeError].  So no call of [getTree]
    returns, in either direction, and a call whose search returns raises
    [TypeError] and leaves the manager as it was. *)
Theorem C1_getTree_returns_no_edges (s : t) (n : Z) (reverse : bool) :
  (forall r, (getTree n reverse s).1 <> Ok r)
  /\ (forall G,
        dirty s = false ->
        graph s = Some G ->
        is_Ok (Nx.bellman_ford_predecessor_and_distance
                 (if reverse then Nx.reverse G else G) n) ->
        getTree n reverse s = (Raise TypeError, s)).
Proof.
  split.
  - intros r. unfold getTree. run_monad.
    destruct (dirty s); cbn -[createGraph getTree_on].
    + destruct (createGraph s) as [[[]| |] s1]; cbn -[getTree_on]; try done.
      by destruct (getTree_on_raises (graph s1) n reverse) as [[e ->] _].
    + by destruct (getTree_on_raises (graph s) n reverse) as [[e ->] _].
  - intros G Hd Hg Hbf. unfold getTree. run_monad.
    rewrite Hd. cbn -[getTree_on].
    by rewrite (proj2 (getTree_on_raises (graph s) n reverse) G Hg Hbf).
Qed.

(** On the graph A->B->C the search from C in the reversed graph returns,
    and [getTree(C, reverse=True)] raises [TypeError]. *)
Lemma C1_getTree_returns_no_edges_witness :
  let s := (createGraph (with_layers nodes_ABC reaches_C1)).2 in
  getTree 3 true s = (Raise TypeError, s).
Proof.
  intros s.
  pose (G := default Nx.empty (graph s)).
  assert (Hg : graph s = Some G) by (vm_compute; reflexivity).
  apply (proj2 (C1_getTree_returns_no_edges s 3 true) G).
  - vm_compute. reflexivity.
  - exact Hg.
  - eexists. vm_compute. reflexivity.
Defined.

(** ** C2 *)

(** C2 (the code does otherwise): when the point of the first record of the
    node layer cannot be read, [_addVertices] does not add the node: the
    local variable [vertex] was never assigned and the call raises
    [UnboundLocalError], leaving the graph without the record's node. *)
Theorem C2_first_record_without_point (s : t) (l : layer) (g : Nx.DiGraph)
    (feat : feature) (rest : list feature) (obj_id obj_type : value) :
  nodeLayer s = Some l ->
  features l = feat :: rest ->
  graph s = Some g ->
  field feat "obj_id" = Ok obj_id ->
  field feat "type" = Ok obj_type ->
  asPoint feat = inr AttributeError ->
  _addVertices s = (Raise UnboundLocalError, s).
Proof.
  intros Hl Hfs Hg Hid Hty Hpt.
  unfold _addVertices, mbind, M_bind, bind, read, deref. rewrite Hl. simpl.
  rewrite Hfs. simpl.
  unfold addVertex, geometry_asPoint, mbind, M_bind, bind, lift, catch, read, deref.
  rewrite Hid, Hty, Hpt. simpl. rewrite Hg. reflexivity.
Qed.

Lemma C2_first_record_without_point_witness :
  let feat := node_record 1 "A" (inr AttributeError) in
  let s := set_graph (Some Nx.empty) (with_layers [feat] []) in
  _addVertices s = (Raise UnboundLocalError, s)
  /\ (createGraph (with_layers [feat] [])).1 = Raise UnboundLocalError.
Proof.
  split.
  - eapply (C2_first_record_without_point _ (mkLayer "nodes" _) Nx.empty);
      reflexivity.
  - vm_compute. reflexivity.
Defined.

(** When the point of a later record cannot be read, the build does go on,
    and the node is added with the point of the record before it. *)
Example later_record_takes_previous_point :
  let nodes := [node_record 1 "A" (inl (4, 7)); node_record 2 "B" (inr AttributeError)] in
  let r := createGraph (with_layers nodes []) in
  r.1 = Ok tt
  /\ exists G, graph r.2 = Some G
       /\ Nx.node G 2 = Ok [("point", VPoint 4 7);
                            ("objType", VStr "wastewater_node");
                            ("objId", VStr "B")].
Proof.
  split; [vm_compute; reflexivity|].
  eexists. split; vm_compute; reflexivity.
Qed.

(** ** C3 *)

(** C3 as stated fails: a text that is not a number makes [attrAsFloat]
    raise.  With every [float] that rejects the text abc, as Python's
    does, the call on a feature whose field holds that text raises
    [ValueError]; so it is not true that the call returns whatever [float]
    does. *)
Lemma C3_counterexample :
  let feat := mkFeature 1 [("width", VStr "abc")] (inr AttributeError) in
  (forall (float : Type) (of_number : Z -> option float)
          (of_text : string -> option float),
      of_text "abc" = None ->
      FeatureCache.attrAsFloat of_number of_text feat "width" = Raise ValueError)
  /\ ~ (forall (float : Type) (of_number : Z -> option float)
               (of_text : string -> option float),
          exists r, FeatureCache.attrAsFloat of_number of_text feat "width" = Ok r).
Proof.
  intros feat.
  assert (Hraise : forall (float : Type) (of_number : Z -> option float)
                     (of_text : string -> option float),
            of_text "abc" = None ->
            FeatureCache.attrAsFloat of_number of_text feat "width"
            = Raise ValueError).
  { intros float of_number of_text Habc.
    unfold FeatureCache.attrAsFloat, FeatureCache.attr, PyFloat.float. simpl.
    by rewrite Habc. }
  split; [exact Hraise|]. intros Hall.
  destruct (Hall Z (fun z => Some z) (fun _ => None)) as [r Hr].
  by rewrite Hraise in Hr.
Qed.

(** C3 (amended): [attrAsFloat] returns the float [float] makes of the
    field, returns [None] when the field is unknown, [NULL] or of a type
    [float] does not take, and lets through what [float] raises for a text
    that is not a number ([ValueError]) and for a number too large for a
    float ([OverflowError]).  This holds whatever [float] makes of each
    number and text. *)
Theorem C3_attrAsFloat {float : Type} (of_number : Z -> option float)
    (of_text : string -> option float) (feat : feature) (name : string) :
  match PyDict.get name (attributes feat) with
  | None | Some VNull | Some (VPoint _ _) =>
      FeatureCache.attrAsFloat of_number of_text feat name = Ok None
  | Some (VInt z) =>
      match of_number z with
      | Some f => FeatureCache.attrAsFloat of_number of_text feat name = Ok (Some f)
      | None =>
          FeatureCache.attrAsFloat of_number of_text feat name = Raise OverflowError
      end
  | Some (VStr s) =>
      match of_text s with
      | Some f => FeatureCache.attrAsFloat of_number of_text feat name = Ok (Some f)
      | None =>
          FeatureCache.attrAsFloat of_number of_text feat name = Raise ValueError
      end
  end.
Proof.
  unfold FeatureCache.attrAsFloat, FeatureCache.attr, field, PyFloat.float.
  destruct (PyDict.get name (attributes feat)) as [[|z|s|x y]|]; simpl;
    try reflexivity.
  - destruct (of_number z); reflexivity.
  - destruct (of_text s); reflexivity.
Qed.

(** ** C4 *)

(** C4 (the code does otherwise): [asObjIdDict] returns the dictionary keyed
    by feature id, the one [asDict] returns, not the one keyed by object
    id: after adding the feature 7 with object id "N7" its only key is 7,
    while the object-id index has the key "N7". *)
Theorem C4_asObjIdDict_by_feature_id :
  (forall c, FeatureCache.asObjIdDict c = FeatureCache.asDict c)
  /\ let feat := node_record 7 "N7" (inl (0, 0)) in
     exists c,
       FeatureCache.addFeature feat (FeatureCache.init None "obj_id") = Ok c
       /\ FeatureCache.asObjIdDict c = [(7, feat)]
       /\ FeatureCache._featuresByObjId c = [(Some (VStr "N7"), feat)].
Proof.
  split; [reflexivity|]. eexists. repeat split.
Qed.

(** ** C5 *)

(** C5: with the reach layer and the graph in place, [_addEdges] returns
    without raising; a reach one of whose endpoints does not resolve in the
    object-id index leaves the graph as it was; and every reach of the layer
    that has its fields and whose endpoints resolve has its edge in the
    graph at the end. *)
Theorem C5_unresolved_reach_skipped (s : t) (l : layer) (G : Nx.DiGraph) :
  reachLayer s = Some l ->
  graph s = Some G ->
  exists G',
    _addEdges s =
      (Ok tt, set_timings (timings s ++ ["add edges"]) (set_graph (Some G') s))
    /\ (forall feat s0,
          endpoint (vertexIds s0) feat "from_obj_id" = None
          \/ endpoint (vertexIds s0) feat "to_obj_id" = None ->
          addEdge feat s0 = (Ok tt, s0))
    /\ (forall feat p1 p2,
          feat ∈ features l ->
          is_Ok (field feat "obj_id") ->
          is_Ok (field feat "type") ->
          is_Ok (field feat "length_calc") ->
          endpoint (vertexIds s) feat "from_obj_id" = Some p1 ->
          endpoint (vertexIds s) feat "to_obj_id" = Some p2 ->
          Nx.has_edge G' p1 p2).
Proof.
  intros Hl Hg.
  destruct (addEdges_loop_spec (features l) s G Hg) as (G' & Hloop & _ & Hall).
  exists G'. split; [|split].
  - unfold _addEdges, mbind, M_bind, bind, read, deref. rewrite Hl.
    cbn -[addEdges_loop]. rewrite Hloop. reflexivity.
  - intros feat s0. apply addEdge_unresolved.
  - exact Hall.
Qed.

Lemma C5_unresolved_reach_skipped_witness :
  let s := exec AddVertices (set_graph (Some Nx.empty) (with_layers nodes_ABC reaches_C5)) in
  exists G G',
    graph s = Some G
    /\ _addEdges s =
         (Ok tt, set_timings (timings s ++ ["add edges"]) (set_graph (Some G') s))
    /\ Nx.has_edge G' 1 2 /\ Nx.has_edge G' 3 2.
Proof.
  intros s.
  assert (Hg : exists G, graph s = Some G) by (vm_compute; eauto).
  destruct Hg as [G Hg].
  destruct (C5_unresolved_reach_skipped s (mkLayer "reaches" reaches_C5) G eq_refl Hg)
    as (G' & Hrun & _ & Hall).
  exists G, G'. split; [done|]. split; [done|]. split.
  - apply (Hall (reach_record 11 "AB" "A" "B" 2)); try (by eexists); try reflexivity.
    left.
  - apply (Hall (reach_record 13 "CB" "C" "B" 1)); try (by eexists); try reflexivity.
    right. right. left.
Defined.

(** ** C6 *)

(** C6: on a well-formed graph whose edges carry numbers that are not
    negative, for nodes [a] and [b] of the graph with no directed path from
    [a] to [b], [shortestPath(a, b)] returns [([], [])] and leaves the
    manager as it was. *)
Theorem C6_no_path_empty_result (s : t) (G : Nx.DiGraph) (a b : Z) :
  dirty s = false ->
  graph s = Some G ->
  Nx.wf G ->
  Nx.nonneg_weights G ->
  Nx.has_node a G = true ->
  Nx.has_node b G = true ->
  ~ Nx.reachable G a b ->
  shortestPath a b s = (Ok ([], []), s).
Proof.
  intros Hd Hg Hwf Hw Ha Hb Hno.
  unfold shortestPath, mbind, M_bind, bind, read, lift. rewrite Hd. cbn.
  rewrite Hg. unfold shortestPath_on.
  rewrite (NxFacts.dijkstra_path_no_path G a Hwf Hw b Ha Hno). reflexivity.
Qed.

Lemma C6_no_path_empty_result_witness :
  let s := (createGraph (with_layers nodes_ABC reaches_C7)).2 in
  shortestPath 2 1 s = (Ok ([], []), s).
Proof.
  intros s.
  pose (G := default Nx.empty (graph s)).
  assert (Hg : graph s = Some G) by (vm_compute; reflexivity).
  apply (C6_no_path_empty_result s G 2 1).
  - vm_compute. reflexivity.
  - exact Hg.
  - exact (createGraph_wf _ G Hg).
  - apply NxFacts.weights_checked_nonneg. vm_compute. reflexivity.
  - vm_compute. reflexivity.
  - vm_compute. reflexivity.
  - assert (Hstay : forall x, Nx.reachable G 2 x -> x = 2).
    { intros x Hx. induction Hx as [|u v _ -> [e He]]; [done|].
      apply NxFacts.edge_data_Ok in He as (na & sc & Hu & Hv).
      vm_compute in Hu. injection Hu as <- <-. discriminate. }
    intros H. apply Hstay in H. discriminate.
Defined.

(** ** C7 *)

(** C7 as stated fails: on the graph A->B (2), A->C (1), C->B (1) the two
    paths from A to B both weigh 2, and [shortestPath] returns the direct
    edge, not [A, C, B]. *)
Lemma C7_counterexample :
  exists edges,
    (shortestPath 1 2 (with_layers nodes_ABC reaches_C7)).1 = Ok ([1; 2], edges)
    /\ [1; 2] <> [1; 3; 2].
Proof. eexists. split; [vm_compute; reflexivity | discriminate]. Qed.

(** C7 (amended): on that graph, in whichever order the three reaches are
    read, [shortestPath(A, B)] returns the node sequence [A, B] with the one
    edge triple of the direct edge; its weight 2 equals the weight of the
    path through C, which is found second and does not replace it. *)
Theorem C7_direct_edge_kept :
  Forall
    (fun reaches =>
       (shortestPath 1 2 (with_layers nodes_ABC reaches)).1
       = Ok ([1; 2],
             [(1, 2, [("weight", VInt 2); ("feature", VInt 11);
                      ("baseFeature", VStr "AB"); ("objType", VStr "reach")])]))
    (permutations reaches_C7).
Proof.
  let l := eval vm_compute in (permutations reaches_C7) in
  change (permutations reaches_C7) with l.
  repeat (apply Forall_cons; split; [vm_compute; reflexivity|]).
  apply Forall_nil_2.
Qed.

(** ** C9 *)

(** C9: assigning one layer while the other is unset does not rebuild: the
    call returns with the layer and its id assigned, the dirty flag set,
    and the graph, the object-id index and every other attribute as
    before. *)
Theorem C9_one_layer_no_rebuild (s : t) (l : option layer) :
  (reachLayer s = None ->
   setNodeLayer l s =
     (Ok tt,
      {| reachLayer := None; reachLayerId := reachLayerId s;
         nodeLayer := l; nodeLayerId := layerId l;
         dirty := true; graph := graph s; vertexIds := vertexIds s;
         nodesOnStructure := nodesOnStructure s; timings := timings s |}))
  /\ (nodeLayer s = None ->
      setReachLayer l s =
        (Ok tt,
         {| reachLayer := l; reachLayerId := layerId l;
            nodeLayer := None; nodeLayerId := nodeLayerId s;
            dirty := true; graph := graph s; vertexIds := vertexIds s;
            nodesOnStructure := nodesOnStructure s; timings := timings s |})).
Proof.
  split; intros H.
  - unfold setNodeLayer, mbind, M_bind, bind, modify, read, both_layers. simpl.
    rewrite H.
    destruct l; unfold ret, set_nodeLayerId, set_nodeLayer, set_dirty; simpl;
      rewrite H; reflexivity.
  - unfold setReachLayer, mbind, M_bind, bind, modify, read, both_layers. simpl.
    rewrite H.
    unfold ret, set_reachLayerId, set_reachLayer, set_dirty; simpl; rewrite H;
      reflexivity.
Qed.

Lemma C9_one_layer_no_rebuild_witness :
  let l := Some (mkLayer "nodes" nodes_ABC) in
  reachLayer initial = None
  /\ setNodeLayer l initial =
       (Ok tt,
        {| reachLayer := None; reachLayerId := VInt (-1);
           nodeLayer := l; nodeLayerId := VStr "nodes";
           dirty := true; graph := None; vertexIds := ∅;
           nodesOnStructure := []; timings := [] |}).
Proof.
  split; [reflexivity|].
  apply (proj1 (C9_one_layer_no_rebuild initial (Some (mkLayer "nodes" nodes_ABC)))).
  reflexivity.
Defined.

(** ** C10 *)

(** C10 as stated fails: on the graph A->B->C, with the start node A
    present and the end node absent, [shortestPath] returns the empty
    result. *)
Lemma C10_counterexample :
  let s := (createGraph (with_layers nodes_ABC reaches_C1)).2 in
  exists G, graph s = Some G /\ dirty s = false
    /\ Nx.has_node 1 G = true /\ Nx.has_node 9 G = false
    /\ shortestPath 1 9 s = (Ok ([], []), s).
Proof.
  vm_compute. eexists. repeat split; reflexivity.
Qed.

(** C10 (amended): when the start node is absent from the graph,
    [shortestPath] does not return the empty result: for distinct start
    and end the library's [NodeNotFound] reaches the caller, and for equal
    ones the result is the one-node path.  When the start node is in the
    graph and the end node is not, on a well-formed graph whose weights are
    numbers and not negative, the result is the empty one, as when no path
    exists. *)
Theorem C10_missing_node (s : t) (G : Nx.DiGraph) (a b : Z) :
  dirty s = false ->
  graph s = Some G ->
  (Nx.has_node a G = false ->
     (shortestPath a b s).1 <> Ok ([], [])
     /\ (a <> b -> shortestPath a b s = (Raise NodeNotFound, s))
     /\ (a = b -> shortestPath a b s = (Ok ([a], []), s)))
  /\ (Nx.has_node a G = true ->
      Nx.has_node b G = false ->
      Nx.wf G ->
      Nx.nonneg_weights G ->
      shortestPath a b s = (Ok ([], []), s)).
Proof.
  intros Hd Hg.
  unfold shortestPath, mbind, M_bind, bind, read, lift. rewrite Hd. simpl.
  rewrite Hg. unfold shortestPath_on. split.
  - intros Ha. unfold Nx.dijkstra_path.
    destruct (decide (b = a)) as [->|Hne]; simpl.
    + split; [discriminate|]. split; [congruence|done].
    + unfold Nx._dijkstra_multisource. rewrite Ha. simpl.
      split; [discriminate|]. split; [done|congruence].
  - intros Ha Hb Hwf Hw.
    rewrite (NxFacts.dijkstra_path_no_path G a Hwf Hw b Ha); [done|].
    intros Hreach.
    pose proof (NxFacts.reachable_has_node G a b Hwf Ha Hreach). congruence.
Qed.

Lemma C10_missing_node_witness :
  let s := (createGraph (with_layers nodes_ABC reaches_C1)).2 in
  shortestPath 9 1 s = (Raise NodeNotFound, s)
  /\ shortestPath 9 9 s = (Ok ([9], []), s)
  /\ shortestPath 1 9 s = (Ok ([], []), s).
Proof.
  intros s.
  pose (G := default Nx.empty (graph s)).
  assert (Hg : graph s = Some G) by (vm_compute; reflexivity).
  assert (Hd : dirty s = false) by (vm_compute; reflexivity).
  split; [|split].
  - apply (proj1 (C10_missing_node s G 9 1 Hd Hg)); [vm_compute; reflexivity|done].
  - apply (proj1 (C10_missing_node s G 9 9 Hd Hg)); [vm_compute; reflexivity|done].
  - apply (proj2 (C10_missing_node s G 1 9 Hd Hg)).
    + vm_compute. reflexivity.
    + vm_compute. reflexivity.
    + exact (createGraph_wf _ G Hg).
    + apply NxFacts.weights_checked_nonneg. vm_compute. reflexivity.
Defined.

(** ** C8 *)

(** C8: whatever method is called, the dirty flag is clear afterwards only
    if it was clear before or the state is the one a completed
    [createGraph] left; and [shortestPath] and [getTree] called with the
    flag set run [createGraph] first and answer on the graph it built, with
    the flag cleared by it. *)
Theorem C8_dirty_cleared_only_by_rebuild :
  (forall o s, dirty (exec o s) = false ->
     dirty s = false \/ exists s0, createGraph s0 = (Ok tt, exec o s))
  /\ (forall s s1, createGraph s = (Ok tt, s1) -> dirty s1 = false)
  /\ (forall a b s, dirty s = true ->
        shortestPath a b s
        = after_rebuild (fun g => shortestPath_on g a b) s)
  /\ (forall n r s, dirty s = true ->
        getTree n r s = after_rebuild (fun g => getTree_on g n r) s).
Proof.
  split; [|split; [apply createGraph_Ok_clean|split]].
  - intros o s Hd.
    assert (Hkeep : forall (A : Type) (m : M A),
               keeps_dirty m -> dirty (m s).2 = false -> dirty s = false).
    { intros A m Hm H. by rewrite Hm in H. }
    assert (Hcreate : forall s0, dirty s0 = dirty s \/ dirty s0 = true ->
               dirty (createGraph s0).2 = false ->
               dirty s = false \/ exists s', createGraph s' = (Ok tt, (createGraph s0).2)).
    { intros s0 Hs0 H. destruct (createGraph s0) as [r s1] eqn:E. simpl in *.
      destruct (createGraph_cleared _ _ _ E H) as [H0| ->].
      - left. destruct Hs0; congruence.
      - right. by exists s0. }
    destruct o as [l|l| | | |name| | | | | |a b|n r| ]; simpl in Hd |- *.
    + (* setReachLayer *)
      revert Hd. unfold setReachLayer, mbind, M_bind, bind, modify, read.
      cbv beta iota.
      match goal with |- context [both_layers ?s3] => destruct (both_layers s3) end.
      * apply Hcreate. by right.
      * simpl. discriminate.
    + (* setNodeLayer *)
      revert Hd. unfold setNodeLayer, mbind, M_bind, bind, modify, read.
      cbv beta iota.
      match goal with |- context [both_layers ?s3] => destruct (both_layers s3) end.
      * apply Hcreate. by right.
      * simpl. discriminate.
    + left. apply (Hkeep _ _addVertices); [apply keeps_dirty_addVertices | done].
    + left. apply (Hkeep _ _addEdges); [apply keeps_dirty_addEdges | done].
    + (* refresh *)
      revert Hd. unfold refresh, mbind, M_bind, bind, modify, read, deref.
      destruct (nodeLayer s); cbn -[createGraph]; [|intros ?; by left].
      destruct (graph s); cbn -[createGraph]; [|intros ?; by left].
      apply Hcreate. by left.
    + left. apply (Hkeep _ (_profile name)); [apply keeps_dirty_profile | done].
    + apply Hcreate; [by left | done].
    + by left.
    + by left.
    + by left.
    + by left.
    + (* shortestPath *)
      revert Hd. unfold shortestPath, mbind, M_bind, bind, read, lift.
      cbv beta iota. destruct (dirty s) eqn:Hs; [|by left].
      intros Hd.
      assert (Hc : dirty (createGraph s).2 = false)
        by (destruct (createGraph s) as [[[]| |] s1]; exact Hd).
      destruct (Hcreate s (or_introl Hs) Hc) as [?|[s0 Hs0]]; [done|].
      right. exists s0. rewrite Hs0.
      destruct (createGraph s) as [[[]| |] s1]; reflexivity.
    + (* getTree *)
      revert Hd. unfold getTree, mbind, M_bind, bind, read, lift.
      cbv beta iota. destruct (dirty s) eqn:Hs; [|by left].
      intros Hd.
      assert (Hc : dirty (createGraph s).2 = false)
        by (destruct (createGraph s) as [[[]| |] s1]; exact Hd).
      destruct (Hcreate s (or_introl Hs) Hc) as [?|[s0 Hs0]]; [done|].
      right. exists s0. rewrite Hs0.
      destruct (createGraph s) as [[[]| |] s1]; reflexivity.
    + by left.
  - intros a b s Hs. unfold shortestPath, after_rebuild, mbind, M_bind, bind, read, lift.
    rewrite Hs. destruct (createGraph s) as [[[]| |] s1]; reflexivity.
  - intros n r s Hs. unfold getTree, after_rebuild, mbind, M_bind, bind, read, lift.
    rewrite Hs. destruct (createGraph s) as [[[]| |] s1]; reflexivity.
Qed.

Lemma C8_dirty_cleared_only_by_rebuild_witness :
  let s := with_layers nodes_ABC reaches_C7 in
  dirty s = true
  /\ shortestPath 1 2 s = after_rebuild (fun g => shortestPath_on g 1 2) s
  /\ dirty (shortestPath 1 2 s).2 = false.
Proof.
  split; [reflexivity|]. split.
  - apply (proj1 (proj2 (proj2 C8_dirty_cleared_only_by_rebuild))). reflexivity.
  - vm_compute. reflexivity.
Defined.

End Claims.

(** * Further properties of the code *)

Module Extras.
Import Qgis GraphManager GraphManagerFacts FeatureCacheFacts.

(** ** Layers used below *)

(** Two reaches between the same two nodes. *)
Definition reaches_parallel : list feature :=
  [Claims.reach_record 11 "AB1" "A" "B" 2; Claims.reach_record 12 "AB2" "A" "B" 7].

(** Two node records with one object id. *)
Definition nodes_AA : list feature :=
  [Claims.node_record 1 "A" (inl (0, 0)); Claims.node_record 2 "A" (inl (10, 0))].

(** ** The feature cache *)

(** X1: [addFeature] never raises, and afterwards the feature is found by
    its id and by the value of its object-id field, while every other key of
    the two dictionaries answers as before. *)
Theorem cache_add_then_lookup (feat : feature) (c : FeatureCache.t) :
  exists c' k,
    FeatureCache.addFeature feat c = Ok c'
    /\ FeatureCache.attrAsUnicode feat (FeatureCache.objIdField c) = Ok k
    /\ FeatureCache.featureById (fid feat) c' = Ok feat
    /\ FeatureCache.getitem (fid feat) c' = Ok feat
    /\ FeatureCache.featureByObjId k c' = Ok feat
    /\ (forall i, i <> fid feat ->
          FeatureCache.featureById i c' = FeatureCache.featureById i c)
    /\ (forall k', k' <> k ->
          FeatureCache.featureByObjId k' c' = FeatureCache.featureByObjId k' c).
Proof.
  eexists. exists (FeatureCache.attr_value feat (FeatureCache.objIdField c)).
  split; [apply addFeature_returns|].
  split; [apply attr_returns|].
  unfold FeatureCache.getitem, FeatureCache.featureById, FeatureCache.featureByObjId.
  simpl. rewrite !PyDictFacts.get_set_eq.
  repeat split; try done.
  - intros i Hi. by rewrite PyDictFacts.get_set_ne.
  - intros k' Hk. by rewrite PyDictFacts.get_set_ne.
Qed.

(** X2: a feature whose object-id field is missing or [NULL] is indexed
    under the key [None]: of two such features added one after the other,
    the lookup by object id [None] finds the second, and both are still
    found by their ids. *)
Theorem cache_null_object_ids_collide (f1 f2 : feature) (c : FeatureCache.t) :
  FeatureCache.attr f1 (FeatureCache.objIdField c) = Ok None ->
  FeatureCache.attr f2 (FeatureCache.objIdField c) = Ok None ->
  fid f1 <> fid f2 ->
  exists c2,
    FeatureCache.addFeatures [f1; f2] c = Ok c2
    /\ FeatureCache.featureByObjId None c2 = Ok f2
    /\ FeatureCache.featureById (fid f1) c2 = Ok f1
    /\ FeatureCache.featureById (fid f2) c2 = Ok f2.
Proof.
  rewrite !attr_returns. intros [= H1] [= H2] Hne.
  cbn [FeatureCache.addFeatures]. rewrite addFeature_returns.
  cbn [mbind outcome_bind obind]. rewrite addFeature_returns.
  cbn [mbind outcome_bind obind]. eexists. split; [reflexivity|].
  unfold FeatureCache.featureById, FeatureCache.featureByObjId. simpl.
  rewrite H1, H2, !PyDictFacts.get_set_eq.
  rewrite PyDictFacts.get_set_ne by done. rewrite PyDictFacts.get_set_eq. done.
Qed.

Lemma cache_null_object_ids_collide_witness :
  let f1 := mkFeature 1 [("obj_id", VNull)] (inr AttributeError) in
  let f2 := mkFeature 2 [("name", VStr "no object id")] (inr AttributeError) in
  exists c2,
    FeatureCache.addFeatures [f1; f2] (FeatureCache.init None "obj_id") = Ok c2
    /\ FeatureCache.featureByObjId None c2 = Ok f2
    /\ FeatureCache.featureById 1 c2 = Ok f1
    /\ FeatureCache.featureById 2 c2 = Ok f2.
Proof.
  intros f1 f2.
  apply (cache_null_object_ids_collide f1 f2 (FeatureCache.init None "obj_id"));
    [reflexivity | reflexivity | discriminate].
Defined.

(** X3: [attr] never raises; it returns [None] exactly when the record has
    no such field or the field is [NULL], and the field's value otherwise. *)
Theorem attr_never_raises (feat : feature) (name : string) :
  exists o,
    FeatureCache.attr feat name = Ok o
    /\ (o = None <->
          field feat name = Raise KeyError \/ field feat name = Ok VNull)
    /\ (forall v, o = Some v <-> field feat name = Ok v /\ v <> VNull).
Proof.
  exists (FeatureCache.attr_value feat name). split; [apply attr_returns|].
  unfold FeatureCache.attr_value, field.
  destruct (PyDict.get name (attributes feat)) as [[|z|s|x y]|]; simpl.
  all: split; [split; [intros ?; by eauto | intros [?|?]; by simplify_eq]|].
  all: intros v; split; [intros ?; by simplify_eq | intros [? ?]; by simplify_eq].
Qed.

(** X4: [getFeaturesById] never raises; every feature its cache returns
    comes from the layer, has the id asked for and an id among [ids]; an id
    outside [ids] is a [KeyError]; and every record of the layer whose id is
    among [ids] has an entry under its id. *)
Theorem getFeaturesById_contents (l : layer) (ids : list Z) :
  exists c,
    getFeaturesById l ids = Ok c
    /\ (forall i f, FeatureCache.featureById i c = Ok f ->
          f ∈ features l /\ fid f = i /\ i ∈ ids)
    /\ (forall i, i ∉ ids -> FeatureCache.featureById i c = Raise KeyError)
    /\ (forall f, f ∈ features l -> fid f ∈ ids ->
          exists f', FeatureCache.featureById (fid f) c = Ok f'
                     /\ f' ∈ features l /\ fid f' = fid f).
Proof.
  unfold getFeaturesById.
  destruct (addFeatures_spec (filter (fun feat => fid feat ∈ ids) (features l))
              (FeatureCache.init (Some l) "obj_id"))
    as (c & Hrun & _ & Hfrom & _ & Hall).
  exists c. split; [done|].
  assert (Hby : forall i f, FeatureCache.featureById i c = Ok f ->
                  f ∈ features l /\ fid f = i /\ i ∈ ids).
  { intros i f Hf. unfold FeatureCache.featureById in Hf.
    destruct (PyDict.get i (FeatureCache._featuresById c)) as [g|] eqn:Hg;
      simplify_eq/=.
    destruct (Hfrom _ _ Hg) as [[Hin <-]|?]; [|done].
    apply list_elem_of_filter in Hin as [? ?]. done. }
  split; [done|]. split.
  - intros i Hi. unfold FeatureCache.featureById.
    destruct (PyDict.get i (FeatureCache._featuresById c)) as [g|] eqn:Hg; [|done].
    destruct (Hby i g) as (_ & _ & ?); [|done].
    unfold FeatureCache.featureById. by rewrite Hg.
  - intros f Hf Hid. destruct (Hall f) as (f' & Hf' & Hin & Hfid).
    { by apply list_elem_of_filter. }
    exists f'. unfold FeatureCache.featureById. rewrite Hf'.
    apply list_elem_of_filter in Hin as [? ?]. done.
Qed.


(** X6: [attrAsGeometry] parses the text after the last semicolon: a text
    made of a prefix, a semicolon and a rest without semicolon (all on one
    line) is parsed as the rest, a one-line text without semicolon is
    parsed as it is, and a field that holds no text ([NULL], missing, a
    number) is a [TypeError]. *)
Theorem attrAsGeometry_strips_prefix {geometry : Type}
    (fromWkt : string -> geometry) (feat : feature) (name : string) :
  (forall p w,
     field feat name = Ok (VStr (p +:+ ";" +:+ w)) ->
     "010"%char ∉ String.list_ascii_of_string p ->
     "010"%char ∉ String.list_ascii_of_string w ->
     ";"%char ∉ String.list_ascii_of_string w ->
     FeatureCache.attrAsGeometry fromWkt feat name = Ok (fromWkt w))
  /\ (forall w,
        field feat name = Ok (VStr w) ->
        "010"%char ∉ String.list_ascii_of_string w ->
        ";"%char ∉ String.list_ascii_of_string w ->
        FeatureCache.attrAsGeometry fromWkt feat name = Ok (fromWkt w))
  /\ ((forall s, field feat name <> Ok (VStr s)) ->
      FeatureCache.attrAsGeometry fromWkt feat name = Raise TypeError).
Proof.
  unfold FeatureCache.attrAsGeometry, FeatureCache.attrAsUnicode.
  rewrite attr_returns. cbn [mbind outcome_bind obind].
  unfold FeatureCache.attr_value, field.
  destruct (PyDict.get name (attributes feat)) as [[|z|s|x y]|]; simpl.
  all: split; [|split]; try (intros; by simplify_eq).
  - intros p w [= ->] Hp Hw Hsemi. f_equal. f_equal.
    unfold FeatureCache.srid_stripped.
    rewrite !list_ascii_of_string_app. simpl.
    rewrite first_line_id.
    + rewrite after_last_semicolon_app by done.
      apply String.string_of_list_ascii_of_string.
    + rewrite elem_of_app, elem_of_cons. intros [?|[?|?]]; done.
  - intros w [= ->] Hw Hsemi. f_equal. f_equal.
    unfold FeatureCache.srid_stripped.
    rewrite first_line_id, after_last_semicolon_id by done.
    apply String.string_of_list_ascii_of_string.
  - intros H. by destruct (H s).
Qed.

Lemma attrAsGeometry_strips_prefix_witness :
  let feat := mkFeature 1 [("geom", VStr "SRID=21781;POINT(1 2)")] (inr AttributeError) in
  FeatureCache.attrAsGeometry (fun wkt => wkt) feat "geom" = Ok "POINT(1 2)".
Proof.
  intros feat.
  apply (proj1 (attrAsGeometry_strips_prefix (fun wkt => wkt) feat "geom")
           "SRID=21781" "POINT(1 2)"); [reflexivity| | |];
    vm_compute; intros H; repeat (apply elem_of_cons in H as [H|H]; [discriminate|]);
    by apply elem_of_nil in H.
Defined.

(** ** Shortest paths and trees *)

(** X7: what [shortestPath] returns on a built graph is either the empty
    result or a path of the graph: the node sequence starts at the start
    node, ends at the end node and follows edges, and the edge list holds,
    for each step of the sequence in order, the two nodes and the attributes
    of the edge between them.  The manager is left as it was. *)
Theorem shortestPath_returns_a_path (s s' : t) (G : Nx.DiGraph) (a b : Z)
    (path : list Z) (edges : list (Z * Z * Nx.attrs)) :
  dirty s = false ->
  graph s = Some G ->
  shortestPath a b s = (Ok (path, edges), s') ->
  s' = s
  /\ ((path = [] /\ edges = [])
      \/ (Nx.path_from_to G a b path
          /\ Forall2 (fun uv e => e.1 = uv /\ Nx.edge_data G uv.1 uv.2 = Ok e.2)
                     (zip_next path) edges)).
Proof.
  intros Hd Hg. unfold shortestPath, mbind, M_bind, bind, read, lift.
  rewrite Hd. cbn -[shortestPath_on]. rewrite Hg. intros [= Hrun <-].
  split; [done|]. unfold shortestPath_on in Hrun.
  destruct (Nx.dijkstra_path G a b) as [p| |] eqn:Hp;
    cbn [mbind outcome_bind obind try_except] in Hrun.
  - match type of Hrun with
    | context [comprehension ?f ?l] =>
        destruct (comprehension f l) as [es| |] eqn:Hes
    end; cbn in Hrun;
      [|case_decide; [|done]; injection Hrun as <- <-; by left|done].
    injection Hrun as <- <-. right.
    split; [by apply NxFacts.dijkstra_path_sound|].
    apply comprehension_Forall2 in Hes.
    eapply Forall2_impl; [exact Hes|]. intros [u v] e He. simpl in *.
    destruct (Nx.edge_data G u v) as [d| |]; simplify_eq/=. done.
  - case_decide; [|done]. injection Hrun as <- <-. by left.
  - done.
Qed.

Lemma shortestPath_returns_a_path_witness :
  let s := (createGraph (Claims.with_layers Claims.nodes_ABC Claims.reaches_C1)).2 in
  exists G, graph s = Some G /\ Nx.path_from_to G 1 3 [1; 2; 3].
Proof.
  intros s.
  pose (G := default Nx.empty (graph s)).
  pose (r := default ([], []) (match (shortestPath 1 3 s).1 with
                               | Ok r => Some r | _ => None end)).
  assert (Hg : graph s = Some G) by (vm_compute; reflexivity).
  exists G. split; [exact Hg|].
  destruct (shortestPath_returns_a_path s s G 1 3 [1; 2; 3] r.2)
    as [_ [[? _]|[Hpath _]]]; [| | |done|done].
  - vm_compute. reflexivity.
  - exact Hg.
  - vm_compute. reflexivity.
Defined.

(** X24: on a built graph that is well formed and whose weights are
    numbers and not negative, [shortestPath] finds a path whenever one
    leads from the start node, a node of the graph, to the end node: it
    returns a node sequence that is such a path, and changes nothing. *)
Theorem shortestPath_finds_a_path (s : t) (G : Nx.DiGraph) (a b : Z) :
  dirty s = false ->
  graph s = Some G ->
  Nx.wf G ->
  Nx.nonneg_weights G ->
  Nx.has_node a G = true ->
  Nx.reachable G a b ->
  exists path edges,
    shortestPath a b s = (Ok (path, edges), s)
    /\ Nx.path_from_to G a b path.
Proof.
  intros Hd Hg Hwf Hw Ha Hreach.
  destruct (NxFacts.dijkstra_path_complete G a Hwf Hw b Ha Hreach) as [p Hp].
  pose proof (NxFacts.dijkstra_path_sound _ _ _ _ Hp) as Hpath.
  destruct (walk_edges_Ok G p) as [es Hes]; [apply Hpath|].
  exists p, es. split; [|done].
  unfold shortestPath, mbind, M_bind, bind, read, lift.
  rewrite Hd. cbn -[shortestPath_on]. rewrite Hg. unfold shortestPath_on.
  rewrite Hp. cbn [mbind outcome_bind obind]. rewrite Hes. reflexivity.
Qed.

Lemma shortestPath_finds_a_path_witness :
  let s := (createGraph (Claims.with_layers Claims.nodes_ABC Claims.reaches_C1)).2 in
  exists path edges, shortestPath 1 3 s = (Ok (path, edges), s).
Proof.
  intros s.
  pose (G := default Nx.empty (graph s)).
  assert (Hg : graph s = Some G) by (vm_compute; reflexivity).
  destruct (shortestPath_finds_a_path s G 1 3) as (path & edges & Hrun & _).
  - vm_compute. reflexivity.
  - exact Hg.
  - exact (createGraph_wf _ G Hg).
  - apply NxFacts.weights_checked_nonneg. vm_compute. reflexivity.
  - vm_compute. reflexivity.
  - apply (Nx.reachable_step G 1 2 3).
    + apply (Nx.reachable_step G 1 1 2); [constructor|].
      eexists. vm_compute. reflexivity.
    + eexists. vm_compute. reflexivity.
  - by exists path, edges.
Defined.

(** X25: on a built graph that is well formed and whose weights are
    numbers and not negative, the path [shortestPath] returns is a
    shortest one: no path of the graph from the start node to the end node
    has a smaller sum of weights. *)
Theorem shortestPath_is_shortest (s s' : t) (G : Nx.DiGraph) (a b : Z)
    (path : list Z) (edges : list (Z * Z * Nx.attrs)) (q : list Z) :
  dirty s = false ->
  graph s = Some G ->
  Nx.wf G ->
  Nx.nonneg_weights G ->
  shortestPath a b s = (Ok (path, edges), s') ->
  Nx.path_from_to G a b q ->
  Nx.path_weight G path <= Nx.path_weight G q.
Proof.
  intros Hd Hg Hwf Hw. unfold shortestPath, mbind, M_bind, bind, read, lift.
  rewrite Hd. cbn -[shortestPath_on]. rewrite Hg. intros [= Hrun <-] Hq.
  unfold shortestPath_on in Hrun.
  assert (Hempty : Nx.path_weight G [] <= Nx.path_weight G q).
  { simpl. apply NxFacts.path_weight_nonneg; [done|apply Hq]. }
  destruct (Nx.dijkstra_path G a b) as [p| |] eqn:Hp;
    cbn [mbind outcome_bind obind try_except] in Hrun.
  - match type of Hrun with
    | context [comprehension ?f ?l] =>
        destruct (comprehension f l) as [es| |] eqn:Hes
    end; cbn in Hrun;
      [|case_decide; [|done]; by injection Hrun as <- <-|done].
    injection Hrun as <- <-.
    by eapply NxFacts.dijkstra_path_shortest.
  - case_decide; [|done]. by injection Hrun as <- <-.
  - done.
Qed.

Lemma shortestPath_is_shortest_witness :
  let s := (createGraph (Claims.with_layers Claims.nodes_ABC Claims.reaches_C7)).2 in
  exists G,
    graph s = Some G
    /\ Nx.path_weight G [1; 2] <= Nx.path_weight G [1; 3; 2].
Proof.
  intros s.
  pose (G := default Nx.empty (graph s)).
  pose (r := default ([], []) (match (shortestPath 1 2 s).1 with
                               | Ok r => Some r | _ => None end)).
  assert (Hg : graph s = Some G) by (vm_compute; reflexivity).
  exists G. split; [exact Hg|].
  apply (shortestPath_is_shortest s s G 1 2 [1; 2] r.2 [1; 3; 2]).
  - vm_compute. reflexivity.
  - exact Hg.
  - exact (createGraph_wf _ G Hg).
  - apply NxFacts.weights_checked_nonneg. vm_compute. reflexivity.
  - vm_compute. reflexivity.
  - split; [reflexivity|]. split; [reflexivity|]. split.
    + eexists. vm_compute. reflexivity.
    + split; [|done]. eexists. vm_compute. reflexivity.
Defined.

(** X8: asked for the path from a node to itself, [shortestPath] returns
    the one-node path with no edge, whether or not the node is in the graph
    and even when the manager holds no graph. *)
Theorem shortestPath_to_itself (s : t) (a : Z) :
  dirty s = false ->
  shortestPath a a s = (Ok ([a], []), s).
Proof.
  intros Hd. unfold shortestPath, mbind, M_bind, bind, read, lift.
  rewrite Hd. cbn -[shortestPath_on]. unfold shortestPath_on, Nx.dijkstra_path.
  destruct (graph s); rewrite decide_True by done; reflexivity.
Qed.

Lemma shortestPath_to_itself_witness :
  shortestPath 42 42 (set_dirty false initial) = (Ok ([42], []), set_dirty false initial).
Proof. apply (shortestPath_to_itself (set_dirty false initial) 42). reflexivity. Defined.

(** X9: the two searches end on every graph: whatever the state of the
    manager, a call of [shortestPath], [getTree] or [createGraph] returns or
    raises, the loops of the library never running out of steps. *)
Theorem queries_return_or_raise (s : t) (a b n : Z) (r : bool) :
  (shortestPath a b s).1 <> OutOfFuel
  /\ (getTree n r s).1 <> OutOfFuel
  /\ (createGraph s).1 <> OutOfFuel.
Proof.
  destruct (queries_end s a b n r) as [H1 H2].
  split; [done|]. split; [done|]. apply ends_createGraph.
Qed.

(** X10: [getTree] on a node that is not in the graph raises
    [NodeNotFound], in either direction, and leaves the manager as it
    was. *)
Theorem getTree_unknown_node (s : t) (G : Nx.DiGraph) (n : Z) (reverse : bool) :
  dirty s = false ->
  graph s = Some G ->
  Nx.wf G ->
  Nx.has_node n G = false ->
  getTree n reverse s = (Raise NodeNotFound, s).
Proof.
  intros Hd Hg Hwf Hn. unfold getTree, mbind, M_bind, bind, read, lift.
  rewrite Hd. cbn -[getTree_on]. rewrite Hg. unfold getTree_on.
  cbn [mbind outcome_bind obind].
  unfold Nx.bellman_ford_predecessor_and_distance.
  destruct reverse; [rewrite NxFacts.has_node_reverse by done|]; by rewrite Hn.
Qed.

Lemma getTree_unknown_node_witness :
  let s := (createGraph (Claims.with_layers Claims.nodes_ABC Claims.reaches_C1)).2 in
  getTree 9 true s = (Raise NodeNotFound, s).
Proof.
  intros s.
  pose (G := default Nx.empty (graph s)).
  assert (Hg : graph s = Some G) by (vm_compute; reflexivity).
  apply (getTree_unknown_node s G 9 true); [|exact Hg| |].
  - vm_compute. reflexivity.
  - exact (createGraph_wf _ G Hg).
  - vm_compute. reflexivity.
Defined.

(** ** What a rebuild puts into the graph *)

(** X11: after a [createGraph] that returned, the nodes of the graph are
    exactly the feature ids of the records of the node layer (a reach adds
    no node), and every entry of the object-id index maps the text of a
    node record's object id to that record's feature id. *)
Theorem createGraph_nodes (s s' : t) (nl : layer) :
  nodeLayer s = Some nl ->
  createGraph s = (Ok tt, s') ->
  exists G,
    graph s' = Some G
    /\ (forall n, Nx.has_node n G = true <-> n ∈ fid <$> features nl)
    /\ (forall k n, vertexIds s' !! k = Some n ->
          exists feat obj_id,
            feat ∈ features nl /\ field feat "obj_id" = Ok obj_id
            /\ str obj_id = k /\ fid feat = n).
Proof.
  intros Hnl Hrun.
  apply createGraph_Ok_nodes in Hrun
    as (nl' & rl & s0 & s1 & G1 & Hnl' & Hrl & Hg0 & Hids0 & Hloop & Hg1 & Hg'
        & Hids' & Hnodes & He & Hdesc & Hends).
  rewrite Hnl in Hnl'. injection Hnl' as <-.
  eexists. split; [exact Hg'|]. split.
  - intros n. destruct (add_edges_nodes _ _ Hends n) as [-> _]. apply Hnodes.
  - intros k n Hk. rewrite Hids' in Hk.
    destruct (addVertices_loop_index _ _ _ _ _ _ Hloop Hk) as [Hold|?]; [|done].
    by rewrite Hids0, lookup_empty in Hold.
Qed.

Lemma createGraph_nodes_witness :
  let s := Claims.with_layers Claims.nodes_ABC Claims.reaches_C5 in
  exists G,
    graph (createGraph s).2 = Some G
    /\ Nx.has_node 3 G = true /\ Nx.has_node 4 G = false.
Proof.
  intros s.
  destruct (createGraph_nodes s (createGraph s).2 (mkLayer "nodes" Claims.nodes_ABC))
    as (G & Hg & Hn & _).
  - reflexivity.
  - vm_compute. reflexivity.
  - exists G. split; [done|]. split.
    + apply Hn. by apply (bool_decide_unpack _).
    + apply not_true_is_false. rewrite Hn. by apply (bool_decide_unpack _).
Defined.

(** X12: after a [createGraph] that returned, the node of a record of the
    node layer (the last record, should several have one feature id) has
    exactly the attributes point, objType and objId, with the record's type
    and object id, and the record's own point when it has one. *)
Theorem createGraph_node_attributes (s s' : t) (nl : layer)
    (l1 l2 : list feature) (feat : feature) :
  nodeLayer s = Some nl ->
  createGraph s = (Ok tt, s') ->
  features nl = l1 ++ feat :: l2 ->
  fid feat ∉ fid <$> l2 ->
  exists G x y obj_id obj_type,
    graph s' = Some G
    /\ field feat "obj_id" = Ok obj_id
    /\ field feat "type" = Ok obj_type
    /\ (forall p, asPoint feat = inl p -> p = (x, y))
    /\ Nx.node G (fid feat)
       = Ok [("point", VPoint x y); ("objType", obj_type); ("objId", obj_id)].
Proof.
  intros Hnl Hrun Hsplit Hlast.
  apply createGraph_Ok_nodes in Hrun
    as (nl' & rl & s0 & s1 & G1 & Hnl' & Hrl & Hg0 & Hids0 & Hloop & Hg1 & Hg'
        & Hids' & Hnodes & He & Hdesc & Hends).
  rewrite Hnl in Hnl'. injection Hnl' as <-.
  destruct (addVertices_loop_node_last _ _ _ _ _ _ _ _ _ Hg0
              nodes_described_empty Hloop Hg1 Hsplit Hlast)
    as (x & y & oid & ty & E1 & E2 & Hp & Hnode).
  eexists _, x, y, oid, ty. split; [exact Hg'|]. split_and!; try done.
  destruct (add_edges_nodes _ _ Hends (fid feat)) as [_ ->]. exact Hnode.
Qed.

Lemma createGraph_node_attributes_witness :
  let s := Claims.with_layers Claims.nodes_ABC Claims.reaches_C1 in
  exists G,
    graph (createGraph s).2 = Some G
    /\ Nx.node G 2 = Ok [("point", VPoint 10 0);
                         ("objType", VStr "wastewater_node");
                         ("objId", VStr "B")].
Proof.
  intros s.
  destruct (createGraph_node_attributes s (createGraph s).2
              (mkLayer "nodes" Claims.nodes_ABC)
              [Claims.node_record 1 "A" (inl (0, 0))]
              [Claims.node_record 3 "C" (inl (5, 5))]
              (Claims.node_record 2 "B" (inl (10, 0))))
    as (G & x & y & oid & ty & Hg & E1 & E2 & Hp & Hnode).
  - reflexivity.
  - vm_compute. reflexivity.
  - reflexivity.
  - by apply (bool_decide_unpack _).
  - exists G. split; [exact Hg|].
    injection E1 as <-. injection E2 as <-.
    specialize (Hp (10, 0) eq_refl). injection Hp as <- <-. exact Hnode.
Defined.

(** X13: after a [createGraph] that returned, the index maps the text of a
    node record's object id to the feature id of the last record with that
    text: of two node records with one object id, reaches attach to the
    later. *)
Theorem createGraph_index_last_wins (s s' : t) (nl : layer)
    (l1 l2 : list feature) (feat : feature) (obj_id : value) :
  nodeLayer s = Some nl ->
  createGraph s = (Ok tt, s') ->
  features nl = l1 ++ feat :: l2 ->
  field feat "obj_id" = Ok obj_id ->
  (forall f o, f ∈ l2 -> field f "obj_id" = Ok o -> str o <> str obj_id) ->
  vertexIds s' !! str obj_id = Some (fid feat).
Proof.
  intros Hnl Hrun Hsplit Hoid Hlast.
  apply createGraph_Ok in Hrun
    as (nl' & rl & s0 & s1 & G1 & Hnl' & Hrl & Hg0 & Hids0 & Hloop & Hg1 & Hg' & Hids').
  rewrite Hnl in Hnl'. injection Hnl' as <-. rewrite Hids'.
  by eapply addVertices_loop_index_last.
Qed.

Lemma createGraph_index_last_wins_witness :
  vertexIds (createGraph (Claims.with_layers nodes_AA Claims.reaches_C1)).2 !! "A"
  = Some 2.
Proof.
  apply (createGraph_index_last_wins
           (Claims.with_layers nodes_AA Claims.reaches_C1) _
           (mkLayer "nodes" nodes_AA)
           [Claims.node_record 1 "A" (inl (0, 0))] []
           (Claims.node_record 2 "A" (inl (10, 0))) (VStr "A")).
  - reflexivity.
  - vm_compute. reflexivity.
  - reflexivity.
  - reflexivity.
  - intros f o Hin. by apply elem_of_nil in Hin.
Defined.

(** X14: after a [createGraph] that returned, the graph has an edge from
    one node to another exactly when a record of the reach layer stands for
    that edge: the record has its five fields and its two ends are in the
    index. *)
Theorem createGraph_edges (s s' : t) (rl : layer) (G : Nx.DiGraph) (u v : Z) :
  reachLayer s = Some rl ->
  createGraph s = (Ok tt, s') ->
  graph s' = Some G ->
  Nx.has_edge G u v <->
  exists feat a, feat ∈ features rl /\ reach_edge (vertexIds s') feat = Some (u, v, a).
Proof.
  intros Hrl Hrun Hg.
  apply createGraph_Ok_nodes in Hrun
    as (nl & rl' & s0 & s1 & G1 & Hnl & Hrl' & Hg0 & Hids0 & Hloop & Hg1 & Hg'
        & Hids' & Hnodes & He & Hdesc & Hends).
  rewrite Hrl in Hrl'. injection Hrl' as <-.
  rewrite Hg in Hg'. injection Hg' as ->.
  rewrite add_edges_has_edge. split.
  - intros [[a Ha]|[a Hin]]; [by rewrite He in Ha|].
    apply list_elem_of_omap in Hin as (f & Hin & Hf). eauto.
  - intros (f & a & Hin & Hf). right. exists a.
    apply list_elem_of_omap. eauto.
Qed.

Lemma createGraph_edges_witness :
  let s := (createGraph (Claims.with_layers Claims.nodes_ABC Claims.reaches_C5)).2 in
  exists G, graph s = Some G /\ Nx.has_edge G 3 2 /\ ~ Nx.has_edge G 1 3.
Proof.
  intros s.
  pose (G := default Nx.empty (graph s)).
  assert (Hg : graph s = Some G) by (vm_compute; reflexivity).
  pose proof (createGraph_edges
                (Claims.with_layers Claims.nodes_ABC Claims.reaches_C5) s
                (mkLayer "reaches" Claims.reaches_C5) G) as Hedges.
  exists G. split; [exact Hg|]. split.
  - apply Hedges; [reflexivity|vm_compute; reflexivity|exact Hg|].
    exists (Claims.reach_record 13 "CB" "C" "B" 1). eexists. split.
    + simpl. unfold Claims.reaches_C5. repeat constructor.
    + vm_compute. reflexivity.
  - intros Hedge.
    apply Hedges in Hedge as (f & a & Hin & Hf);
      [|reflexivity|vm_compute; reflexivity|exact Hg].
    simpl in Hin. unfold Claims.reaches_C5 in Hin.
    repeat (apply elem_of_cons in Hin as [->|Hin]; [vm_compute in Hf; discriminate|]).
    by apply elem_of_nil in Hin.
Defined.

(** X15: of several records of the reach layer between the same two nodes,
    the graph keeps one edge, with the attributes of the last of them: its
    length is the weight, whether or not it is the shortest. *)
Theorem createGraph_last_reach_wins (s s' : t) (rl : layer) (G : Nx.DiGraph)
    (l1 l2 : list feature) (feat : feature) (u v : Z) (a : Nx.attrs) :
  reachLayer s = Some rl ->
  createGraph s = (Ok tt, s') ->
  graph s' = Some G ->
  features rl = l1 ++ feat :: l2 ->
  reach_edge (vertexIds s') feat = Some (u, v, a) ->
  (forall f a', f ∈ l2 -> reach_edge (vertexIds s') f <> Some (u, v, a')) ->
  Nx.edge_data G u v = Ok a.
Proof.
  intros Hrl Hrun Hg Hsplit Hfeat Hlast.
  apply createGraph_Ok_nodes in Hrun
    as (nl & rl' & s0 & s1 & G1 & Hnl & Hrl' & Hg0 & Hids0 & Hloop & Hg1 & Hg'
        & Hids' & Hnodes & He & Hdesc & Hends).
  rewrite Hrl in Hrl'. injection Hrl' as <-.
  rewrite Hg in Hg'. injection Hg' as ->.
  eapply (add_edges_last _ _ (omap (reach_edge (vertexIds s')) l1) u v a
            (omap (reach_edge (vertexIds s')) l2)).
  - intros x y d Hd. by rewrite He in Hd.
  - intros x y d Hin. apply list_elem_of_omap in Hin as (f & _ & Hf).
    by eapply reach_edge_keys.
  - rewrite Hsplit, omap_app. csimpl. by rewrite Hfeat.
  - intros a' Hin. apply list_elem_of_omap in Hin as (f & Hin & Hf).
    by apply (Hlast f a').
Qed.

Lemma createGraph_last_reach_wins_witness :
  let s := (createGraph (Claims.with_layers Claims.nodes_ABC reaches_parallel)).2 in
  exists G,
    graph s = Some G
    /\ Nx.edge_data G 1 2 = Ok [("weight", VInt 7); ("feature", VInt 12);
                                ("baseFeature", VStr "AB2"); ("objType", VStr "reach")].
Proof.
  intros s.
  pose (G := default Nx.empty (graph s)).
  assert (Hg : graph s = Some G) by (vm_compute; reflexivity).
  exists G. split; [exact Hg|].
  apply (createGraph_last_reach_wins
           (Claims.with_layers Claims.nodes_ABC reaches_parallel) s
           (mkLayer "reaches" reaches_parallel) G
           [Claims.reach_record 11 "AB1" "A" "B" 2] []
           (Claims.reach_record 12 "AB2" "A" "B" 7)).
  - reflexivity.
  - vm_compute. reflexivity.
  - exact Hg.
  - reflexivity.
  - vm_compute. reflexivity.
  - intros f a' Hin. by apply elem_of_nil in Hin.
Defined.

(** X22: [createGraph] returns exactly when both layers are set, every
    record of the node layer has the fields obj_id and type and a point
    that can be read or whose reading raises [AttributeError], and the
    first record has a point; the records of the reach layer play no part.
    In every other case it raises and leaves the flag as it was. *)
Theorem createGraph_returns_exactly_when (s : t) :
  ((exists s', createGraph s = (Ok tt, s')) <->
   exists nl rl,
     nodeLayer s = Some nl /\ reachLayer s = Some rl
     /\ Forall node_record_ok (features nl)
     /\ (forall f, head (features nl) = Some f -> has_point f))
  /\ ((createGraph s).1 = Ok tt
      \/ exists e, (createGraph s).1 = Raise e
                   /\ dirty (createGraph s).2 = dirty s).
Proof.
  split; [apply createGraph_returns_iff|].
  pose proof (createGraph_dirty s) as Hd.
  pose proof (ends_createGraph s) as He.
  destruct ((createGraph s).1) as [[]|e|]; [by left|right; eauto|done].
Qed.

Lemma createGraph_returns_exactly_when_witness :
  exists s',
    createGraph (Claims.with_layers nodes_AA reaches_parallel) = (Ok tt, s').
Proof.
  apply (proj1 (createGraph_returns_exactly_when
                  (Claims.with_layers nodes_AA reaches_parallel))).
  exists (mkLayer "nodes" nodes_AA), (mkLayer "reaches" reaches_parallel).
  split; [reflexivity|]. split; [reflexivity|]. split.
  - repeat constructor; try (by eexists); intros e He; discriminate.
  - intros f [= <-]. by eexists.
Defined.

(** X23: a node record whose point cannot be read is given the point of
    the closest record before it that has one: after a [createGraph] that
    returned, its node carries that earlier record's point. *)
Theorem node_without_point_takes_previous (s s' : t) (nl : layer)
    (l0 mid l2 : list feature) (f0 feat : feature) (p : Z * Z) :
  nodeLayer s = Some nl ->
  createGraph s = (Ok tt, s') ->
  features nl = l0 ++ f0 :: mid ++ feat :: l2 ->
  asPoint f0 = inl p ->
  (forall f, f ∈ mid -> ~ has_point f) ->
  ~ has_point feat ->
  fid feat ∉ fid <$> l2 ->
  exists G obj_id obj_type,
    graph s' = Some G
    /\ field feat "obj_id" = Ok obj_id
    /\ field feat "type" = Ok obj_type
    /\ Nx.node G (fid feat)
       = Ok [("point", VPoint p.1 p.2); ("objType", obj_type); ("objId", obj_id)].
Proof.
  intros Hnl Hrun Hsplit Hp0 Hmid Hfeat Hlast.
  apply createGraph_Ok_nodes in Hrun
    as (nl' & rl & s0 & s1 & G1 & Hnl' & Hrl & Hg0 & Hids0 & Hloop & Hg1 & Hg'
        & Hids' & Hnodes & He & Hdesc & Hends).
  rewrite Hnl in Hnl'. injection Hnl' as <-.
  destruct (addVertices_loop_previous_point _ _ _ _ _ _ _ _ _ _ _ _ Hg0
              nodes_described_empty Hloop Hg1 Hsplit Hp0 Hmid Hfeat Hlast)
    as (oid & ty & E1 & E2 & Hnode).
  eexists _, oid, ty. split; [exact Hg'|]. split_and!; try done.
  destruct (add_edges_nodes _ _ Hends (fid feat)) as [_ ->]. exact Hnode.
Qed.

Lemma node_without_point_takes_previous_witness :
  let nodes := [Claims.node_record 1 "A" (inl (0, 0));
                Claims.node_record 2 "B" (inr AttributeError)] in
  exists G,
    graph (createGraph (Claims.with_layers nodes Claims.reaches_C1)).2 = Some G
    /\ Nx.node G 2 = Ok [("point", VPoint 0 0);
                         ("objType", VStr "wastewater_node");
                         ("objId", VStr "B")].
Proof.
  intros nodes.
  destruct (node_without_point_takes_previous
              (Claims.with_layers nodes Claims.reaches_C1)
              (createGraph (Claims.with_layers nodes Claims.reaches_C1)).2
              (mkLayer "nodes" nodes) [] [] []
              (Claims.node_record 1 "A" (inl (0, 0)))
              (Claims.node_record 2 "B" (inr AttributeError)) (0, 0))
    as (G & oid & ty & Hg & E1 & E2 & Hnode).
  - reflexivity.
  - vm_compute. reflexivity.
  - reflexivity.
  - reflexivity.
  - intros f Hf. by apply elem_of_nil in Hf.
  - intros [p Hp]. discriminate.
  - apply not_elem_of_nil.
  - exists G. split; [exact Hg|].
    injection E1 as <-. injection E2 as <-. exact Hnode.
Defined.

(** ** The manager over any sequence of calls *)

(** X16: after any sequence of method calls on a new manager, whether they
    returned or raised, the graph the manager holds is well formed, every
    entry of the object-id index points at a node of the graph, every node
    has exactly the attributes point, objType and objId, and every edge
    exactly weight, feature, baseFeature and objType. *)
Theorem run_invariants (ops : list op) :
  graph_wf (run ops)
  /\ index_valid (run ops)
  /\ graph_described (run ops).
Proof.
  induction ops as [|o ops IH] using rev_ind.
  - split; [apply initial_graph_wf|]. split.
    + intros G k n Hg. discriminate.
    + intros G Hg. discriminate.
  - rewrite run_snoc. destruct IH as [Hwf Hdesc].
    split; [by apply exec_graph_wf|].
    apply (inv_exec (fun s => index_valid s /\ graph_described s)); try done.
    + apply described_frame.
    + apply described_reset.
    + apply described_addVertex.
    + apply described_addEdge.
Qed.

(** X17: what a rebuild leaves depends on the two layers only: from two
    managers with the same layers, whatever their graphs, indexes, flags
    and timings, [createGraph] ends the same way and leaves the same graph,
    the same index and the same nodes on structures. *)
Theorem createGraph_reads_layers_only (s s' : t) :
  nodeLayer s = nodeLayer s' ->
  reachLayer s = reachLayer s' ->
  (createGraph s).1 = (createGraph s').1
  /\ graph (createGraph s).2 = graph (createGraph s').2
  /\ vertexIds (createGraph s).2 = vertexIds (createGraph s').2
  /\ nodesOnStructure (createGraph s).2 = nodesOnStructure (createGraph s').2.
Proof.
  intros Hn Hr.
  destruct (createGraph_layers_only s s' Hn Hr) as [Ho (_ & _ & Hg & Hv & Hs)].
  done.
Qed.

Lemma createGraph_reads_layers_only_witness :
  let s := Claims.with_layers Claims.nodes_ABC Claims.reaches_C7 in
  (createGraph (createGraph s).2).1 = (createGraph s).1
  /\ graph (createGraph (createGraph s).2).2 = graph (createGraph s).2.
Proof.
  intros s.
  destruct (createGraph_reads_layers_only (createGraph s).2 s) as (Ho & Hg & _).
  - vm_compute. reflexivity.
  - vm_compute. reflexivity.
  - split; [exact Ho | exact Hg].
Defined.

(** X18: the two layers can be set in either order: setting the node layer
    and then the reach layer leaves the manager that setting the reach
    layer and then the node layer leaves, up to the timings. *)
Theorem layers_set_in_either_order (s : t) (nl rl : layer) :
  set_timings []
    (exec (SetReachLayer (Some rl)) (exec (SetNodeLayer (Some nl)) s))
  = set_timings []
      (exec (SetNodeLayer (Some nl)) (exec (SetReachLayer (Some rl)) s)).
Proof.
  assert (Hnode : forall s0,
            same_layers
              (set_nodeLayerId (VStr (layer_id nl))
                 (set_nodeLayer (Some nl) (set_dirty true s0)))
              (exec (SetNodeLayer (Some nl)) s0)).
  { intros s0. simpl. unfold setNodeLayer. run_monad.
    case_match; [apply same_layers_createGraph | by repeat split]. }
  assert (Hreach : forall s0,
            same_layers
              (set_reachLayerId (VStr (layer_id rl))
                 (set_dirty true (set_reachLayer (Some rl) s0)))
              (exec (SetReachLayer (Some rl)) s0)).
  { intros s0. simpl. unfold setReachLayer. run_monad.
    case_match; [apply same_layers_createGraph | by repeat split]. }
  destruct (Hnode s) as (N1 & N2 & N3 & N4).
  destruct (Hreach s) as (R1 & R2 & R3 & R4).
  simpl in N1, N2, N3, N4, R1, R2, R3, R4.
  cbn [exec] in *.
  unfold setReachLayer at 1. unfold setNodeLayer at 2. run_monad.
  unfold both_layers. simpl. rewrite N1, R2. simpl.
  apply createGraph_same; simpl; congruence.
Qed.

(** X19: no method drops a timing: after every call the timings from
    before are the beginning of the timings, and a [createGraph] that
    returns has added its five snapshots, so that the list grows with every
    rebuild. *)
Theorem timings_only_grow :
  (forall o s, timings s `prefix_of` timings (exec o s))
  /\ (forall s s',
        createGraph s = (Ok tt, s') ->
        timings s' =
        timings s ++ ["create graph"; "initiate dicts"; "initiate graph";
                      "add vertices"; "add edges"]).
Proof.
  split.
  - intros o s. apply timings_grow_exec.
  - apply createGraph_Ok_timings.
Qed.

Lemma timings_only_grow_witness :
  timings (createGraph (Claims.with_layers Claims.nodes_ABC Claims.reaches_C1)).2
  = ["create graph"; "initiate dicts"; "initiate graph"; "add vertices"; "add edges"].
Proof.
  apply (proj2 timings_only_grow
           (Claims.with_layers Claims.nodes_ABC Claims.reaches_C1)).
  vm_compute. reflexivity.
Defined.

(** X20: only [setReachLayer] and [setNodeLayer] change the layers and the
    layer ids: every other method, whether it returns or raises, leaves
    the four as they were. *)
Theorem layers_changed_by_setters_only (o : op) (s : t) :
  (forall l, o <> SetReachLayer l) ->
  (forall l, o <> SetNodeLayer l) ->
  nodeLayer (exec o s) = nodeLayer s
  /\ reachLayer (exec o s) = reachLayer s
  /\ nodeLayerId (exec o s) = nodeLayerId s
  /\ reachLayerId (exec o s) = reachLayerId s.
Proof. apply same_layers_exec. Qed.

Lemma layers_changed_by_setters_only_witness :
  let s := Claims.with_layers Claims.nodes_ABC Claims.reaches_C7 in
  nodeLayer (exec Refresh s) = nodeLayer s
  /\ reachLayer (exec Refresh s) = reachLayer s
  /\ nodeLayerId (exec Refresh s) = nodeLayerId s
  /\ reachLayerId (exec Refresh s) = reachLayerId s.
Proof.
  intros s. apply (layers_changed_by_setters_only Refresh s); discriminate.
Defined.

(** X21: a query on a manager whose flag is set and whose node layer is
    not set raises [AttributeError], also for the path from a node to
    itself, and the rebuild it started has already replaced the graph by an
    empty one and emptied the index; the flag stays set. *)
Theorem query_without_node_layer (s : t) (a b n : Z) (r : bool) :
  dirty s = true ->
  nodeLayer s = None ->
  exists s',
    shortestPath a b s = (Raise AttributeError, s')
    /\ getTree n r s = (Raise AttributeError, s')
    /\ graph s' = Some Nx.empty
    /\ vertexIds s' = ∅
    /\ dirty s' = true.
Proof.
  intros Hd Hn. exists (createGraph_reset s).
  assert (Hcreate : createGraph s = (Raise AttributeError, createGraph_reset s)).
  { rewrite createGraph_reset_fill.
    unfold createGraph_fill, _addVertices. run_monad.
    assert (Hn' : nodeLayer (createGraph_reset s) = None) by exact Hn.
    by rewrite Hn'. }
  unfold shortestPath, getTree. run_monad. rewrite Hd, Hcreate.
  split_and!; try done.
Qed.

Lemma query_without_node_layer_witness :
  exists s',
    shortestPath 1 1 initial = (Raise AttributeError, s')
    /\ getTree 1 false initial = (Raise AttributeError, s')
    /\ graph s' = Some Nx.empty
    /\ vertexIds s' = ∅
    /\ dirty s' = true.
Proof. apply (query_without_node_layer initial 1 1 1 false); reflexivity. Defined.

End Extras.
